(** * GoDis: a linear-sweep disassembler for a subset of 32-bit x86

    Shallow embedding of the Go packages [datatypes], [encoders],
    [operations] and [main], followed by the properties of the decoder
    that the specification states, and by further properties of the
    code.

    Conventions of the embedding:
    - a Go [byte] is a [Z] in [0, 256); a Go [int] is a [Z] (the offsets
      and targets computed here stay far below 2^63, so no wrap-around
      is written for them);
    - a Go [error] value is [option error], [None] being [nil];
    - a function that may panic returns [option], [None] being the panic;
    - the buffer is threaded explicitly through every function that
      reads from it;
    - [*Instruction] pointers are locations of an explicit heap, so that
      two names for one object see each other's writes. *)

From Stdlib Require Import ZArith List String Ascii Lia.
From stdpp Require Import base option list gmap strings sorting.

Open Scope Z_scope.

(** ** Go's [error] values used by the program *)

Inductive error :=
  | EOF                    (* io.EOF *)
  | ErrUnexpectedEOF       (* io.ErrUnexpectedEOF *)
  | ONF                    (* operations.ONF, "Op Not Found" *)
  | Errorf (msg : string). (* a value built by fmt.Errorf *)

#[global] Instance error_eq_dec : EqDecision error.
Proof. solve_decision. Defined.

(** [err.Error()] *)
Definition Error (e : error) : string :=
  match e with
  | EOF => "EOF"
  | ErrUnexpectedEOF => "unexpected EOF"
  | ONF => "ONF"
  | Errorf msg => msg
  end.

(** ** The verbs of [fmt] the program uses *)

Module fmt.

Definition hex_digit (d : Z) : ascii :=
  match d with
  | 0 => "0" | 1 => "1" | 2 => "2" | 3 => "3"
  | 4 => "4" | 5 => "5" | 6 => "6" | 7 => "7"
  | 8 => "8" | 9 => "9" | 10 => "a" | 11 => "b"
  | 12 => "c" | 13 => "d" | 14 => "e" | _ => "f"
  end%char.

(** The digits of a non-negative number in a base up to 16, most
    significant first; [fuel] bounds the number of digits. *)
Fixpoint digits (base : Z) (fuel : nat) (n : Z) (acc : string) : string :=
  match fuel with
  | O => acc
  | S fuel' =>
      let acc' := String (hex_digit (n mod base)) acc in
      if n / base =? 0 then acc' else digits base fuel' (n / base) acc'
  end.

Definition hex (n : Z) : string :=
  digits 16 (S (Z.to_nat (Z.log2 n))) n EmptyString.

Definition dec (n : Z) : string :=
  digits 10 (S (Z.to_nat (Z.log2 n))) n EmptyString.

Fixpoint zeros (k : nat) : string :=
  match k with
  | O => EmptyString
  | S k' => String "0" (zeros k')
  end.

Definition pad0 (width : nat) (s : string) : string :=
  zeros (width - String.length s) +:+ s.

(** The verb [%0<width>x] on a signed integer: the sign takes one of
    the [width] columns. *)
Definition x0 (width : nat) (n : Z) : string :=
  if n <? 0 then "-" +:+ pad0 (width - 1) (hex (- n))
  else pad0 width (hex n).

(** The verb [%d] on a length. *)
Definition d (n : nat) : string := dec (Z.of_nat n).

End fmt.

(** ** [bytes.Buffer]

    The buffer is represented by the bytes not yet read and by the byte
    that [UnreadByte] would give back ([lastRead] is [opInvalid] when it
    is [None]). *)

Module bytes.

Record Buffer := mkBuffer {
  unread : list Z;
  lastRead : option Z
}.

Definition NewBuffer (input : list Z) : Buffer := mkBuffer input None.

Definition Len (b : Buffer) : nat := length (unread b).

(** [ReadByte]: [None] stands for the error [io.EOF]. *)
Definition ReadByte (b : Buffer) : option Z * Buffer :=
  match unread b with
  | [] => (None, mkBuffer [] None)
  | c :: rest => (Some c, mkBuffer rest (Some c))
  end.

(** [UnreadByte]; its error (no byte to give back) is ignored by every
    caller and leaves the buffer as it is. *)
Definition UnreadByte (b : Buffer) : Buffer :=
  match lastRead b with
  | None => b
  | Some c => mkBuffer (c :: unread b) None
  end.

(** [Next n]: the next [n] bytes, or fewer when the buffer is shorter.
    A negative [n] is a slice-bounds panic. *)
Definition Next (n : Z) (b : Buffer) : option (list Z * Buffer) :=
  if n <? 0 then None
  else
    let data := take (Z.to_nat n) (unread b) in
    Some (data, mkBuffer (drop (Z.to_nat n) (unread b)) (last data)).

End bytes.

(** ** Package [datatypes] *)

Module datatypes.

Record Prefix := mkPrefix {
  Prefix_Literal : Z;
  Prefix_Mnemonic : string
}.

#[global] Instance Prefix_eq_dec : EqDecision Prefix.
Proof. solve_decision. Defined.

Record ModRm := mkModRm {
  ModRm_Literal : Z;
  Mod : Z;
  Reg : Z;
  RM : Z
}.

Record Instruction := mkInstruction {
  Literal : list Z;
  Offset : Z;
  Label : string;
  Pre : option Prefix;
  Mnemonic : string;
  Op : Z;
  Modrm : option ModRm;
  Displacement : list Z;
  Immediate : list Z;
  DispSize : Z;
  ImmSize : Z;
  Operands : string
}.

(** [&Instruction{}] *)
Definition zero_Instruction : Instruction :=
  mkInstruction [] 0 EmptyString None EmptyString 0 None [] [] 0 0 EmptyString.

(** Field assignments [inst.F = v]. *)
Definition set_Literal (v : list Z) (i : Instruction) : Instruction :=
  mkInstruction v (Offset i) (Label i) (Pre i) (Mnemonic i) (Op i) (Modrm i)
    (Displacement i) (Immediate i) (DispSize i) (ImmSize i) (Operands i).
Definition set_Offset (v : Z) (i : Instruction) : Instruction :=
  mkInstruction (Literal i) v (Label i) (Pre i) (Mnemonic i) (Op i) (Modrm i)
    (Displacement i) (Immediate i) (DispSize i) (ImmSize i) (Operands i).
Definition set_Label (v : string) (i : Instruction) : Instruction :=
  mkInstruction (Literal i) (Offset i) v (Pre i) (Mnemonic i) (Op i) (Modrm i)
    (Displacement i) (Immediate i) (DispSize i) (ImmSize i) (Operands i).
Definition set_Pre (v : option Prefix) (i : Instruction) : Instruction :=
  mkInstruction (Literal i) (Offset i) (Label i) v (Mnemonic i) (Op i) (Modrm i)
    (Displacement i) (Immediate i) (DispSize i) (ImmSize i) (Operands i).
Definition set_Mnemonic (v : string) (i : Instruction) : Instruction :=
  mkInstruction (Literal i) (Offset i) (Label i) (Pre i) v (Op i) (Modrm i)
    (Displacement i) (Immediate i) (DispSize i) (ImmSize i) (Operands i).
Definition set_Op (v : Z) (i : Instruction) : Instruction :=
  mkInstruction (Literal i) (Offset i) (Label i) (Pre i) (Mnemonic i) v (Modrm i)
    (Displacement i) (Immediate i) (DispSize i) (ImmSize i) (Operands i).
Definition set_Modrm (v : option ModRm) (i : Instruction) : Instruction :=
  mkInstruction (Literal i) (Offset i) (Label i) (Pre i) (Mnemonic i) (Op i) v
    (Displacement i) (Immediate i) (DispSize i) (ImmSize i) (Operands i).
Definition set_Displacement (v : list Z) (i : Instruction) : Instruction :=
  mkInstruction (Literal i) (Offset i) (Label i) (Pre i) (Mnemonic i) (Op i) (Modrm i)
    v (Immediate i) (DispSize i) (ImmSize i) (Operands i).
Definition set_Immediate (v : list Z) (i : Instruction) : Instruction :=
  mkInstruction (Literal i) (Offset i) (Label i) (Pre i) (Mnemonic i) (Op i) (Modrm i)
    (Displacement i) v (DispSize i) (ImmSize i) (Operands i).
Definition set_DispSize (v : Z) (i : Instruction) : Instruction :=
  mkInstruction (Literal i) (Offset i) (Label i) (Pre i) (Mnemonic i) (Op i) (Modrm i)
    (Displacement i) (Immediate i) v (ImmSize i) (Operands i).
Definition set_ImmSize (v : Z) (i : Instruction) : Instruction :=
  mkInstruction (Literal i) (Offset i) (Label i) (Pre i) (Mnemonic i) (Op i) (Modrm i)
    (Displacement i) (Immediate i) (DispSize i) v (Operands i).
Definition set_Operands (v : string) (i : Instruction) : Instruction :=
  mkInstruction (Literal i) (Offset i) (Label i) (Pre i) (Mnemonic i) (Op i) (Modrm i)
    (Displacement i) (Immediate i) (DispSize i) (ImmSize i) v.

(** MODRM address modes. *)
Definition AM_REG : Z := 0.
Definition AM_BYTE_OFFSET : Z := 1.
Definition AM_DWORD_OFFSET : Z := 2.
Definition AM_DIRECT : Z := 3.

(** X86 registers. *)
Definition REG_EAX : Z := 0.
Definition REG_ECX : Z := 1.
Definition REG_EDX : Z := 2.
Definition REG_EBX : Z := 3.
Definition REG_ESP : Z := 4.
Definition REG_EBP : Z := 5.
Definition REG_ESI : Z := 6.
Definition REG_EDI : Z := 7.

(** The map [Registers] as [init] fills it. *)
Definition Registers : gmap Z string :=
  <[REG_EDI := "edi"]> (<[REG_ESI := "esi"]> (<[REG_EBP := "ebp"]>
  (<[REG_ESP := "esp"]> (<[REG_EBX := "ebx"]> (<[REG_EDX := "edx"]>
  (<[REG_ECX := "ecx"]> (<[REG_EAX := "eax"]> ∅))))))).

(** [Registers[r]]: a missing key reads as the empty string. *)
Definition Registers_at (r : Z) : string := default EmptyString (Registers !! r).

Definition ParseModRM (modrm : Z) : ModRm :=
  let mod_ := Z.land (Z.shiftr modrm 6) 3 in
  let reg := Z.land (Z.shiftr modrm 3) 7 in
  let rm := Z.land modrm 7 in
  mkModRm modrm mod_ reg rm.

(** [ParseDisplacement]: the displacement bytes, the error and the
    buffer after the call. *)
Definition ParseDisplacement (modrm : option ModRm) (data : bytes.Buffer) (size : Z)
  : option (list Z * option error * bytes.Buffer) :=
  match modrm with
  | Some m =>
      if Mod m =? AM_REG then
        if RM m =? REG_EBP then
          '(displacement, data') ← bytes.Next 4 data;
          if negb (length displacement =? 4)%nat
          then Some (displacement, Some ErrUnexpectedEOF, data')
          else Some (displacement, None, data')
        else Some ([], None, data)
      else if Mod m =? AM_BYTE_OFFSET then
        match bytes.ReadByte data with
        | (None, data') => Some ([], Some ErrUnexpectedEOF, data')
        | (Some disp, data') => Some ([disp], None, data')
        end
      else if Mod m =? AM_DWORD_OFFSET then
        '(displacement, data') ← bytes.Next 4 data;
        if negb (length displacement =? 4)%nat
        then Some (displacement, Some ErrUnexpectedEOF, data')
        else Some (displacement, None, data')
      else if Mod m =? AM_DIRECT then Some ([], None, data)
      else Some ([], Some (Errorf "Bad Address Mode."), data)
  | None =>
      (* No MODRM. Displacement is part of opcode, either 1 or 4 bytes. *)
      '(displacement, data') ← bytes.Next size data;
      if negb (Z.of_nat (length displacement) =? size)
      then Some (displacement, Some ErrUnexpectedEOF, data')
      else Some (displacement, None, data')
  end.

Definition ParseImmediate (data : bytes.Buffer) (size : Z)
  : option (list Z * option error * bytes.Buffer) :=
  '(immediate, data') ← bytes.Next size data;
  if negb (Z.of_nat (length immediate) =? size)
  then Some (immediate, Some ErrUnexpectedEOF, data')
  else Some (immediate, None, data').

(** [binary.LittleEndian.Uint16] and [Uint32] on a slice of that length. *)
Definition le (intbytes : list Z) : Z :=
  foldr (fun b acc => b + 256 * acc) 0 intbytes.

Definition invalid_length (intbytes : list Z) : error :=
  Errorf ("Invalid byte slice length for integer conversion: "
          +:+ fmt.d (length intbytes)).

(** Convert a little-endian byte slice to the signed integer it represents. *)
Definition BytesToIntSigned (intbytes : list Z) : Z * option error :=
  match intbytes with
  | [b0] => ((if 128 <=? b0 then b0 - 256 else b0), None)
  | [_; _] =>
      let u := le intbytes in
      ((if 32768 <=? u then u - 65536 else u), None)
  | [_; _; _; _] =>
      let u := le intbytes in
      ((if 2147483648 <=? u then u - 4294967296 else u), None)
  | _ => (0, Some (invalid_length intbytes))
  end.

(** Convert a little-endian byte slice to the integer it represents
    without two's complementing. *)
Definition BytesToInt (intbytes : list Z) : Z * option error :=
  match intbytes with
  | [b0] => (b0, None)
  | [_; _] => (le intbytes, None)
  | [_; _; _; _] => (le intbytes, None)
  | _ => (0, Some (invalid_length intbytes))
  end.

Definition StringifyInteger (integer : Z) : string :=
  "0x" +:+ fmt.x0 8 integer.

Definition StringifyIntegerBytes (intbytes : list Z) : string :=
  match BytesToInt intbytes with
  | (_, Some _) => EmptyString
  | (integer, None) => "0x" +:+ fmt.x0 8 integer
  end.

(** Stringify the RM part of MODRM, depending on the addressing mode. *)
Definition StringifyRM (modrm : option ModRm) (disp : list Z) : string :=
  match modrm with
  | Some m =>
      let rm := Registers_at (RM m) in
      if Mod m =? AM_REG then
        if RM m =? REG_EBP
        then "[ " +:+ StringifyIntegerBytes disp +:+ " ]"
        else "[ " +:+ rm +:+ " ]"
      else if (Mod m =? AM_BYTE_OFFSET) || (Mod m =? AM_DWORD_OFFSET) then
        "[ " +:+ rm +:+ "+" +:+ StringifyIntegerBytes disp +:+ " ]"
      else if Mod m =? AM_DIRECT then rm
      else EmptyString
  | None => EmptyString
  end.

End datatypes.

(** ** Package [encoders] *)

Module encoders.

Import datatypes.

(** The ten instruction encodings; each implements the interface
    [Encoder] ([Encode], [StringifyOperands], [Encoding]). *)
Inductive Encoder := M | MI | MR | RM | RMI | NP | O | I | OI | D.

#[global] Instance Encoder_eq_dec : EqDecision Encoder.
Proof. solve_decision. Defined.

(** What an [Encode] method leaves behind: the instruction as written
    through the pointer, the buffer and the returned error. *)
Definition encoded : Type := Instruction * bytes.Buffer * option error.

(** Consume the MODRM byte and the displacement, depending on its
    addressing mode. *)
Definition M_Encode (data : bytes.Buffer) (inst : Instruction) : option encoded :=
  match bytes.ReadByte data with
  | (None, data1) => Some (inst, data1, Some ErrUnexpectedEOF)
  | (Some next, data1) =>
      let inst1 := set_Modrm (Some (ParseModRM next)) inst in
      let inst2 := set_Literal (Literal inst1 ++ [ModRm_Literal (ParseModRM next)]) inst1 in
      '(displacement, err, data2) ← ParseDisplacement (Modrm inst2) data1 0;
      let inst3 := set_Displacement displacement inst2 in
      let inst4 := set_Literal (Literal inst3 ++ Displacement inst3) inst3 in
      Some (inst4, data2, err)
  end.

(** Same, then consume a 32-bit immediate. *)
Definition MI_Encode (data : bytes.Buffer) (inst : Instruction) : option encoded :=
  '(inst1, data1, err) ← M_Encode data inst;
  match err with
  | Some e => Some (inst1, data1, Some e)
  | None =>
      '(immediate, err2, data2) ← ParseImmediate data1 4;
      let inst2 := set_Immediate immediate inst1 in
      let inst3 := set_Literal (Literal inst2 ++ Immediate inst2) inst2 in
      Some (inst3, data2, err2)
  end.

Definition I_Encode (data : bytes.Buffer) (inst : Instruction) : option encoded :=
  '(immediate, err, data1) ← ParseImmediate data (ImmSize inst);
  let inst1 := set_Immediate immediate inst in
  let inst2 := set_Literal (Literal inst1 ++ Immediate inst1) inst1 in
  Some (inst2, data1, err).

Definition OI_Encode (data : bytes.Buffer) (inst : Instruction) : option encoded :=
  '(immediate, err, data1) ← ParseImmediate data 4;
  let inst1 := set_Immediate immediate inst in
  let inst2 := set_Literal (Literal inst1 ++ Immediate inst1) inst1 in
  Some (inst2, data1, err).

(** Consume an 8-bit or 32-bit displacement. *)
Definition D_Encode (data : bytes.Buffer) (inst : Instruction) : option encoded :=
  '(displacement, err, data1) ← ParseDisplacement (Modrm inst) data (DispSize inst);
  let inst1 := set_Displacement displacement inst in
  let inst2 := set_Literal (Literal inst1 ++ Displacement inst1) inst1 in
  Some (inst2, data1, err).

Definition Encode (e : Encoder) (data : bytes.Buffer) (inst : Instruction)
  : option encoded :=
  match e with
  | M => M_Encode data inst
  | MI => MI_Encode data inst
  | MR => M_Encode data inst
  | RM => M_Encode data inst
  | RMI => MI_Encode data inst
  | NP => Some (inst, data, None)
  | O => Some (inst, data, None)
  | I => I_Encode data inst
  | OI => OI_Encode data inst
  | D => D_Encode data inst
  end.

(** What [StringifyOperands] returns: the operand string, an offset,
    whether that offset is a branch target, and the error. *)
Definition stringified : Type := string * Z * bool * option error.

(** [inst.Modrm.Reg]: a nil [Modrm] is a nil-pointer panic. *)
Definition Modrm_Reg (inst : Instruction) : option Z := Reg <$> Modrm inst.

Definition StringifyOperands (e : Encoder) (inst : Instruction) : option stringified :=
  match e with
  | M => Some (StringifyRM (Modrm inst) (Displacement inst), 0, false, None)
  | MI =>
      let rm := StringifyRM (Modrm inst) (Displacement inst) in
      let imm := StringifyIntegerBytes (Immediate inst) in
      Some (rm +:+ ", " +:+ imm, 0, false, None)
  | MR =>
      let rm := StringifyRM (Modrm inst) (Displacement inst) in
      r ← Modrm_Reg inst;
      let reg := Registers_at r in
      Some (rm +:+ ", " +:+ reg, 0, false, None)
  | RM =>
      let rm := StringifyRM (Modrm inst) (Displacement inst) in
      r ← Modrm_Reg inst;
      let reg := Registers_at r in
      Some (reg +:+ ", " +:+ rm, 0, false, None)
  | RMI =>
      let rm := StringifyRM (Modrm inst) (Displacement inst) in
      r ← Modrm_Reg inst;
      let reg := Registers_at r in
      let imm := StringifyIntegerBytes (Immediate inst) in
      Some (reg +:+ ", " +:+ rm +:+ ", " +:+ imm, 0, false, None)
  | NP => Some (EmptyString, 0, false, None)
  | O =>
      let reg := Z.land (Op inst) 7 in
      Some (Registers_at reg, 0, false, None)
  | I =>
      let imm := StringifyIntegerBytes (Immediate inst) in
      Some (imm, 0, false, None)
  | OI =>
      let reg := Registers_at (Z.land (Op inst) 7) in
      let imm := StringifyIntegerBytes (Immediate inst) in
      Some (reg +:+ ", " +:+ imm, 0, false, None)
  | D =>
      let start := Offset inst + Z.of_nat (length (Literal inst)) in
      let '(disp, err) := BytesToIntSigned (Displacement inst) in
      let end_ := start + disp in
      Some ("offset_" +:+ fmt.x0 8 end_ +:+ "h", end_, true, err)
  end.

Definition Encoding (e : Encoder) : string :=
  match e with
  | M => "M" | MI => "MI" | MR => "MR" | RM => "RM" | RMI => "RMI"
  | NP => "NP" | O => "O" | I => "I" | OI => "OI" | D => "D"
  end.

End encoders.

(** ** Package [operations] *)

Module operations.

Import datatypes.

Record OpCode := mkOp {
  OpCode_Literal : Z;
  OpCode_Mnemonic : string;
  Encoder : encoders.Encoder;
  ModrmReq : bool;
  ExtensionReq : bool;
  PrefixReq : bool;
  Extension : Z;
  OpCode_DispSize : Z;
  OpCode_ImmSize : Z
}.

Definition Vex : Prefix := mkPrefix 0x0F EmptyString.
Definition Repne : Prefix := mkPrefix 0xF2 "repne".

Definition Prefixes : gmap Z Prefix := <[0xF2 := Repne]> (<[0x0F := Vex]> ∅).

(** The three opcode maps. *)
Record Tables := mkTables {
  t_OpCodes : gmap Z OpCode;
  t_OpCodesExt : gmap Z (gmap Z OpCode);
  t_OpCodesPrefixed : gmap Z OpCode
}.

(** The maps before the population loop: only the seven extension
    maps exist, all empty. *)
Definition tables0 : Tables :=
  mkTables ∅
    (<[0xD1 := ∅]> (<[0x8F := ∅]> (<[0xC7 := ∅]> (<[0xF7 := ∅]>
     (<[0xAE := ∅]> (<[0xFF := ∅]> (<[0x81 := ∅]> ∅)))))))
    ∅.

(** Field order: Literal, Mnemonic, Encoder, ModrmReq, ExtensionReq,
    PrefixReq, Extension, DispSize, ImmSize; a field the source leaves
    out has its zero value. *)
Definition allOps : list OpCode := [
  mkOp 0x05 "add eax," encoders.I false false false 0 0 4;
  mkOp 0x81 "add" encoders.MI true true false 0 0 4;
  mkOp 0x01 "add" encoders.MR true false false 0 0 0;
  mkOp 0x03 "add" encoders.RM true false false 0 0 0;
  mkOp 0x25 "and eax," encoders.I false false false 0 0 4;
  mkOp 0x81 "and" encoders.MI true true false 4 0 4;
  mkOp 0x21 "and" encoders.MR true false false 0 0 0;
  mkOp 0x23 "and" encoders.RM true false false 0 0 0;
  mkOp 0xE8 "call" encoders.D false false false 0 4 0;
  mkOp 0xFF "call" encoders.M true true false 2 0 0;
  mkOp 0xAE "clflush" encoders.M true true true 7 0 0;
  mkOp 0x3D "cmp eax," encoders.I false false false 0 0 4;
  mkOp 0x81 "cmp" encoders.MI true true false 7 0 4;
  mkOp 0x39 "cmp" encoders.MR true false false 0 0 0;
  mkOp 0x3B "cmp" encoders.RM true false false 0 0 0;
  mkOp 0xFF "dec" encoders.M true true false 1 0 0;
  mkOp 0x48 "dec" encoders.O false false false 0 0 0;
  mkOp 0xF7 "idiv" encoders.M true true false 7 0 0;
  mkOp 0xF7 "imul" encoders.M true true false 5 0 0;
  mkOp 0xAF "imul" encoders.RM true false true 0 0 0;
  mkOp 0x69 "imul" encoders.RMI true false false 0 0 4;
  mkOp 0xFF "inc" encoders.M true true false 0 0 0;
  mkOp 0x40 "inc" encoders.O false false false 0 0 0;
  mkOp 0xEB "jmp" encoders.D false false false 0 1 0;
  mkOp 0xE9 "jmp" encoders.D false false false 0 4 0;
  mkOp 0xFF "jmp" encoders.M true true false 4 0 0;
  mkOp 0x74 "jz" encoders.D false false false 0 1 0;
  mkOp 0x84 "jz" encoders.D false false true 0 4 0;
  mkOp 0x75 "jnz" encoders.D false false false 0 1 0;
  mkOp 0x85 "jnz" encoders.D false false true 0 4 0;
  mkOp 0x8D "lea" encoders.RM true false false 0 0 0;
  mkOp 0xB8 "mov" encoders.OI false false false 0 0 4;
  mkOp 0xC7 "mov" encoders.MI true true false 0 0 4;
  mkOp 0x89 "mov" encoders.MR true false false 0 0 0;
  mkOp 0x8B "mov" encoders.RM true false false 0 0 0;
  mkOp 0xA5 "movsd" encoders.NP false false false 0 0 0;
  mkOp 0xF7 "mul" encoders.M true true false 4 0 0;
  mkOp 0xF7 "neg" encoders.M true true false 3 0 0;
  mkOp 0x90 "nop" encoders.NP false false false 0 0 0;
  mkOp 0xF7 "not" encoders.M true true false 2 0 0;
  mkOp 0x0D "or eax," encoders.I false false false 0 0 4;
  mkOp 0x81 "or" encoders.MI true true false 1 0 4;
  mkOp 0x09 "or" encoders.MR true false false 0 0 0;
  mkOp 0x0B "or" encoders.RM true false false 0 0 0;
  mkOp 0xE7 "out %s, eax" encoders.I false false false 0 0 1;
  mkOp 0x8F "pop" encoders.M true true false 0 0 0;
  mkOp 0x58 "pop" encoders.O false false false 0 0 0;
  mkOp 0xFF "push" encoders.M true true false 6 0 0;
  mkOp 0x50 "push" encoders.O false false false 0 0 0;
  mkOp 0x68 "push" encoders.I false false false 0 0 4;
  mkOp 0xA7 "cmpsd" encoders.NP false false false 0 0 0;
  mkOp 0xCB "retf" encoders.NP false false false 0 0 0;
  mkOp 0xCA "retf" encoders.I false false false 0 0 2;
  mkOp 0xC3 "retn" encoders.NP false false false 0 0 0;
  mkOp 0xC2 "retn" encoders.I false false false 0 0 2;
  mkOp 0xD1 "sal %s, 1" encoders.M true true false 4 0 0;
  mkOp 0xD1 "sar %s, 1" encoders.M true true false 7 0 0;
  mkOp 0xD1 "shr %s, 1" encoders.M true true false 5 0 0;
  mkOp 0x1D "sbb eax," encoders.I false false false 0 0 4;
  mkOp 0x81 "sbb" encoders.MI true true false 3 0 4;
  mkOp 0x19 "sbb" encoders.MR true false false 0 0 0;
  mkOp 0x1B "sbb" encoders.RM true false false 0 0 0;
  mkOp 0x2D "sub eax," encoders.I false false false 0 0 4;
  mkOp 0x81 "sub" encoders.MI true true false 5 0 4;
  mkOp 0x29 "sub" encoders.MR true false false 0 0 0;
  mkOp 0x2B "sub" encoders.RM true false false 0 0 0;
  mkOp 0xA9 "test eax," encoders.I false false false 0 0 4;
  mkOp 0xF7 "test" encoders.MI true true false 0 0 4;
  mkOp 0x85 "test" encoders.MR true false false 0 0 0;
  mkOp 0x35 "xor eax," encoders.I false false false 0 0 4;
  mkOp 0x81 "xor" encoders.MI true true false 6 0 4;
  mkOp 0x31 "xor" encoders.MR true false false 0 0 0;
  mkOp 0x33 "xor" encoders.RM true false false 0 0 0
].

(** [n] rounds of [OpCodes[byte(i)] = op; i++]. *)
Fixpoint install_run (n : nat) (i : Z) (op : OpCode) (m : gmap Z OpCode)
  : gmap Z OpCode :=
  match n with
  | O => m
  | S n' => install_run n' (i + 1) op (<[i mod 256 := op]> m)
  end.

(** [for i := lo; i < hi; i++ { OpCodes[byte(i)] = op }] *)
Definition install_range (lo hi : Z) (op : OpCode) (m : gmap Z OpCode)
  : gmap Z OpCode :=
  install_run (Z.to_nat (hi - lo)) lo op m.

(** One round of the loop that populates the maps; writing into an
    extension map that does not exist is a panic. *)
Definition install (t : Tables) (op : OpCode) : option Tables :=
  if ExtensionReq op then
    opcode_map ← t_OpCodesExt t !! OpCode_Literal op;
    Some (mkTables (t_OpCodes t)
            (<[OpCode_Literal op := <[Extension op := op]> opcode_map]> (t_OpCodesExt t))
            (t_OpCodesPrefixed t))
  else if PrefixReq op then
    Some (mkTables (t_OpCodes t) (t_OpCodesExt t)
            (<[OpCode_Literal op := op]> (t_OpCodesPrefixed t)))
  else if bool_decide (encoders.Encoding (Encoder op) = "O")
          || bool_decide (encoders.Encoding (Encoder op) = "OI") then
    Some (mkTables
            (install_range (OpCode_Literal op) (OpCode_Literal op + 7) op (t_OpCodes t))
            (t_OpCodesExt t) (t_OpCodesPrefixed t))
  else
    Some (mkTables (<[OpCode_Literal op := op]> (t_OpCodes t))
            (t_OpCodesExt t) (t_OpCodesPrefixed t)).

Fixpoint populate (ops : list OpCode) (t : Tables) : option Tables :=
  match ops with
  | [] => Some t
  | op :: ops' => t' ← install t op; populate ops' t'
  end.

(** The maps as [init] leaves them. *)
Definition tables : Tables := default tables0 (populate allOps tables0).

Definition OpCodes : gmap Z OpCode := t_OpCodes tables.
Definition OpCodesExt : gmap Z (gmap Z OpCode) := t_OpCodesExt tables.
Definition OpCodesPrefixed : gmap Z OpCode := t_OpCodesPrefixed tables.

(** [(o *OpCode) Encode] *)
Definition Encode (o : OpCode) (data : bytes.Buffer) (inst : Instruction)
  : option encoders.encoded :=
  let inst1 := set_Mnemonic (OpCode_Mnemonic o) inst in
  let inst2 := set_DispSize (OpCode_DispSize o) inst1 in
  let inst3 := set_ImmSize (OpCode_ImmSize o) inst2 in
  encoders.Encode (Encoder o) data inst3.

(** ["db %02x"] *)
Definition db (b : Z) : error := Errorf ("db " +:+ fmt.x0 2 b).

Definition GetExtendedOpcode (opcode : Z) (data : bytes.Buffer)
  : option OpCode * option error * bytes.Buffer :=
  match OpCodesExt !! opcode with
  | Some opcode_map =>
      match bytes.ReadByte data with
      | (None, data1) => (None, Some ErrUnexpectedEOF, data1)
      | (Some modrm_byte, data1) =>
          let modrm := ParseModRM modrm_byte in
          match opcode_map !! Reg modrm with
          | Some code => (Some code, None, bytes.UnreadByte data1)
          | None =>
              (* Bad extension, treat like unknown opcode *)
              (None, Some (db opcode), bytes.UnreadByte data1)
          end
      end
  | None => (None, Some ONF, data)
  end.

(** What [GetNext] returns, with the buffer after the call. *)
Definition next : Type :=
  option OpCode * option Prefix * Z * option error * bytes.Buffer.

(** Parses the next operation from the data buffer and returns the
    OpCode and Prefix byte. *)
Definition GetNext (data : bytes.Buffer) : next :=
  match bytes.ReadByte data with
  | (None, data1) => (None, None, 0x00, Some EOF, data1)
  | (Some next, data1) =>
      match Prefixes !! next with
      | Some prefix =>
          match bytes.ReadByte data1 with
          | (None, data2) => (None, Some prefix, 0x00, Some ErrUnexpectedEOF, data2)
          | (Some code, data2) =>
              if decide (prefix = Vex) then
                match OpCodesPrefixed !! code with
                | Some opcode => (Some opcode, Some prefix, code, None, data2)
                | None =>
                    if code =? 0xAE then (* CLFLUSH is a chimera. *)
                      let '(op, err, data3) := GetExtendedOpcode code data2 in
                      (op, Some prefix, code, err, data3)
                    else
                      (None, Some prefix, 0x00, Some (db (Prefix_Literal prefix)),
                       bytes.UnreadByte data2)
                end
              else if decide (prefix = Repne) then
                match OpCodes !! code with
                | Some opcode => (Some opcode, Some prefix, code, None, data2)
                | None => (None, Some prefix, code, Some (db code), data2)
                end
              else
                (None, Some prefix, 0x00, Some (db (Prefix_Literal prefix)),
                 bytes.UnreadByte data2)
          end
      | None =>
          let '(opcode, err, data2) := GetExtendedOpcode next data1 in
          if negb (bool_decide (err = Some ONF)) then
            (opcode, None, next, err, data2)
          else
            match OpCodes !! next with
            | Some opcode => (Some opcode, None, next, None, data2)
            | None => (None, None, next, Some (db next), data2)
            end
      end
  end.

End operations.

(** ** Package [main] *)

Module main.

Import datatypes.

(** *** The heap of [Instruction] objects *)

(** [&Instruction{...}]: a new object, at the next free location. *)
Definition new (i : Instruction) (h : list Instruction) : nat * list Instruction :=
  (length h, h ++ [i]).

(** Reading and writing through a pointer. Every pointer the program
    holds comes from [new], so the default is never read. *)
Definition load (p : nat) (h : list Instruction) : Instruction :=
  default zero_Instruction (h !! p).

Definition store (p : nat) (i : Instruction) (h : list Instruction)
  : list Instruction :=
  <[p := i]> h.

(** The state of [Parse_Instructions] at the head of its loop: the heap,
    the global map [Instructions], the buffer [data], the local [offset]
    and what has been printed. *)
Record State := mkState {
  heap : list Instruction;
  Instructions : gmap Z nat;
  data : bytes.Buffer;
  offset : Z;
  stdout : list string
}.

Definition newline : string := String "010"%char EmptyString.

(** [fmt.Printf("Error encoding: %s\n", err)] when [err != nil], and
    likewise for the stringifier. *)
Definition report (what : string) (err : option error) (out : list string)
  : list string :=
  match err with
  | Some e => out ++ [what +:+ Error e +:+ newline]
  | None => out
  end.

(** The statements of the loop body from the call of [GetNext] to the
    call of [StringifyOperands] act on the instruction object, the
    buffer and the output only; [decode] is these statements, applied to
    the contents [i0] of the object that [instruction] points to. *)
Inductive decoded :=
  | Stop (err : error) (data1 : bytes.Buffer)
      (* [GetNext] gave io.EOF or io.ErrUnexpectedEOF: [break] *)
  | Unknown (inst : Instruction) (data1 : bytes.Buffer)
      (* [GetNext] gave another error: the [db] path *)
  | Decoded (inst : Instruction) (data2 : bytes.Buffer)
      (other_offset : Z) (is_offset : bool) (out : list string)
  | DecodePanic.

Definition decode (offset : Z) (data : bytes.Buffer) (i0 : Instruction)
    (out : list string) : decoded :=
  (* Consume the next opcode from the input. *)
  match operations.GetNext data with
  | (_, _, opcode_literal, Some err, data1) =>
      if bool_decide (err = EOF) || bool_decide (err = ErrUnexpectedEOF) then
        Stop err data1
      else
        (* Handle unknown OpCode *)
        let i1 := set_Offset offset i0 in
        let i2 := set_Mnemonic (Error err) i1 in
        let i3 := set_Literal (Literal i2 ++ [opcode_literal]) i2 in
        Unknown i3 data1
  | (None, _, _, None, _) => DecodePanic
  | (Some opcode, prefix, opcode_literal, None, data1) =>
      (* Start building the instruction *)
      let i1 := set_Offset offset i0 in
      let i2 := set_Pre prefix i1 in
      let i3 := set_Op opcode_literal i2 in
      let i4 :=
        match prefix with
        | Some p => set_Literal (Literal i3 ++ [Prefix_Literal p]) i3
        | None => i3
        end in
      let i5 := set_Literal (Literal i4 ++ [opcode_literal]) i4 in
      match operations.Encode opcode data1 i5 with
      | None => DecodePanic
      | Some (i6, data2, err1) =>
          let out1 := report "Error encoding: " err1 out in
          match encoders.StringifyOperands (operations.Encoder opcode) i6 with
          | None => DecodePanic
          | Some (operands, other_offset, is_offset, err2) =>
              let i7 := set_Operands operands i6 in
              let out2 := report "Error stringifying: " err2 out1 in
              Decoded i7 data2 other_offset is_offset out2
          end
      end
  end.

(** The body of [if is_offset { ... }]. *)
Definition attach_label (instruction : nat) (other_offset : Z)
    (h : list Instruction) (m : gmap Z nat) : list Instruction * gmap Z nat :=
  let '(fresh, h1) := new (set_Offset other_offset zero_Instruction) h in
  let other_instruction :=
    match m !! other_offset with
    | Some other_inst => other_inst
    | None => fresh
    end in
  let h2 := store other_instruction
              (set_Label (Operands (load instruction h1)) (load other_instruction h1)) h1 in
  (h2, <[other_offset := other_instruction]> m).

(** Grab the instruction from the master map if it exists, or create a
    new one: the pointer [instruction] and the heap after the allocation. *)
Definition fetch (s : State) : nat * list Instruction :=
  let '(fresh, h0) := new zero_Instruction (heap s) in
  match Instructions s !! offset s with
  | Some inst => (inst, h0)
  | None => (fresh, h0)
  end.

(** How one round of the loop ends. *)
Inductive outcome :=
  | Continue (s : State)             (* next round *)
  | Break (s : State) (err : error)  (* [break], with the value of [err] *)
  | Panic.                           (* a run-time panic *)

(** One round of the loop of [Parse_Instructions]. *)
Definition iteration (s : State) : outcome :=
  let '(instruction, h0) := fetch s in
  match decode (offset s) (data s) (load instruction h0) (stdout s) with
  | Stop err data1 =>
      Break (mkState h0 (Instructions s) data1 (offset s) (stdout s)) err
  | Unknown i3 data1 =>
      Continue (mkState (store instruction i3 h0)
                  (<[offset s := instruction]> (Instructions s))
                  data1 (offset s + 1) (stdout s))
  | DecodePanic => Panic
  | Decoded i7 data2 other_offset is_offset out2 =>
      let h1 := store instruction i7 h0 in
      (* Add labels to other instructions if instruction has an offset
         as an operand. *)
      let '(h2, m2) :=
        if is_offset
        then attach_label instruction other_offset h1 (Instructions s)
        else (h1, Instructions s) in
      (* Save the instruction to the master map *)
      let m3 := <[offset s := instruction]> m2 in
      (* Update the offset for the next instruction *)
      Continue (mkState h2 m3 data2
                  (offset s + Z.of_nat (length (Literal (load instruction h2))))
                  out2)
  end.

(** How [Parse_Instructions] ends. *)
Inductive run :=
  | Returned (s : State) (err : error)
  | Panicked
  | OutOfFuel.

Fixpoint loop (fuel : nat) (s : State) : run :=
  match fuel with
  | O => OutOfFuel
  | S fuel' =>
      match iteration s with
      | Continue s' => loop fuel' s'
      | Break s' err => Returned s' err
      | Panic => Panicked
      end
  end.

(** The state in which [main] calls [Parse_Instructions]: the file's
    bytes in the buffer, the map empty. *)
Definition init (input : list Z) : State :=
  mkState [] ∅ (bytes.NewBuffer input) 0 [].

(** Every round that continues reads at least one byte, so
    [length input + 1] rounds are enough ([Parse_Instructions_total]). *)
Definition Parse_Instructions (input : list Z) : run :=
  loop (S (length input)) (init input).

(** [Instructions[k]] dereferenced, in a state. *)
Definition instruction_at (s : State) (k : Z) : option Instruction :=
  p ← Instructions s !! k; heap s !! p.

(** What the round that starts in [s] decodes. *)
Definition decoding (s : State) : decoded :=
  decode (offset s) (data s) (load (fetch s).1 (fetch s).2) (stdout s).

(** The states the loop goes through on an input. *)
Inductive reachable (input : list Z) : State -> Prop :=
  | reachable_init : reachable input (init input)
  | reachable_step s s' :
      reachable input s -> iteration s = Continue s' -> reachable input s'.

(** Zero or more rounds. *)
Inductive rounds : State -> State -> Prop :=
  | rounds_refl s : rounds s s
  | rounds_step s s' s'' :
      iteration s = Continue s' -> rounds s' s'' -> rounds s s''.

(** The sum, over the stored instructions, of the lengths of their
    literals. *)
Definition literal_total (s : State) : nat :=
  map_fold (fun _ p acc => (length (Literal (load p (heap s))) + acc)%nat)
    0%nat (Instructions s).

(** *** [Print_Instructions]: the legality comment of one row *)

(** [OpCodesExt[0xAE][7].Mnemonic] and [OpCodes[0x8D].Mnemonic]; a
    missing record is a nil pointer and reading its field a panic. The
    conditions are evaluated left to right and short-circuit. *)
Definition comment (instruction : Instruction) : option string :=
  let illegal := "; Illegal addressing mode." in
  let direct :=
    match Modrm instruction with
    | Some m => Mod m =? AM_DIRECT
    | None => false
    end in
  if bool_decide (Mnemonic instruction = EmptyString) then Some EmptyString
  else
    clflush ← (default ∅ (operations.OpCodesExt !! 0xAE)) !! 7;
    if bool_decide (Mnemonic instruction = operations.OpCode_Mnemonic clflush)
    then Some (if direct then illegal else EmptyString)
    else
      lea ← operations.OpCodes !! 0x8D;
      if bool_decide (Mnemonic instruction = operations.OpCode_Mnemonic lea)
      then Some (if direct then illegal else EmptyString)
      else Some EmptyString.

(** A row is printed for an instruction whose literal is not empty. *)
Definition emitted (instruction : Instruction) : bool :=
  negb (length (Literal instruction) =? 0)%nat.

(** *** [Print_Instructions]: the rows *)

(** The slice [offsets]: made with [len(Instructions)] zeros, the keys
    of the map appended to it, and sorted in increasing order. *)
Definition offsets (m : gmap Z nat) : list Z :=
  merge_sort Z.le (replicate (size m) 0 ++ (map_to_list m).*1).

(** The loop over [offsets]: the instructions for which a row is
    printed, in the order of the rows, each with the element of
    [offsets] it was looked up with. [Instructions[offset]] is a nil
    pointer for a key that is not in the map, and [instruction.Literal]
    then panics. *)
Fixpoint rows (s : State) (visited : gset Z) (offsets : list Z)
  : option (list (Z * Instruction)) :=
  match offsets with
  | [] => Some []
  | offset :: offsets' =>
      instruction ← Instructions s !! offset;
      let instruction := load instruction (heap s) in
      if negb (emitted instruction) || bool_decide (offset ∈ visited) then
        rows s visited offsets'
      else
        printed ← rows s ({[offset]} ∪ visited) offsets';
        Some ((offset, instruction) :: printed)
  end.

Definition Print_Instructions (s : State) : option (list (Z * Instruction)) :=
  rows s ∅ (offsets (Instructions s)).

Definition tab : string := String "009"%char EmptyString.

(** The text that [Print_Instructions] writes to its tabwriter [t]
    before the row of an instruction with a label:
    [fmt.Fprintf(t, "%s:\t\t\t\n", instruction.Label)]; nothing is
    written for an empty label. The writer pads the tab-terminated
    cells of what it is given to the widths of their columns before it
    prints them; that alignment is not part of this model, which gives
    the text written to [t]. *)
Definition label_text (instruction : Instruction) : option string :=
  if bool_decide (Label instruction = EmptyString) then None
  else Some (Label instruction +:+ ":" +:+ tab +:+ tab +:+ tab +:+ newline).

(** The text of the first cell of a row, as written to [t]:
    [fmt.Sprintf("%08x:", instruction.Offset)]. *)
Definition ofst (instruction : Instruction) : string :=
  fmt.x0 8 (Offset instruction) +:+ ":".

End main.

(** * Properties *)

Import datatypes.

(** ** Notions used in the statements *)

(** The records whose register lives in the opcode byte: encoder kind O
    or OI, installed in the plain map. *)
Definition register_in_opcode (op : operations.OpCode) : bool :=
  negb (operations.ExtensionReq op) && negb (operations.PrefixReq op)
  && (bool_decide (operations.Encoder op = encoders.O)
      || bool_decide (operations.Encoder op = encoders.OI)).

(** The number of displacement bytes that go with a ModR/M byte, or
    with its absence: 4 for mod=00 and rm=5, 0 for mod=00 otherwise, 1
    for mod=01, 4 for mod=10, 0 for mod=11, and the fallback size when
    there is no ModR/M. *)
Definition displacement_width (modrm : option ModRm) (fallback_size : Z) : Z :=
  match modrm with
  | Some m =>
      if Mod m =? 0 then (if RM m =? 5 then 4 else 0)
      else if Mod m =? 1 then 1
      else if Mod m =? 2 then 4
      else 0
  | None => fallback_size
  end.

Definition illegal_addressing_mode : string := "; Illegal addressing mode.".

(** The instruction as the sweep has built it when it calls the
    encoder: offset, prefix and opcode byte set, and the prefix byte (if
    any) and the opcode byte appended to the literal. *)
Definition started (offset : Z) (prefix : option Prefix) (opcode_literal : Z)
    (i0 : Instruction) : Instruction :=
  let i3 := set_Op opcode_literal (set_Pre prefix (set_Offset offset i0)) in
  let i4 :=
    match prefix with
    | Some p => set_Literal (Literal i3 ++ [Prefix_Literal p]) i3
    | None => i3
    end in
  set_Literal (Literal i4 ++ [opcode_literal]) i4.

(** The state after a round that continues. *)
Definition after (s : main.State) (inst : Instruction) (data' : bytes.Buffer)
    (other_offset : Z) (is_offset : bool) (out : list string) : main.State :=
  let instruction := (main.fetch s).1 in
  let h1 := main.store instruction inst (main.fetch s).2 in
  let hm :=
    if is_offset
    then main.attach_label instruction other_offset h1 (main.Instructions s)
    else (h1, main.Instructions s) in
  main.mkState hm.1 (<[main.offset s := instruction]> hm.2) data'
    (main.offset s + Z.of_nat (length (Literal (main.load instruction hm.1)))) out.

(** What an encoder does to an instruction: it appends to the literal
    the bytes it takes from the buffer, and leaves offset and label. *)
Definition appends (inst inst' : Instruction) (data data' : bytes.Buffer) : Prop :=
  exists extra,
    Literal inst' = Literal inst ++ extra
    /\ bytes.unread data = extra ++ bytes.unread data'
    /\ Label inst' = Label inst
    /\ Offset inst' = Offset inst.

(** Every pointer in the map is allocated; no object is stored under
    two keys; and an object stored at or after the current offset has
    an empty literal (it is a label-only placeholder). *)
Record wf (s : main.State) : Prop := mk_wf {
  wf_valid : forall k p,
    main.Instructions s !! k = Some p -> (p < length (main.heap s))%nat;
  wf_inj : forall k1 k2 p,
    main.Instructions s !! k1 = Some p -> main.Instructions s !! k2 = Some p -> k1 = k2;
  wf_ahead : forall k p,
    main.Instructions s !! k = Some p -> main.offset s <= k ->
    Literal (main.load p (main.heap s)) = []
}.

(** Where a round runs out of bytes, if it does: in dispatch
    ([GetNext] returns io.ErrUnexpectedEOF) or in the encoder
    ([Encode] returns it). *)
Inductive phase := InDispatch | InEncoder.

Definition exhausted_in (s : main.State) : option phase :=
  match operations.GetNext (main.data s) with
  | (_, _, _, Some err, _) =>
      if bool_decide (err = ErrUnexpectedEOF) then Some InDispatch else None
  | (Some opcode, prefix, lit, None, data1) =>
      match operations.Encode opcode data1
              (started (main.offset s) prefix lit
                 (main.load (main.fetch s).1 (main.fetch s).2)) with
      | Some (_, _, Some err) =>
          if bool_decide (err = ErrUnexpectedEOF) then Some InEncoder else None
      | _ => None
      end
  | _ => None
  end.

(** The parsers fail with UnexpectedEOF only, and then nothing is left
    in the buffer. *)
Definition eof_or_nil (err : option error) (data' : bytes.Buffer) : Prop :=
  err = None \/ (err = Some ErrUnexpectedEOF /\ bytes.unread data' = []).

#[global] Instance OpCode_eq_dec : EqDecision operations.OpCode.
Proof. solve_decision. Defined.

(** Every record the three opcode maps hold. *)
Definition table_values : list operations.OpCode :=
  (map_to_list operations.OpCodes).*2
  ++ (map_to_list operations.OpCodesPrefixed).*2
  ++ mjoin ((fun kv => (map_to_list kv.2).*2) <$> map_to_list operations.OpCodesExt).

(** Where the population loop puts a record: the map and the keys. *)
Definition installed (op : operations.OpCode) : bool :=
  if operations.ExtensionReq op then
    bool_decide
      (default ∅ (operations.OpCodesExt !! operations.OpCode_Literal op)
         !! operations.Extension op = Some op)
  else if operations.PrefixReq op then
    bool_decide (operations.OpCodesPrefixed !! operations.OpCode_Literal op = Some op)
  else
    bool_decide (operations.OpCodes !! operations.OpCode_Literal op = Some op).

(** A key of the plain map fits its record: the record's literal, or
    one of the six bytes after it for the encodings O and OI. *)
Definition plain_key_fits (b : Z) (op : operations.OpCode) : bool :=
  negb (operations.ExtensionReq op) && negb (operations.PrefixReq op)
  && bool_decide (op ∈ operations.allOps)
  && (if bool_decide (operations.Encoder op = encoders.O)
         || bool_decide (operations.Encoder op = encoders.OI)
      then bool_decide (operations.OpCode_Literal op <= b <= operations.OpCode_Literal op + 6)
      else bool_decide (b = operations.OpCode_Literal op)).

Definition prefixed_key_fits (b : Z) (op : operations.OpCode) : bool :=
  negb (operations.ExtensionReq op) && operations.PrefixReq op
  && bool_decide (op ∈ operations.allOps)
  && bool_decide (b = operations.OpCode_Literal op).

Definition ext_key_fits (b r : Z) (op : operations.OpCode) : bool :=
  operations.ExtensionReq op
  && bool_decide (op ∈ operations.allOps)
  && bool_decide (b = operations.OpCode_Literal op)
  && bool_decide (r = operations.Extension op)
  && bool_decide (0 <= r <= 7).

(** The label of the offset [k]. *)
Definition label_of (k : Z) : string := "offset_" +:+ fmt.x0 8 k +:+ "h".

(** A label-only placeholder for the offset [k]. *)
Definition placeholder (k : Z) (label : string) : Instruction :=
  set_Label label (set_Offset k zero_Instruction).

(** What holds of every stored instruction: its offset is its key, its
    label is empty or names its key, and at or after the current offset
    it is a placeholder. *)
Definition tidy (s : main.State) : Prop :=
  forall k x,
    main.instruction_at s k = Some x ->
    Offset x = k
    /\ (Label x = EmptyString \/ Label x = label_of k)
    /\ (main.offset s <= k -> x = placeholder k (Label x)).

(** The most bytes an encoder takes from the buffer: a ModR/M byte and
    up to four displacement bytes for M, MR and RM, four immediate
    bytes more for MI and RMI, and up to four bytes for I, OI and D. *)
Definition operand_bytes (e : encoders.Encoder) : nat :=
  match e with
  | encoders.M | encoders.MR | encoders.RM => 5
  | encoders.MI | encoders.RMI => 9
  | encoders.NP | encoders.O => 0
  | encoders.I | encoders.OI | encoders.D => 4
  end.

(** The bytes of the row stored under the key [k]: the literal of
    [Instructions[k]], and no bytes when the key is not in the map. *)
Definition row_at (s : main.State) (k : Z) : list Z :=
  match main.instruction_at s k with
  | Some x => Literal x
  | None => []
  end.

(** The value of a hexadecimal digit as [fmt.hex_digit] writes it: the
    number in 0..15 that is written as the character [c]; no value for
    any other character. *)
Definition hex_digit_value (c : ascii) : option Z :=
  List.find (fun d => bool_decide (fmt.hex_digit d = c)) (Z.of_nat <$> seq 0 16).

(** Reading a string of hexadecimal digits, most significant first,
    after the value [acc] read so far; no value when a character is not
    a hexadecimal digit. *)
Fixpoint hex_value (s : string) (acc : Z) : option Z :=
  match s with
  | EmptyString => Some acc
  | String c s' =>
      match hex_digit_value c with
      | Some d => hex_value s' (16 * acc + d)
      | None => None
      end
  end.

(** ** The opcode tables *)

Lemma populate_allOps :
  operations.populate operations.allOps operations.tables0 = Some operations.tables.
Proof. vm_compute. reflexivity. Qed.

Lemma clflush_record :
  default ∅ (operations.OpCodesExt !! 0xAE) !! 7
  = Some (operations.mkOp 0xAE "clflush" encoders.M true true true 7 0 0).
Proof. vm_compute. reflexivity. Qed.

Lemma lea_record :
  operations.OpCodes !! 0x8D
  = Some (operations.mkOp 0x8D "lea" encoders.RM true false false 0 0 0).
Proof. vm_compute. reflexivity. Qed.

(** C1 (the code installs seven bytes, not eight). For every record
    with encoder kind O or OI and base literal B, the bytes B..B+6
    dispatch to that record, but B+7 is in no map: the installing loop
    runs while [i < B+7]. The byte 0x47 ([inc edi]) therefore comes out
    of the sweep as [db 47], while 0x46 is [inc esi]. *)
Theorem C1_register_run_stops_at_six :
  Forall (fun op =>
            let B := operations.OpCode_Literal op in
            Forall (fun k => operations.OpCodes !! (B + k) = Some op) [0; 1; 2; 3; 4; 5; 6]
            /\ operations.OpCodes !! (B + 7) = None)
         (List.filter register_in_opcode operations.allOps)
  /\ List.map operations.OpCode_Literal (List.filter register_in_opcode operations.allOps)
     = [0x48; 0x40; 0xB8; 0x58; 0x50]
  /\ (exists s i, main.Parse_Instructions [0x46] = main.Returned s EOF
        /\ main.instruction_at s 0 = Some i
        /\ Mnemonic i = "inc" /\ Operands i = "esi")
  /\ (exists s i, main.Parse_Instructions [0x47] = main.Returned s EOF
        /\ main.instruction_at s 0 = Some i
        /\ Mnemonic i = "db 47" /\ Operands i = EmptyString).
Proof.
  split; [| split; [| split]].
  - vm_compute. repeat constructor.
  - vm_compute. reflexivity.
  - eexists _, _. vm_compute. repeat split.
  - eexists _, _. vm_compute. repeat split.
Qed.

(** C2 (a byte is lost after a repne miss). On the input [f2 06 90] the
    sweep reads the prefix and the byte after it, finds no opcode, and
    stores a [db] whose literal is the single byte [06] while two bytes
    are gone from the buffer. It ends on EOF with the buffer empty and
    two literal bytes stored for an input of three; the [nop] read from
    position 2 is stored at offset 1. *)
Theorem C2_repne_miss_loses_a_byte :
  exists s i0 i1,
    main.Parse_Instructions [0xF2; 0x06; 0x90] = main.Returned s EOF
    /\ bytes.unread (main.data s) = []
    /\ main.literal_total s = 2%nat
    /\ (main.literal_total s + length (bytes.unread (main.data s)))%nat
       <> length [0xF2; 0x06; 0x90]
    /\ main.offset s = 2
    /\ main.instruction_at s 0 = Some i0
    /\ Mnemonic i0 = "db 06" /\ Literal i0 = [0x06]
    /\ main.instruction_at s 1 = Some i1
    /\ Mnemonic i1 = "nop" /\ Literal i1 = [0x90].
Proof.
  eexists _, _, _. vm_compute. repeat split. discriminate.
Qed.

(** C3 (clflush without its prefix). The bytes [ae f8], with no 0x0F
    before them, dispatch to the clflush record, although that record
    declares [PrefixReq]: the path for a byte that is not a prefix asks
    the extension maps first, for every byte. *)
Theorem C3_clflush_without_prefix :
  exists op data1,
    operations.GetNext (bytes.NewBuffer [0xAE; 0xF8])
    = (Some op, None, 0xAE, None, data1)
    /\ operations.OpCode_Mnemonic op = "clflush"
    /\ operations.PrefixReq op = true
    /\ Reg (ParseModRM 0xF8) = 7
    /\ (exists s i, main.Parse_Instructions [0xAE; 0xF8] = main.Returned s EOF
          /\ main.instruction_at s 0 = Some i
          /\ Mnemonic i = "clflush" /\ Pre i = None).
Proof.
  eexists _, _. vm_compute. repeat split. eexists _, _. repeat split.
Qed.

(** C8 (the literal of [db 0f] is the byte 00). On [0f 06] dispatch
    gives the byte 0x06 back to the buffer and returns the error
    [db 0f], but the opcode byte it returns with it is 0x00, and that is
    the byte the sweep stores as the literal; the sweep does advance by
    one byte. *)
Theorem C8_vex_miss_literal_is_zero :
  operations.GetNext (bytes.NewBuffer [0x0F; 0x06])
  = (None, Some operations.Vex, 0x00, Some (Errorf "db 0f"),
     bytes.mkBuffer [0x06] None)
  /\ exists s i,
       main.iteration (main.init [0x0F; 0x06]) = main.Continue s
       /\ main.offset s = 1
       /\ bytes.unread (main.data s) = [0x06]
       /\ main.instruction_at s 0 = Some i
       /\ Mnemonic i = "db 0f"
       /\ Literal i = [0x00]
       /\ Literal i <> [0x0F].
Proof.
  split; [vm_compute; reflexivity |].
  eexists _, _. vm_compute. repeat split. discriminate.
Qed.

(** C6 (a branch to itself leaves no label). [eb fe] at offset 0 is a
    jump whose target is 0 + 2 - 2 = 0, its own offset. The label is
    written to a new object stored at key 0, and that entry is then
    overwritten when the instruction itself is saved: the instruction at
    the target offset has the operand [offset_00000000h] and an empty
    label. *)
Theorem C6_self_branch_loses_label :
  (exists i data2 out,
     main.decoding (main.init [0xEB; 0xFE]) = main.Decoded i data2 0 true out
     /\ Offset i + Z.of_nat (length (Literal i)) + (BytesToIntSigned (Displacement i)).1 = 0
     /\ Operands i = "offset_00000000h")
  /\ exists s i,
       main.Parse_Instructions [0xEB; 0xFE] = main.Returned s EOF
       /\ main.instruction_at s 0 = Some i
       /\ Operands i = "offset_00000000h"
       /\ Label i = EmptyString.
Proof.
  split.
  - eexists _, _, _. split; [vm_compute; reflexivity |]. vm_compute. repeat split.
  - eexists _, _. split; [vm_compute; reflexivity |]. vm_compute. repeat split.
Qed.

(** C4, as stated, fails: on [b8 01] the encoder of [mov] runs out of
    bytes in the middle of the immediate, the error is printed, the
    sweep goes on, and the instruction is stored with the bytes read so
    far; it is a row of the listing. *)
Lemma C4_partial_instruction_is_stored :
  exhausted_in (main.init [0xB8; 0x01]) = Some InEncoder
  /\ exists s i,
       main.Parse_Instructions [0xB8; 0x01] = main.Returned s EOF
       /\ main.instruction_at s 0 = Some i
       /\ Mnemonic i = "mov"
       /\ Literal i = [0xB8; 0x01]
       /\ Immediate i = [0x01]
       /\ main.emitted i = true
       /\ main.stdout s = ["Error encoding: unexpected EOF" +:+ main.newline].
Proof.
  split; [vm_compute; reflexivity |].
  eexists _, _. split; [vm_compute; reflexivity |]. vm_compute. repeat split.
Qed.

(** C9. The comment of a row is ["; Illegal addressing mode."] exactly
    when the mnemonic is [clflush] or [lea] and the instruction has a
    ModR/M whose mod is Direct (3); for every other instruction the
    comment is empty. *)
Theorem C9_legality_comment (i : Instruction) :
  exists c,
    main.comment i = Some c
    /\ (c = illegal_addressing_mode \/ c = EmptyString)
    /\ (c = illegal_addressing_mode <->
        (Mnemonic i = "clflush" \/ Mnemonic i = "lea")
        /\ exists m, Modrm i = Some m /\ Mod m = AM_DIRECT).
Proof.
  unfold main.comment.
  assert (Hdirect :
    (match Modrm i with Some m => Mod m =? AM_DIRECT | None => false end) = true
    <-> exists m, Modrm i = Some m /\ Mod m = AM_DIRECT).
  { destruct (Modrm i) as [m|].
    - rewrite Z.eqb_eq. split; [eauto | intros (m' & [= <-] & H); done].
    - split; [done | intros (m' & [=] & _)]. }
  case_bool_decide as Hempty.
  { eexists; split; [done|]. split; [by right|].
    split; [done |]. intros [[H|H] _]; rewrite Hempty in H; done. }
  rewrite clflush_record. cbn [mbind option_bind operations.OpCode_Mnemonic].
  case_bool_decide as Hcl.
  { destruct (match Modrm i with Some m => _ | None => _ end) eqn:Hd.
    - eexists; split; [done|]. split; [by left|].
      split; [intros _; split; [by left | by apply Hdirect] | done].
    - eexists; split; [done|]. split; [by right|].
      split; [done |]. intros [_ H]. apply Hdirect in H. congruence. }
  rewrite lea_record. cbn [mbind option_bind operations.OpCode_Mnemonic].
  case_bool_decide as Hlea.
  { destruct (match Modrm i with Some m => _ | None => _ end) eqn:Hd.
    - eexists; split; [done|]. split; [by left|].
      split; [intros _; split; [by right | by apply Hdirect] | done].
    - eexists; split; [done|]. split; [by right|].
      split; [done |]. intros [_ H]. apply Hdirect in H. congruence. }
  eexists; split; [done|]. split; [by right|].
  split; [done |]. intros [[H|H] _]; done.
Qed.

(** ** The buffer *)

Lemma Next_spec n b d b' :
  bytes.Next n b = Some (d, b') ->
  0 <= n /\ d = take (Z.to_nat n) (bytes.unread b)
  /\ bytes.unread b' = drop (Z.to_nat n) (bytes.unread b).
Proof.
  unfold bytes.Next. destruct (Z.ltb_spec n 0); [done |].
  intros [= <- <-]. done.
Qed.

Lemma Next_nonneg n b :
  0 <= n ->
  bytes.Next n b
  = Some (take (Z.to_nat n) (bytes.unread b),
          bytes.mkBuffer (drop (Z.to_nat n) (bytes.unread b))
            (last (take (Z.to_nat n) (bytes.unread b)))).
Proof.
  intros Hn. unfold bytes.Next. destruct (Z.ltb_spec n 0); [lia | done].
Qed.

Lemma ReadByte_Some b c b' :
  bytes.ReadByte b = (Some c, b') ->
  bytes.unread b = c :: bytes.unread b' /\ bytes.lastRead b' = Some c.
Proof.
  unfold bytes.ReadByte. destruct (bytes.unread b); intros [= <- <-]; done.
Qed.

Lemma ReadByte_None b b' :
  bytes.ReadByte b = (None, b') -> bytes.unread b = [] /\ bytes.unread b' = [].
Proof.
  unfold bytes.ReadByte. destruct (bytes.unread b); intros [= <-]; done.
Qed.

Lemma ReadByte_cons b c rest :
  bytes.unread b = c :: rest ->
  bytes.ReadByte b = (Some c, bytes.mkBuffer rest (Some c)).
Proof. unfold bytes.ReadByte. by intros ->. Qed.

(** Reading four bytes: all of them, or an unexpected EOF. *)
Lemma Next_4_cases b :
  (4 <= length (bytes.unread b))%nat
    /\ length (take 4 (bytes.unread b)) = 4%nat
  \/ (length (bytes.unread b) < 4)%nat
    /\ length (take 4 (bytes.unread b)) <> 4%nat.
Proof.
  rewrite length_take. destruct (le_lt_dec 4 (length (bytes.unread b))); [left | right]; lia.
Qed.

(** C7. [ParseDisplacement] never panics on a ModR/M whose mod is one
    of the four modes (or, without ModR/M, on a size that is not
    negative). With [w] the width that goes with the addressing mode --
    4 for mod=00 and rm=5, 0 for mod=00 otherwise, 1 for mod=01, 4 for
    mod=10, 0 for mod=11, the fallback size without ModR/M -- it returns
    the next [w] bytes with no error and leaves the buffer [w] bytes
    shorter when [w] bytes remain, and fails with UnexpectedEOF when
    fewer remain. *)
Theorem C7_ParseDisplacement_width
    (modrm : option ModRm) (data : bytes.Buffer) (size : Z)
    (Hmod : forall m, modrm = Some m -> 0 <= Mod m <= 3)
    (Hsize : modrm = None -> 0 <= size) :
  let w := displacement_width modrm size in
  exists displacement err data',
    ParseDisplacement modrm data size = Some (displacement, err, data')
    /\ (w <= Z.of_nat (length (bytes.unread data)) ->
        err = None
        /\ Z.of_nat (length displacement) = w
        /\ bytes.unread data = displacement ++ bytes.unread data')
    /\ (Z.of_nat (length (bytes.unread data)) < w ->
        err = Some ErrUnexpectedEOF).
Proof.
  unfold displacement_width, ParseDisplacement.
  unfold AM_REG, AM_BYTE_OFFSET, AM_DWORD_OFFSET, AM_DIRECT, REG_EBP.
  assert (Hfour :
    exists displacement err data',
      (bytes.Next 4 data ≫= λ '(displacement, data'),
         if negb (length displacement =? 4)%nat
         then Some (displacement, Some ErrUnexpectedEOF, data')
         else Some (displacement, None, data'))
      = Some (displacement, err, data')
      /\ (4 <= Z.of_nat (length (bytes.unread data)) ->
          err = None /\ Z.of_nat (length displacement) = 4
          /\ bytes.unread data = displacement ++ bytes.unread data')
      /\ (Z.of_nat (length (bytes.unread data)) < 4 -> err = Some ErrUnexpectedEOF)).
  { rewrite Next_nonneg by lia. cbn [mbind option_bind].
    change (Z.to_nat 4) with 4%nat.
    destruct (Next_4_cases data) as [[Hlen Ht] | [Hlen Ht]].
    - apply Nat.eqb_eq in Ht as Ht'. rewrite Ht'. cbn [negb].
      eexists _, _, _. split; [done |]. split; [| lia].
      intros _. split; [done |]. split; [lia |].
      cbn [bytes.unread]. by rewrite take_drop.
    - apply Nat.eqb_neq in Ht as Ht'. rewrite Ht'. cbn [negb].
      eexists _, _, _. split; [done |]. split; [lia | done]. }
  destruct modrm as [m |].
  - specialize (Hmod m eq_refl).
    destruct (Z.eqb_spec (Mod m) 0) as [H0 | H0].
    { destruct (Z.eqb_spec (RM m) 5) as [H5 | H5]; [exact Hfour |].
      eexists _, _, _. split; [done |]. split; [done | ].
      intros H. cbn in H. lia. }
    destruct (Z.eqb_spec (Mod m) 1) as [H1 | H1].
    { destruct (bytes.ReadByte data) as [[c |] data'] eqn:Hread.
      - apply ReadByte_Some in Hread as [Hu _].
        eexists _, _, _. split; [done |]. rewrite Hu. cbn [length].
        split; [done | lia].
      - apply ReadByte_None in Hread as [Hu _].
        eexists _, _, _. split; [done |]. rewrite Hu. cbn [length].
        split; [lia | done]. }
    destruct (Z.eqb_spec (Mod m) 2) as [H2 | H2]; [exact Hfour |].
    destruct (Z.eqb_spec (Mod m) 3) as [H3 | H3]; [| lia].
    eexists _, _, _. split; [done |]. split; [done |].
    intros H. cbn in H. lia.
  - specialize (Hsize eq_refl).
    rewrite Next_nonneg by lia. cbn [mbind option_bind].
    destruct (Z.eqb_spec (Z.of_nat (length (take (Z.to_nat size) (bytes.unread data)))) size)
      as [He | He]; cbn [negb].
    + eexists _, _, _. split; [done |]. split.
      * intros _. split; [done |]. split; [done |].
        cbn [bytes.unread]. by rewrite take_drop.
      * rewrite length_take in He. lia.
    + eexists _, _, _. split; [done |]. split; [| done].
      rewrite length_take in He. lia.
Qed.

(** C7 at [mod=00, rm=5] with five bytes in the buffer. *)
Lemma C7_ParseDisplacement_width_witness :
  exists displacement err data',
    ParseDisplacement (Some (ParseModRM 0x05)) (bytes.NewBuffer [1; 2; 3; 4; 5]) 0
    = Some (displacement, err, data')
    /\ err = None
    /\ Z.of_nat (length displacement) = 4
    /\ [1; 2; 3; 4; 5] = displacement ++ bytes.unread data'.
Proof.
  destruct (C7_ParseDisplacement_width
              (Some (ParseModRM 0x05)) (bytes.NewBuffer [1; 2; 3; 4; 5]) 0)
    as (displacement & err & data' & Hparse & Henough & _).
  - intros m Hm. injection Hm as <-. vm_compute. split; discriminate.
  - discriminate.
  - exists displacement, err, data'. split; [exact Hparse |].
    apply Henough. vm_compute. discriminate.
Defined.

(** ** What the parsers and encoders read *)

Lemma ParseDisplacement_reads modrm data size displacement err data' :
  ParseDisplacement modrm data size = Some (displacement, err, data') ->
  bytes.unread data = displacement ++ bytes.unread data'.
Proof.
  assert (Hnext : forall n,
    (bytes.Next n data ≫= λ '(displacement, data'),
       if negb (length displacement =? 4)%nat
       then Some (displacement, Some ErrUnexpectedEOF, data')
       else Some (displacement, None, data'))
    = Some (displacement, err, data') ->
    bytes.unread data = displacement ++ bytes.unread data').
  { intros n H. destruct (bytes.Next n data) as [[d b'] |] eqn:HN; [| done].
    apply Next_spec in HN as (_ & -> & Hu). cbn [mbind option_bind] in H.
    destruct (negb _); injection H as <- _ <-; by rewrite Hu, take_drop. }
  unfold ParseDisplacement. destruct modrm as [m |].
  - destruct (Mod m =? AM_REG).
    { destruct (RM m =? REG_EBP); [apply Hnext |]. by intros [= <- _ <-]. }
    destruct (Mod m =? AM_BYTE_OFFSET).
    { destruct (bytes.ReadByte data) as [[c |] b'] eqn:HR.
      - apply ReadByte_Some in HR as [Hu _]. by intros [= <- _ <-].
      - apply ReadByte_None in HR as [Hu Hu']. intros [= <- _ <-].
        by rewrite Hu, Hu'. }
    destruct (Mod m =? AM_DWORD_OFFSET); [apply Hnext |].
    destruct (Mod m =? AM_DIRECT); by intros [= <- _ <-].
  - destruct (bytes.Next size data) as [[d b'] |] eqn:HN; [| done].
    apply Next_spec in HN as (_ & -> & Hu). cbn [mbind option_bind].
    destruct (negb _); intros [= <- _ <-]; by rewrite Hu, take_drop.
Qed.

Lemma ParseImmediate_reads data size immediate err data' :
  ParseImmediate data size = Some (immediate, err, data') ->
  bytes.unread data = immediate ++ bytes.unread data'.
Proof.
  unfold ParseImmediate.
  destruct (bytes.Next size data) as [[d b'] |] eqn:HN; [| done].
  apply Next_spec in HN as (_ & -> & Hu). cbn [mbind option_bind].
  destruct (negb _); intros [= <- _ <-]; by rewrite Hu, take_drop.
Qed.

Lemma appends_refl inst data : appends inst inst data data.
Proof. exists []. by rewrite app_nil_r. Qed.

Lemma appends_trans i1 i2 i3 d1 d2 d3 :
  appends i1 i2 d1 d2 -> appends i2 i3 d2 d3 -> appends i1 i3 d1 d3.
Proof.
  intros (e1 & HL1 & HU1 & Hl1 & Ho1) (e2 & HL2 & HU2 & Hl2 & Ho2).
  exists (e1 ++ e2). rewrite HL2, HL1, HU1, HU2, !app_assoc. split_and!; congruence.
Qed.

Lemma M_Encode_appends data inst inst' data' err :
  encoders.M_Encode data inst = Some (inst', data', err) ->
  appends inst inst' data data'.
Proof.
  unfold encoders.M_Encode.
  destruct (bytes.ReadByte data) as [[next |] data1] eqn:HR.
  - apply ReadByte_Some in HR as [Hu _].
    destruct (ParseDisplacement _ data1 0) as [[[d e] data2] |] eqn:HP; [| done].
    apply ParseDisplacement_reads in HP. cbn [mbind option_bind].
    intros [= <- <- _]. exists (next :: d). cbn.
    rewrite Hu, HP, <- app_assoc. done.
  - apply ReadByte_None in HR as [Hu Hu']. intros [= <- <- _].
    exists []. rewrite Hu, Hu', app_nil_r. done.
Qed.

Lemma imm_appends data inst n immediate err data' :
  ParseImmediate data n = Some (immediate, err, data') ->
  appends inst
    (set_Literal (Literal (set_Immediate immediate inst)
                  ++ Immediate (set_Immediate immediate inst))
       (set_Immediate immediate inst)) data data'.
Proof.
  intros HP. apply ParseImmediate_reads in HP. exists immediate. by cbn.
Qed.

Lemma MI_Encode_appends data inst inst' data' err :
  encoders.MI_Encode data inst = Some (inst', data', err) ->
  appends inst inst' data data'.
Proof.
  unfold encoders.MI_Encode.
  destruct (encoders.M_Encode data inst) as [[[i1 d1] e1] |] eqn:HM; [| done].
  apply M_Encode_appends in HM. cbn [mbind option_bind].
  destruct e1 as [e |]; [by intros [= <- <- _] |].
  destruct (ParseImmediate d1 4) as [[[imm e2] d2] |] eqn:HP; [| done].
  cbn [mbind option_bind]. intros [= <- <- _].
  eapply appends_trans; [exact HM | by eapply imm_appends].
Qed.

Lemma Encode_appends e data inst inst' data' err :
  encoders.Encode e data inst = Some (inst', data', err) ->
  appends inst inst' data data'.
Proof.
  destruct e; cbn [encoders.Encode];
    eauto using M_Encode_appends, MI_Encode_appends;
    try (intros [= <- <- _]; apply appends_refl).
  - unfold encoders.I_Encode.
    destruct (ParseImmediate _ _) as [[[imm e2] d2] |] eqn:HP; [| done].
    cbn [mbind option_bind]. intros [= <- <- _]. by eapply imm_appends.
  - unfold encoders.OI_Encode.
    destruct (ParseImmediate _ _) as [[[imm e2] d2] |] eqn:HP; [| done].
    cbn [mbind option_bind]. intros [= <- <- _]. by eapply imm_appends.
  - unfold encoders.D_Encode.
    destruct (ParseDisplacement _ _ _) as [[[d e2] d2] |] eqn:HP; [| done].
    apply ParseDisplacement_reads in HP.
    cbn [mbind option_bind]. intros [= <- <- _]. exists d. by cbn.
Qed.

Lemma operations_Encode_appends o data inst inst' data' err :
  operations.Encode o data inst = Some (inst', data', err) ->
  appends inst inst' data data'.
Proof.
  unfold operations.Encode. intros H. apply Encode_appends in H.
  destruct H as (extra & HL & HU & Hl & Ho). exists extra. done.
Qed.

(** ** Dispatch *)

(** The extension probe gives back the byte it reads. *)
Lemma GetExtendedOpcode_cases opcode data op err data' :
  operations.GetExtendedOpcode opcode data = (op, err, data') ->
  (operations.OpCodesExt !! opcode = None
   /\ op = None /\ err = Some ONF /\ data' = data)
  \/ (exists opcode_map,
        operations.OpCodesExt !! opcode = Some opcode_map
        /\ ((bytes.unread data = [] /\ bytes.unread data' = []
             /\ op = None /\ err = Some ErrUnexpectedEOF)
            \/ exists modrm_byte rest,
                 bytes.unread data = modrm_byte :: rest
                 /\ data' = bytes.mkBuffer (modrm_byte :: rest) None
                 /\ op = opcode_map !! Reg (ParseModRM modrm_byte)
                 /\ err = match op with
                          | Some _ => None
                          | None => Some (operations.db opcode)
                          end)).
Proof.
  unfold operations.GetExtendedOpcode.
  destruct (operations.OpCodesExt !! opcode) as [opcode_map |]; [| intros [= <- <- <-]; by left].
  intros H. right. exists opcode_map. split; [done |]. revert H.
  destruct (bytes.ReadByte data) as [[modrm_byte |] data1] eqn:HR.
  - unfold bytes.ReadByte in HR.
    destruct (bytes.unread data) as [| c rest]; [done |].
    injection HR as -> <-.
    destruct (opcode_map !! Reg (ParseModRM modrm_byte)) as [code |] eqn:Hcode;
      intros [= <- <- <-]; right; exists modrm_byte, rest; done.
  - apply ReadByte_None in HR as [Hu Hu']. intros [= <- <- <-]. by left.
Qed.

Lemma db_not_EOF b : operations.db b <> EOF /\ operations.db b <> ErrUnexpectedEOF.
Proof. done. Qed.

(** Dispatch that does not end the sweep takes at least one byte. *)
Lemma GetNext_progress data op prefix lit err data' :
  operations.GetNext data = (op, prefix, lit, err, data') ->
  err <> Some EOF -> err <> Some ErrUnexpectedEOF ->
  (length (bytes.unread data') < length (bytes.unread data))%nat.
Proof.
  unfold operations.GetNext.
  destruct (bytes.ReadByte data) as [[next |] data1] eqn:HR; [| by intros [= _ _ _ <- _]].
  assert (HU := HR). apply ReadByte_Some in HU as [Hu Hl].
  assert (Hunread : bytes.unread (bytes.UnreadByte data1) = bytes.unread data).
  { unfold bytes.UnreadByte. by rewrite Hl, Hu. }
  destruct (operations.Prefixes !! next) as [p |].
  - destruct (bytes.ReadByte data1) as [[code |] data2] eqn:HR2; [| by intros [= _ _ _ <- _]].
    assert (HU2 := HR2). apply ReadByte_Some in HU2 as [Hu2 Hl2].
    assert (Hun2 : bytes.unread (bytes.UnreadByte data2) = bytes.unread data1).
    { unfold bytes.UnreadByte. by rewrite Hl2, Hu2. }
    assert (Hmiss : forall x y z,
      (x, y, z, bytes.UnreadByte data2) = (op, prefix, lit, err, data') ->
      err <> Some EOF -> err <> Some ErrUnexpectedEOF ->
      (length (bytes.unread data') < length (bytes.unread data))%nat).
    { intros x y z [= _ _ _ <-] _ _. rewrite Hun2, Hu. cbn. lia. }
    assert (Hhit : forall x y z,
      (x, y, z, data2) = (op, prefix, lit, err, data') ->
      err <> Some EOF -> err <> Some ErrUnexpectedEOF ->
      (length (bytes.unread data') < length (bytes.unread data))%nat).
    { intros x y z [= _ _ _ <-] _ _. rewrite Hu, Hu2. cbn. lia. }
    destruct (decide (p = operations.Vex)).
    + destruct (operations.OpCodesPrefixed !! code); [by apply Hhit |].
      destruct (code =? 174); [| by apply Hmiss].
      destruct (operations.GetExtendedOpcode code data2) as [[op' err'] data3] eqn:HG.
      intros [= _ _ _ <- <-] He1 He2.
      apply GetExtendedOpcode_cases in HG
        as [(_ & _ & _ & ->) | (om & _ & [(_ & _ & _ & ->) | (mb & rest & H1 & -> & _)])];
        [rewrite Hu, Hu2; cbn; lia | done |].
      rewrite Hu, Hu2, H1. cbn. lia.
    + destruct (decide (p = operations.Repne)); [| by apply Hmiss].
      destruct (operations.OpCodes !! code); by apply Hhit.
  - destruct (operations.GetExtendedOpcode next data1) as [[op' err'] data2] eqn:HG.
    apply GetExtendedOpcode_cases in HG
      as [(_ & -> & -> & ->) | (om & _ & [(_ & _ & -> & ->) | (mb & rest & H1 & -> & _ & ->)])].
    + rewrite bool_decide_eq_true_2 by done. cbn [negb].
      destruct (operations.OpCodes !! next); intros [= _ _ _ _ <-] _ _;
        rewrite Hu; cbn; lia.
    + rewrite bool_decide_eq_false_2 by done. cbn [negb]. by intros [= _ _ _ <- _].
    + rewrite bool_decide_eq_false_2 by (by destruct op'). cbn [negb].
      intros [= _ _ _ _ <-] _ _. rewrite Hu, H1. cbn. lia.
Qed.

(** ** One round of the sweep *)

Lemma started_Literal offset prefix lit i0 :
  Literal (started offset prefix lit i0)
  = Literal i0 ++ match prefix with Some p => [Prefix_Literal p] | None => [] end ++ [lit].
Proof. unfold started. destruct prefix; cbn; by rewrite <- ?app_assoc. Qed.

Lemma started_Label offset prefix lit i0 :
  Label (started offset prefix lit i0) = Label i0.
Proof. unfold started. by destruct prefix. Qed.

Lemma decode_Stop offset data i0 out err data1 :
  main.decode offset data i0 out = main.Stop err data1 ->
  (err = EOF \/ err = ErrUnexpectedEOF)
  /\ exists op prefix lit, operations.GetNext data = (op, prefix, lit, Some err, data1).
Proof.
  unfold main.decode.
  destruct (operations.GetNext data) as [[[[op prefix] lit] [e |]] d1].
  - assert (Hgoal :
      (if bool_decide (e = EOF) || bool_decide (e = ErrUnexpectedEOF)
       then main.Stop e d1
       else main.Unknown
              (set_Literal (Literal (set_Mnemonic (Error e) (set_Offset offset i0)) ++ [lit])
                 (set_Mnemonic (Error e) (set_Offset offset i0))) d1)
      = main.Stop err data1 ->
      (err = EOF \/ err = ErrUnexpectedEOF)
      /\ exists op0 prefix0 lit0,
           (op, prefix, lit, Some e, d1) = (op0, prefix0, lit0, Some err, data1)).
    { destruct (bool_decide (e = EOF) || bool_decide (e = ErrUnexpectedEOF)) eqn:Hb; [| done].
      intros [= <- <-]. split; [| eauto].
      apply orb_true_iff in Hb as [Hb | Hb]; apply bool_decide_eq_true in Hb; auto. }
    by destruct op.
  - destruct op as [opcode |]; [| done].
    destruct (operations.Encode _ _ _) as [[[i6 d2] e1] |]; [| done].
    destruct (encoders.StringifyOperands _ _) as [[[[ops T] b] e2] |]; done.
Qed.

Lemma decode_Unknown offset data i0 out inst data1 :
  main.decode offset data i0 out = main.Unknown inst data1 ->
  exists op prefix lit err,
    operations.GetNext data = (op, prefix, lit, Some err, data1)
    /\ err <> EOF /\ err <> ErrUnexpectedEOF
    /\ inst = set_Literal (Literal i0 ++ [lit])
                (set_Mnemonic (Error err) (set_Offset offset i0)).
Proof.
  unfold main.decode.
  destruct (operations.GetNext data) as [[[[op prefix] lit] [e |]] d1].
  - assert (Hgoal :
      (if bool_decide (e = EOF) || bool_decide (e = ErrUnexpectedEOF)
       then main.Stop e d1
       else main.Unknown
              (set_Literal (Literal (set_Mnemonic (Error e) (set_Offset offset i0)) ++ [lit])
                 (set_Mnemonic (Error e) (set_Offset offset i0))) d1)
      = main.Unknown inst data1 ->
      exists op0 prefix0 lit0 err,
        (op, prefix, lit, Some e, d1) = (op0, prefix0, lit0, Some err, data1)
        /\ err <> EOF /\ err <> ErrUnexpectedEOF
        /\ inst = set_Literal (Literal i0 ++ [lit0])
                    (set_Mnemonic (Error err) (set_Offset offset i0))).
    { destruct (bool_decide (e = EOF) || bool_decide (e = ErrUnexpectedEOF)) eqn:Hb; [done |].
      intros [= <- <-]. exists op, prefix, lit, e.
      apply orb_false_iff in Hb as [Hb1 Hb2].
      apply bool_decide_eq_false in Hb1, Hb2. done. }
    by destruct op.
  - destruct op as [opcode |]; [| done].
    destruct (operations.Encode _ _ _) as [[[i6 d2] e1] |]; [| done].
    destruct (encoders.StringifyOperands _ _) as [[[[ops T] b] e2] |]; done.
Qed.

Lemma decode_Decoded offset data i0 out inst data2 other_offset is_offset out2 :
  main.decode offset data i0 out = main.Decoded inst data2 other_offset is_offset out2 ->
  exists opcode prefix lit data1 i6 err1 err2,
    operations.GetNext data = (Some opcode, prefix, lit, None, data1)
    /\ operations.Encode opcode data1 (started offset prefix lit i0) = Some (i6, data2, err1)
    /\ encoders.StringifyOperands (operations.Encoder opcode) i6
       = Some (Operands inst, other_offset, is_offset, err2)
    /\ inst = set_Operands (Operands inst) i6
    /\ out2 = main.report "Error stringifying: " err2
                (main.report "Error encoding: " err1 out).
Proof.
  unfold main.decode.
  destruct (operations.GetNext data) as [[[[op prefix] lit] [e |]] d1].
  - by destruct op, (bool_decide (e = EOF) || bool_decide (e = ErrUnexpectedEOF)).
  - destruct op as [opcode |]; [| done].
    fold (started offset prefix lit i0).
    destruct (operations.Encode _ _ _) as [[[i6 d2] e1] |] eqn:HE; [| done].
    destruct (encoders.StringifyOperands _ _) as [[[[ops T] b] e2] |] eqn:HS; [| done].
    intros [= <- <- <- <- <-]. exists opcode, prefix, lit, d1, i6, e1, e2. done.
Qed.

(** A decoded instruction has the old literal followed by at least one
    byte, and the old label; the buffer is shorter. *)
Lemma decode_Decoded_literal offset data i0 out inst data2 other_offset is_offset out2 :
  main.decode offset data i0 out = main.Decoded inst data2 other_offset is_offset out2 ->
  (exists extra, Literal inst = Literal i0 ++ extra /\ extra <> [])
  /\ Label inst = Label i0
  /\ Offset inst = offset
  /\ (length (bytes.unread data2) < length (bytes.unread data))%nat.
Proof.
  intros H. apply decode_Decoded in H
    as (opcode & prefix & lit & data1 & i6 & err1 & err2 & HG & HE & _ & -> & _).
  apply operations_Encode_appends in HE as (extra & HL & HU & Hl & Ho).
  apply GetNext_progress in HG; [| done | done].
  cbn [Literal Label Offset set_Operands]. rewrite HL, Hl, Ho, started_Literal, started_Label.
  split_and!.
  - eexists. rewrite <- !app_assoc. split; [done |]. by destruct prefix.
  - done.
  - unfold started. by destruct prefix.
  - rewrite HU in HG. rewrite length_app in HG. lia.
Qed.

Lemma decode_Unknown_literal offset data i0 out inst data1 :
  main.decode offset data i0 out = main.Unknown inst data1 ->
  (exists lit, Literal inst = Literal i0 ++ [lit])
  /\ Label inst = Label i0
  /\ Offset inst = offset
  /\ (length (bytes.unread data1) < length (bytes.unread data))%nat.
Proof.
  intros H. apply decode_Unknown in H
    as (op & prefix & lit & err & HG & He1 & He2 & ->).
  apply GetNext_progress in HG; [| congruence | congruence].
  split_and!; [by exists lit | done | done | done].
Qed.

(** *** The heap *)

Lemma load_store p q i h :
  main.load q (main.store p i h)
  = if decide (p = q /\ (p < length h)%nat) then i else main.load q h.
Proof.
  unfold main.load, main.store. case_decide as Hd.
  - destruct Hd as [-> Hlt]. by rewrite list_lookup_insert_eq.
  - destruct (decide (p = q)) as [-> | Hne].
    + rewrite list_insert_ge by lia. done.
    + by rewrite list_lookup_insert_ne.
Qed.

Lemma load_new_old p i h :
  (p < length h)%nat -> main.load p (h ++ [i]) = main.load p h.
Proof. intros Hp. unfold main.load. by rewrite lookup_app_l. Qed.

Lemma load_new i h : main.load (length h) (h ++ [i]) = i.
Proof. unfold main.load. by rewrite list_lookup_middle. Qed.

Lemma length_store p i h : length (main.store p i h) = length h.
Proof. apply length_insert. Qed.

Lemma lookup_load p h i :
  h !! p = Some i -> main.load p h = i.
Proof. unfold main.load. by intros ->. Qed.

Lemma load_lookup p h :
  (p < length h)%nat -> h !! p = Some (main.load p h).
Proof.
  intros Hp. unfold main.load. destruct (lookup_lt_is_Some_2 h p Hp) as [i ->]. done.
Qed.

(** *** The shape of a round *)

Lemma fetch_eq s :
  main.fetch s
  = (match main.Instructions s !! main.offset s with
     | Some inst => inst
     | None => length (main.heap s)
     end,
     main.heap s ++ [zero_Instruction]).
Proof. unfold main.fetch, main.new. by destruct (_ !! _). Qed.

Lemma attach_label_eq instruction other_offset h m :
  main.attach_label instruction other_offset h m
  = let h1 := h ++ [set_Offset other_offset zero_Instruction] in
    let other :=
      match m !! other_offset with Some p => p | None => length h end in
    (main.store other (set_Label (Operands (main.load instruction h1)) (main.load other h1)) h1,
     <[other_offset := other]> m).
Proof. done. Qed.

Lemma iteration_Continue s s' :
  main.iteration s = main.Continue s' ->
  (exists inst data1,
     main.decoding s = main.Unknown inst data1
     /\ s' = main.mkState (main.store (main.fetch s).1 inst (main.fetch s).2)
               (<[main.offset s := (main.fetch s).1]> (main.Instructions s))
               data1 (main.offset s + 1) (main.stdout s))
  \/ (exists inst data2 other_offset is_offset out,
        main.decoding s = main.Decoded inst data2 other_offset is_offset out
        /\ s' = after s inst data2 other_offset is_offset out).
Proof.
  unfold main.iteration, main.decoding, after.
  destruct (main.fetch s) as [instruction h0]. cbn [fst snd].
  destruct (main.decode _ _ _ _) as [err d1 | inst d1 | inst d2 T b out |]; try done.
  - intros [= <-]. left. eauto.
  - intros H. right. exists inst, d2, T, b, out. split; [done |].
    destruct b.
    + destruct (main.attach_label _ _ _ _) as [h2 m2]. by injection H as <-.
    + by injection H as <-.
Qed.

Lemma iteration_Unknown s inst data1 :
  main.decoding s = main.Unknown inst data1 ->
  main.iteration s
  = main.Continue
      (main.mkState (main.store (main.fetch s).1 inst (main.fetch s).2)
         (<[main.offset s := (main.fetch s).1]> (main.Instructions s))
         data1 (main.offset s + 1) (main.stdout s)).
Proof.
  unfold main.iteration, main.decoding.
  destruct (main.fetch s) as [instruction h0]. cbn [fst snd]. by intros ->.
Qed.

Lemma iteration_Decoded s inst data2 other_offset is_offset out :
  main.decoding s = main.Decoded inst data2 other_offset is_offset out ->
  main.iteration s = main.Continue (after s inst data2 other_offset is_offset out).
Proof.
  unfold main.iteration, main.decoding, after.
  destruct (main.fetch s) as [instruction h0]. cbn [fst snd]. intros ->.
  destruct is_offset; [| done]. by destruct (main.attach_label _ _ _ _).
Qed.

Lemma iteration_Stop s err data1 :
  main.decoding s = main.Stop err data1 ->
  main.iteration s
  = main.Break (main.mkState (main.fetch s).2 (main.Instructions s) data1
                  (main.offset s) (main.stdout s)) err.
Proof.
  unfold main.iteration, main.decoding.
  destruct (main.fetch s) as [instruction h0]. cbn [fst snd]. by intros ->.
Qed.

(** ** What holds of every state of the sweep *)

Lemma wf_init input : wf (main.init input).
Proof. split; cbn; intros *; by rewrite lookup_empty. Qed.

(** The pointer [instruction] of a round. *)
Lemma fetch_pointer s :
  wf s ->
  exists p,
    main.fetch s = (p, main.heap s ++ [zero_Instruction])
    /\ (p <= length (main.heap s))%nat
    /\ (forall k q, main.Instructions s !! k = Some q -> q = p -> k = main.offset s)
    /\ Literal (main.load p (main.heap s ++ [zero_Instruction])) = []
    /\ (main.Instructions s !! main.offset s = Some p
        \/ main.Instructions s !! main.offset s = None /\ p = length (main.heap s)).
Proof.
  intros [Hv Hi Ha]. rewrite fetch_eq.
  destruct (main.Instructions s !! main.offset s) as [p0 |] eqn:Hp0.
  - exists p0. assert (Hlt := Hv _ _ Hp0). split_and!; [done | lia | | | by left].
    + intros k q Hq ->. eauto.
    + rewrite load_new_old by done. eapply Ha; [done | lia].
  - exists (length (main.heap s)). split_and!; [done | lia | | | by right].
    + intros k q Hq ->. apply Hv in Hq. lia.
    + by rewrite load_new.
Qed.

Ltac loads :=
  repeat first
    [ rewrite load_store
    | rewrite load_new
    | rewrite load_new_old by (rewrite ?length_store, ?length_app; cbn; lia)
    | rewrite length_store
    | rewrite length_app ];
  cbn [length].

(** The literal of the instruction that a round stores is the decoded
    one, with or without a label attached. *)
Lemma after_Literal s inst data' other_offset is_offset out :
  wf s ->
  Literal (main.load (main.fetch s).1 (main.heap (after s inst data' other_offset is_offset out)))
  = Literal inst.
Proof.
  intros Hwf. destruct (fetch_pointer s Hwf) as (p & Hf & Hp & _).
  assert (Hpp : forall (x y : Instruction),
    (if decide (p = p /\ (p < length (main.heap s) + 1)%nat) then x else y) = x).
  { intros x y. apply decide_True. split; [done | lia]. }
  unfold after. rewrite Hf. cbn [fst snd]. destruct is_offset.
  - rewrite attach_label_eq. cbn [fst snd main.heap].
    set (other := match _ !! other_offset with Some q => q | None => _ end).
    loads. rewrite !Hpp. destruct (decide (other = p /\ _)) as [Hd | Hd]; [| done].
    destruct Hd as [Hd _]. rewrite Hd. cbn [Literal set_Label]. loads. by rewrite Hpp.
  - cbn [fst snd main.heap]. loads. by rewrite Hpp.
Qed.

Lemma after_offset s inst data' other_offset is_offset out :
  wf s ->
  main.offset (after s inst data' other_offset is_offset out)
  = main.offset s + Z.of_nat (length (Literal inst)).
Proof.
  intros Hwf. rewrite <- (after_Literal s inst data' other_offset is_offset out Hwf).
  done.
Qed.

Lemma wf_Unknown s inst data1 :
  wf s ->
  wf (main.mkState (main.store (main.fetch s).1 inst (main.fetch s).2)
        (<[main.offset s := (main.fetch s).1]> (main.Instructions s))
        data1 (main.offset s + 1) (main.stdout s)).
Proof.
  intros Hwf. destruct (fetch_pointer s Hwf) as (p & Hf & Hp & Hkey & _).
  destruct Hwf as [Hv Hi Ha]. rewrite Hf. cbn [fst snd].
  split; cbn [main.Instructions main.heap main.offset].
  - intros k q [[<- <-] | [Hne Hq]]%lookup_insert_Some; loads; [lia |].
    apply Hv in Hq. lia.
  - intros k1 k2 q [[<- <-] | [Hne1 Hq1]]%lookup_insert_Some
                   [[<- Heq] | [Hne2 Hq2]]%lookup_insert_Some;
      first [done | by eauto | by symmetry; eauto
            | by subst q; exfalso; eauto using eq_sym].
  - intros k q [[<- <-] | [Hne Hq]]%lookup_insert_Some Hk; [lia |].
    assert (Hlt := Hv _ _ Hq). loads.
    rewrite decide_False by (intros [-> _]; apply Hne; symmetry; eauto).
    loads. eapply Ha; [done | lia].
Qed.

Lemma wf_after s inst data' other_offset is_offset out :
  wf s ->
  Literal inst <> [] ->
  wf (after s inst data' other_offset is_offset out).
Proof.
  intros Hwf Hlit.
  assert (Hoff := after_offset s inst data' other_offset is_offset out Hwf).
  assert (Hlen : (0 < length (Literal inst))%nat) by (destruct (Literal inst); [done | cbn; lia]).
  revert Hoff. destruct (fetch_pointer s Hwf) as (p & Hf & Hp & Hkey & _).
  destruct Hwf as [Hv Hi Ha]. unfold after. rewrite Hf. cbn [fst snd].
  destruct is_offset.
  - rewrite attach_label_eq. cbn [fst snd].
    set (n := length (main.heap s)) in *.
    set (other := match _ !! other_offset with Some q => q | None => _ end).
    assert (Hother :
      main.Instructions s !! other_offset = Some other /\ (other < n)%nat
      \/ main.Instructions s !! other_offset = None /\ other = S n).
    { subst other. destruct (main.Instructions s !! other_offset) as [q |] eqn:Hq.
      - left. split; [done |]. by eapply Hv.
      - right. split; [done |]. loads. lia. }
    clearbody other. intros Hoff. cbn [main.offset] in Hoff.
    split; cbn [main.Instructions main.heap main.offset].
    + intros k q [[<- <-] | [Hne [[<- <-] | [Hne' Hq]]%lookup_insert_Some]]%lookup_insert_Some;
        loads; fold n; [lia | lia |]. apply Hv in Hq. fold n in Hq. lia.
    + assert (Hb : forall k, main.Instructions s !! k = Some other -> k = other_offset).
      { intros k Hk. destruct Hother as [[Ho _] | [_ Ho]]; [eauto |].
        apply Hv in Hk. fold n in Hk. lia. }
      assert (Hc : other = p -> other_offset = main.offset s).
      { intros Hop. destruct Hother as [[Ho _] | [_ Ho]]; [eauto | lia]. }
      clearbody n. intros k1 k2 q H1 H2.
      rewrite !lookup_insert_Some in H1, H2.
      destruct H1 as [[? ?] | [? [[? ?] | [? ?]]]], H2 as [[? ?] | [? [[? ?] | [? ?]]]];
        subst; first [done | by eauto | by exfalso; eauto using eq_sym].
    + rewrite Hoff.
      intros k q [[<- <-] | [Hne [[<- <-] | [Hne' Hq]]%lookup_insert_Some]]%lookup_insert_Some Hk;
        [lia | |].
      * loads. fold n. rewrite decide_True by lia. cbn [Literal set_Label].
        destruct Hother as [[Ho Hlt] | [Ho ->]].
        -- loads. fold n. rewrite decide_False by (intros [-> _]; apply Hne; symmetry; eauto).
           loads. eapply Ha; [done | lia].
        -- replace (S n) with (length (main.store p inst (main.heap s ++ [zero_Instruction])))
             by (loads; fold n; lia).
           by rewrite load_new.
      * assert (Hlt := Hv _ _ Hq). fold n in Hlt. loads. fold n.
        rewrite decide_False.
        2:{ intros [-> _]. destruct Hother as [[Ho _] | [_ ->]]; [| lia]. eauto. }
        loads. fold n. rewrite decide_False by (intros [-> _]; apply Hne; symmetry; eauto).
        loads. eapply Ha; [done | lia].
  - intros Hoff. cbn [fst snd main.offset] in *.
    split; cbn [main.Instructions main.heap main.offset].
    + intros k q [[<- <-] | [Hne Hq]]%lookup_insert_Some; loads; [lia |].
      apply Hv in Hq. lia.
    + intros k1 k2 q [[<- <-] | [Hne1 Hq1]]%lookup_insert_Some
                     [[<- Heq] | [Hne2 Hq2]]%lookup_insert_Some;
      first [done | by eauto | by symmetry; eauto
            | by subst q; exfalso; eauto using eq_sym].
    + rewrite Hoff.
      intros k q [[<- <-] | [Hne Hq]]%lookup_insert_Some Hk; [lia |].
      assert (Hlt := Hv _ _ Hq). loads.
      rewrite decide_False by (intros [-> _]; apply Hne; symmetry; eauto).
      loads. eapply Ha; [done | lia].
Qed.

Lemma wf_step s s' : wf s -> main.iteration s = main.Continue s' -> wf s'.
Proof.
  intros Hwf [(inst & d1 & Hd & ->) | (inst & d2 & T & b & out & Hd & ->)]%iteration_Continue.
  - by apply wf_Unknown.
  - apply wf_after; [done |].
    apply decode_Decoded_literal in Hd as ((extra & HL & Hne) & _).
    rewrite HL. intros [_ Hnil]%app_eq_nil. done.
Qed.

Lemma wf_reachable input s : main.reachable input s -> wf s.
Proof. induction 1; eauto using wf_init, wf_step. Qed.

Lemma wf_rounds s s' : main.rounds s s' -> wf s -> wf s'.
Proof. induction 1; eauto using wf_step. Qed.

(** ** The sweep ends *)

Lemma iteration_progress s s' :
  main.iteration s = main.Continue s' ->
  (length (bytes.unread (main.data s')) < length (bytes.unread (main.data s)))%nat.
Proof.
  intros [(inst & d1 & Hd & ->) | (inst & d2 & T & b & out & Hd & ->)]%iteration_Continue.
  - by apply decode_Unknown_literal in Hd as (_ & _ & _ & H).
  - by apply decode_Decoded_literal in Hd as (_ & _ & _ & H).
Qed.

Lemma loop_enough_fuel fuel s :
  (length (bytes.unread (main.data s)) < fuel)%nat ->
  main.loop fuel s <> main.OutOfFuel.
Proof.
  revert s. induction fuel as [| fuel IH]; intros s Hlen; [lia |].
  cbn [main.loop]. destruct (main.iteration s) as [s' | s' err |] eqn:Hit; [| done | done].
  apply IH. apply iteration_progress in Hit. lia.
Qed.

(** [Parse_Instructions] returns or panics on every input: the fuel of
    the model never runs out. *)
Lemma Parse_Instructions_total input :
  main.Parse_Instructions input <> main.OutOfFuel.
Proof. apply loop_enough_fuel. cbn. lia. Qed.

(** ** What a round leaves in the map *)

Lemma set_Label_same (i : Instruction) : set_Label (Label i) i = i.
Proof. by destruct i. Qed.

(** After a round that decodes an instruction, the map holds it at the
    round's offset, up to its label. *)
Lemma after_stored s inst data' other_offset is_offset out :
  wf s ->
  exists l,
    main.instruction_at (after s inst data' other_offset is_offset out) (main.offset s)
    = Some (set_Label l inst).
Proof.
  intros Hwf. destruct (fetch_pointer s Hwf) as (p & Hf & Hp & _).
  assert (Hpp : forall (x y : Instruction),
    (if decide (p = p /\ (p < length (main.heap s) + 1)%nat) then x else y) = x).
  { intros x y. apply decide_True. split; [done | lia]. }
  unfold main.instruction_at, after. rewrite Hf.
  cbn [fst snd main.Instructions main.heap].
  rewrite lookup_insert_eq. cbn [mbind option_bind]. destruct is_offset.
  - rewrite attach_label_eq. cbn [fst snd].
    set (other := match _ !! other_offset with Some q => q | None => _ end).
    rewrite load_lookup by (loads; lia). loads. rewrite !Hpp.
    destruct (decide (other = p /\ _)) as [[Hd _] | Hd].
    + rewrite Hd. loads. rewrite Hpp. eauto.
    + exists (Label inst). by rewrite set_Label_same.
  - cbn [fst snd]. rewrite load_lookup by (loads; lia). loads. rewrite Hpp.
    exists (Label inst). by rewrite set_Label_same.
Qed.

(** A key of the map stays a key. *)
Lemma iteration_keys s s' k :
  main.iteration s = main.Continue s' ->
  is_Some (main.Instructions s !! k) -> is_Some (main.Instructions s' !! k).
Proof.
  intros [(inst & d1 & Hd & ->) | (inst & d2 & T & b & out & Hd & ->)]%iteration_Continue Hk.
  - cbn. rewrite lookup_insert_is_Some. destruct (decide (main.offset s = k)); auto.
  - unfold after. cbn [main.Instructions]. rewrite lookup_insert_is_Some.
    destruct (decide (main.offset s = k)); [auto | right; split; [done |]].
    destruct b; [| done]. rewrite attach_label_eq. cbn [snd].
    rewrite lookup_insert_is_Some. destruct (decide (T = k)); auto.
Qed.

Lemma rounds_keys s s' k :
  main.rounds s s' ->
  is_Some (main.Instructions s !! k) -> is_Some (main.Instructions s' !! k).
Proof. induction 1; eauto using iteration_keys. Qed.

(** The target of a branch is a key once the branch is decoded. *)
Lemma after_target_key s inst data' other_offset out :
  is_Some (main.Instructions (after s inst data' other_offset true out) !! other_offset).
Proof.
  unfold after. cbn [main.Instructions]. rewrite attach_label_eq. cbn [snd].
  rewrite !lookup_insert_is_Some.
  destruct (decide (main.offset s = other_offset)); auto.
Qed.

(** When the target of a branch is already a key, the object stored
    there gets the operand string as its label. *)
Lemma after_target_label s inst data' other_offset out :
  wf s ->
  is_Some (main.Instructions s !! other_offset) ->
  exists x,
    main.instruction_at (after s inst data' other_offset true out) other_offset = Some x
    /\ Label x = Operands inst.
Proof.
  intros Hwf [q Hq]. destruct (fetch_pointer s Hwf) as (p & Hf & Hp & Hkey & _ & Hat).
  assert (Hlt := wf_valid s Hwf _ _ Hq).
  assert (Hpp : forall (x y : Instruction),
    (if decide (p = p /\ (p < length (main.heap s) + 1)%nat) then x else y) = x).
  { intros x y. apply decide_True. split; [done | lia]. }
  unfold main.instruction_at, after. rewrite Hf.
  cbn [fst snd main.Instructions main.heap].
  rewrite attach_label_eq, Hq. cbn [fst snd].
  assert (Hptr :
    <[main.offset s := p]> (<[other_offset := q]> (main.Instructions s)) !! other_offset
    = Some q).
  { destruct (decide (main.offset s = other_offset)) as [Heq | Hne].
    - rewrite Heq, lookup_insert_eq. f_equal.
      destruct Hat as [Hat | [Hat _]]; congruence.
    - by rewrite lookup_insert_ne, lookup_insert_eq. }
  rewrite Hptr. cbn [mbind option_bind].
  rewrite load_lookup by (loads; lia). loads. rewrite !Hpp.
  rewrite decide_True by (split; [done | lia]).
  eexists. split; [done |]. done.
Qed.

(** Only a D encoder reports a branch target, and its operand string is
    the target in the form [offset_%08xh]. *)
Lemma StringifyOperands_target e inst operands other_offset err :
  encoders.StringifyOperands e inst = Some (operands, other_offset, true, err) ->
  e = encoders.D
  /\ other_offset
     = Offset inst + Z.of_nat (length (Literal inst))
       + (BytesToIntSigned (Displacement inst)).1
  /\ operands = "offset_" +:+ fmt.x0 8 other_offset +:+ "h".
Proof.
  destruct e; cbn [encoders.StringifyOperands]; try done;
    try (destruct (encoders.Modrm_Reg inst); done).
  destruct (BytesToIntSigned (Displacement inst)) as [disp e]. by intros [= <- <- <-].
Qed.

(** ** The sweep on malformed input, and labels *)

(** C5. In any state of the sweep, when the next byte [b] is not a
    prefix, is a key of the extension map, and the reg field of the byte
    after it has no record there: the round continues, the map holds at
    the current offset an instruction with mnemonic [db <b>] and literal
    exactly [b], the offset advances by one, the buffer has lost exactly
    the byte [b], and the next read gives the ModR/M byte again. *)
Theorem C5_bad_extension_is_one_byte_db
    (input : list Z) (s : main.State) (b modrm_byte : Z) (rest : list Z)
    (opcode_map : gmap Z operations.OpCode)
    (Hreach : main.reachable input s)
    (Hdata : bytes.unread (main.data s) = b :: modrm_byte :: rest)
    (Hprefix : operations.Prefixes !! b = None)
    (Hext : operations.OpCodesExt !! b = Some opcode_map)
    (Hreg : opcode_map !! Reg (ParseModRM modrm_byte) = None) :
  exists s' i,
    main.iteration s = main.Continue s'
    /\ main.instruction_at s' (main.offset s) = Some i
    /\ Mnemonic i = "db " +:+ fmt.x0 2 b
    /\ Literal i = [b]
    /\ Offset i = main.offset s
    /\ main.offset s' = main.offset s + 1
    /\ bytes.unread (main.data s') = modrm_byte :: rest
    /\ (bytes.ReadByte (main.data s')).1 = Some modrm_byte.
Proof.
  assert (Hwf := wf_reachable _ _ Hreach).
  destruct (fetch_pointer s Hwf) as (p & Hf & Hp & _ & Hempty & _).
  assert (HG : operations.GetNext (main.data s)
               = (None, None, b, Some (operations.db b),
                  bytes.mkBuffer (modrm_byte :: rest) None)).
  { unfold operations.GetNext. rewrite (ReadByte_cons _ _ _ Hdata), Hprefix.
    unfold operations.GetExtendedOpcode. rewrite Hext.
    rewrite (ReadByte_cons (bytes.mkBuffer (modrm_byte :: rest) (Some b)) modrm_byte rest eq_refl).
    rewrite Hreg. done. }
  assert (Hd : main.decoding s
               = main.Unknown
                   (set_Literal [b]
                      (set_Mnemonic (Error (operations.db b))
                         (set_Offset (main.offset s)
                            (main.load p (main.heap s ++ [zero_Instruction])))))
                   (bytes.mkBuffer (modrm_byte :: rest) None)).
  { unfold main.decoding, main.decode. rewrite HG, Hf. cbn [fst snd].
    rewrite !bool_decide_eq_false_2 by done. cbn [orb].
    cbn [Literal set_Mnemonic set_Offset]. by rewrite Hempty. }
  rewrite (iteration_Unknown _ _ _ Hd), Hf. cbn [fst snd].
  eexists _, _. split; [done |].
  unfold main.instruction_at. cbn [main.Instructions main.heap main.offset main.data].
  rewrite lookup_insert_eq. cbn [mbind option_bind].
  rewrite load_lookup by (loads; lia). loads.
  rewrite decide_True by (split; [done | lia]).
  split_and!; done.
Qed.

(** C5 on the input [d1 c8]: 0xD1 has extensions 4, 5 and 7 only, and
    the reg field of 0xC8 is 1. *)
Lemma C5_bad_extension_is_one_byte_db_witness :
  exists s' i,
    main.iteration (main.init [0xD1; 0xC8]) = main.Continue s'
    /\ main.instruction_at s' 0 = Some i
    /\ Mnemonic i = "db d1"
    /\ Literal i = [0xD1]
    /\ Offset i = 0
    /\ main.offset s' = 1
    /\ bytes.unread (main.data s') = [0xC8]
    /\ (bytes.ReadByte (main.data s')).1 = Some 0xC8.
Proof.
  apply (C5_bad_extension_is_one_byte_db [0xD1; 0xC8] (main.init [0xD1; 0xC8])
           0xD1 0xC8 [] (default ∅ (operations.OpCodesExt !! 0xD1))).
  - apply main.reachable_init.
  - reflexivity.
  - vm_compute. reflexivity.
  - vm_compute. reflexivity.
  - vm_compute. reflexivity.
Defined.

(** C10. The label of an instruction is one string, and attaching a
    label assigns it. When a branch with target [T] is decoded and,
    later in the same sweep, another branch with the same target is
    decoded, then after the later round the instruction stored at [T]
    has as its label the operand string of the later branch, which is
    the text [offset_<T:08x>h]. *)
Theorem C10_later_branch_sets_label
    (input : list Z) (s1 s2 s3 : main.State) (T : Z)
    (i1 i2 : Instruction) (d1 d2 : bytes.Buffer) (out1 out2 : list string)
    (Hreach : main.reachable input s1)
    (Hfirst : main.decoding s1 = main.Decoded i1 d1 T true out1)
    (Hstep : main.iteration s1 = main.Continue s2)
    (Hlater : main.rounds s2 s3)
    (Hsecond : main.decoding s3 = main.Decoded i2 d2 T true out2) :
  exists s4 x,
    main.iteration s3 = main.Continue s4
    /\ main.instruction_at s4 T = Some x
    /\ Label x = Operands i2
    /\ Operands i2 = "offset_" +:+ fmt.x0 8 T +:+ "h".
Proof.
  assert (Hwf1 := wf_reachable _ _ Hreach).
  assert (Hwf3 : wf s3) by eauto using wf_rounds, wf_step.
  assert (Hkey : is_Some (main.Instructions s3 !! T)).
  { eapply rounds_keys; [done |].
    rewrite (iteration_Decoded _ _ _ _ _ _ Hfirst) in Hstep. injection Hstep as <-.
    apply after_target_key. }
  destruct (after_target_label s3 i2 d2 T out2 Hwf3 Hkey) as (x & Hx & Hl).
  exists (after s3 i2 d2 T true out2), x.
  split; [by apply iteration_Decoded |]. split; [done |]. split; [done |].
  apply decode_Decoded in Hsecond
    as (opcode & prefix & lit & data1 & i6 & err1 & err2 & _ & _ & HS & _ & _).
  by apply StringifyOperands_target in HS as (_ & _ & ->).
Qed.

(** C10 on [eb 00 eb fe]: the jump at offset 0 and the jump at offset 2
    both have the target 2. *)
Lemma C10_later_branch_sets_label_witness :
  exists s4 x,
    main.iteration
      (main.mkState
         [mkInstruction [0xEB; 0x00] 0 EmptyString None "jmp" 0xEB None [0x00] [] 1 0
            "offset_00000002h";
          set_Label "offset_00000002h" (set_Offset 2 zero_Instruction)]
         (<[0 := 0%nat]> (<[2 := 1%nat]> ∅))
         (bytes.mkBuffer [0xEB; 0xFE] (Some 0x00)) 2 [])
    = main.Continue s4
    /\ main.instruction_at s4 2 = Some x
    /\ Label x = "offset_00000002h"
    /\ "offset_00000002h" = "offset_" +:+ fmt.x0 8 2 +:+ "h".
Proof.
  eapply (C10_later_branch_sets_label [0xEB; 0x00; 0xEB; 0xFE]
            (main.init [0xEB; 0x00; 0xEB; 0xFE]) _ _ 2
            (mkInstruction [0xEB; 0x00] 0 EmptyString None "jmp" 0xEB None [0x00] [] 1 0
               "offset_00000002h")
            (mkInstruction [0xEB; 0xFE] 2 "offset_00000002h" None "jmp" 0xEB None
               [0xFE] [] 1 0 "offset_00000002h")).
  - apply main.reachable_init.
  - vm_compute. reflexivity.
  - vm_compute. reflexivity.
  - apply main.rounds_refl.
  - vm_compute. reflexivity.
Defined.

(** When the target of a branch is not yet a key and is not the
    branch's own offset, a new object with the label is stored there. *)
Lemma after_target_label_new s inst data' other_offset out :
  wf s ->
  main.Instructions s !! other_offset = None ->
  other_offset <> main.offset s ->
  exists x,
    main.instruction_at (after s inst data' other_offset true out) other_offset = Some x
    /\ Label x = Operands inst /\ Literal x = [].
Proof.
  intros Hwf Hnone Hne. destruct (fetch_pointer s Hwf) as (p & Hf & Hp & _).
  assert (Hpp : forall (x y : Instruction),
    (if decide (p = p /\ (p < length (main.heap s) + 1)%nat) then x else y) = x).
  { intros x y. apply decide_True. split; [done | lia]. }
  unfold main.instruction_at, after. rewrite Hf.
  cbn [fst snd main.Instructions main.heap].
  rewrite attach_label_eq, Hnone. cbn [fst snd].
  rewrite lookup_insert_ne, lookup_insert_eq by done. cbn [mbind option_bind].
  rewrite load_lookup by (loads; lia). loads. rewrite !Hpp.
  rewrite decide_True by (split; [done | lia]).
  eexists. split; [done |]. split; done.
Qed.

(** The part of C6 that holds: the target of a decoded branch is
    [offset + len(literal) + signed(disp)], the operand string is the
    target in the form [offset_%08xh], and -- unless the branch targets
    its own offset and nothing was stored there before -- the
    instruction stored at the target after the round has that string as
    its label. *)
Lemma branch_labels_target input s inst data2 other_offset out :
  main.reachable input s ->
  main.decoding s = main.Decoded inst data2 other_offset true out ->
  other_offset <> main.offset s \/ is_Some (main.Instructions s !! other_offset) ->
  exists s' x,
    main.iteration s = main.Continue s'
    /\ other_offset
       = Offset inst + Z.of_nat (length (Literal inst))
         + (BytesToIntSigned (Displacement inst)).1
    /\ Operands inst = "offset_" +:+ fmt.x0 8 other_offset +:+ "h"
    /\ main.instruction_at s' other_offset = Some x
    /\ Label x = Operands inst.
Proof.
  intros Hreach Hd Hcase. assert (Hwf := wf_reachable _ _ Hreach).
  exists (after s inst data2 other_offset true out).
  assert (Hx : exists x,
    main.instruction_at (after s inst data2 other_offset true out) other_offset = Some x
    /\ Label x = Operands inst).
  { destruct (main.Instructions s !! other_offset) as [q |] eqn:Hq.
    - apply after_target_label; [done | by rewrite Hq].
    - destruct Hcase as [Hne | [q' [=]]].
      destruct (after_target_label_new s inst data2 other_offset out Hwf Hq Hne)
        as (x & H1 & H2 & _). eauto. }
  destruct Hx as (x & Hx1 & Hx2). exists x.
  split; [by apply iteration_Decoded |].
  apply decode_Decoded in Hd
    as (opcode & prefix & lit & data1 & i6 & err1 & err2 & _ & _ & HS & Hi & _).
  apply StringifyOperands_target in HS as (_ & HT & Hops).
  assert (Hfields : Offset inst = Offset i6 /\ Literal inst = Literal i6
                    /\ Displacement inst = Displacement i6) by (by rewrite Hi).
  destruct Hfields as (-> & -> & ->). done.
Qed.

(** * Further properties of the code *)

(** ** The primitive parsers *)

(** X1. [ParseModRM] splits a byte into its three fields and loses
    nothing: mod is in 0..3, reg and rm are in 0..7, the literal is the
    byte, and the byte is [64*mod + 8*reg + rm]. *)
Theorem X1_ParseModRM_fields (b : Z) (Hb : 0 <= b < 256) :
  0 <= Mod (ParseModRM b) <= 3
  /\ 0 <= Reg (ParseModRM b) <= 7
  /\ 0 <= RM (ParseModRM b) <= 7
  /\ ModRm_Literal (ParseModRM b) = b
  /\ b = 64 * Mod (ParseModRM b) + 8 * Reg (ParseModRM b) + RM (ParseModRM b).
Proof.
  unfold ParseModRM. cbn [Mod Reg RM ModRm_Literal].
  assert (Emod : Z.land (Z.shiftr b 6) 3 = (b / 64) mod 4).
  { change 3 with (Z.ones 2). by rewrite Z.land_ones, Z.shiftr_div_pow2 by lia. }
  assert (Ereg : Z.land (Z.shiftr b 3) 7 = (b / 8) mod 8).
  { change 7 with (Z.ones 3). by rewrite Z.land_ones, Z.shiftr_div_pow2 by lia. }
  assert (Erm : Z.land b 7 = b mod 8).
  { change 7 with (Z.ones 3). by rewrite Z.land_ones by lia. }
  rewrite Emod, Ereg, Erm.
  assert (H1 := Z.mod_pos_bound (b / 64) 4 ltac:(lia)).
  assert (H2 := Z.mod_pos_bound (b / 8) 8 ltac:(lia)).
  assert (H3 := Z.mod_pos_bound b 8 ltac:(lia)).
  split_and!; try done; try lia.
  assert (H64 : (b / 64) mod 4 = b / 64).
  { apply Z.mod_small. split; [apply Z.div_pos; lia |].
    apply Z.div_lt_upper_bound; lia. }
  rewrite H64.
  assert (E1 := Z.div_mod b 8 ltac:(lia)).
  assert (E2 := Z.div_mod (b / 8) 8 ltac:(lia)).
  assert (E3 : b / 8 / 8 = b / 64) by (rewrite Z.div_div by lia; done).
  lia.
Qed.

(** X1 on the byte d8 = 11 011 000. *)
Lemma X1_ParseModRM_fields_witness :
  0 <= Mod (ParseModRM 0xD8) <= 3
  /\ 0 <= Reg (ParseModRM 0xD8) <= 7
  /\ 0 <= RM (ParseModRM 0xD8) <= 7
  /\ ModRm_Literal (ParseModRM 0xD8) = 0xD8
  /\ 0xD8 = 64 * Mod (ParseModRM 0xD8) + 8 * Reg (ParseModRM 0xD8) + RM (ParseModRM 0xD8).
Proof. apply (X1_ParseModRM_fields 0xD8). lia. Defined.

Lemma le_bounds (bs : list Z) :
  Forall (fun b => 0 <= b < 256) bs -> 0 <= le bs < 256 ^ Z.of_nat (length bs).
Proof.
  induction 1 as [| b bs Hb _ IH]; [done |].
  cbn [le foldr length]. fold (le bs).
  rewrite Nat2Z.inj_succ, Z.pow_succ_r by lia. lia.
Qed.

Lemma twos_complement (M u : Z) :
  0 < M -> 0 <= u < 2 * M ->
  - M <= (if M <=? u then u - 2 * M else u) < M
  /\ (u - (if M <=? u then u - 2 * M else u)) mod (2 * M) = 0.
Proof.
  intros HM Hu. destruct (Z.leb_spec M u).
  - split; [lia |]. replace (u - (u - 2 * M)) with (1 * (2 * M)) by lia.
    apply Z.mod_mul. lia.
  - split; [lia |]. by rewrite Z.sub_diag.
Qed.

(** X2. On a slice of one, two or four bytes, [BytesToInt] gives the
    little-endian value, in [0, 256^n), and [BytesToIntSigned] gives the
    one integer of [-256^n/2, 256^n/2) that differs from it by a
    multiple of [256^n]; neither reports an error. *)
Theorem X2_BytesToInt_signed_unsigned (intbytes : list Z)
    (Hbytes : Forall (fun b => 0 <= b < 256) intbytes)
    (Hlen : length intbytes = 1%nat \/ length intbytes = 2%nat
            \/ length intbytes = 4%nat) :
  exists u v,
    BytesToInt intbytes = (u, None)
    /\ BytesToIntSigned intbytes = (v, None)
    /\ u = le intbytes
    /\ 0 <= u < 256 ^ Z.of_nat (length intbytes)
    /\ - (256 ^ Z.of_nat (length intbytes) / 2) <= v
       < 256 ^ Z.of_nat (length intbytes) / 2
    /\ (u - v) mod 256 ^ Z.of_nat (length intbytes) = 0.
Proof.
  assert (Hle := le_bounds _ Hbytes). revert Hle.
  destruct intbytes as [| b0 [| b1 [| b2 [| b3 [| b4 rest]]]]];
    try (exfalso; cbn [length] in Hlen; lia); intros Hle.
  - change (256 ^ Z.of_nat (length [b0])) with (2 * 128) in *.
    replace (2 * 128 / 2) with 128 by done.
    assert (Hb0 : le [b0] = b0) by (cbn; lia). rewrite Hb0 in Hle.
    destruct (twos_complement 128 b0 ltac:(lia) Hle) as [Hr Hm].
    exists b0, (if 128 <=? b0 then b0 - 2 * 128 else b0).
    split; [done |]. split; [done |]. split; [done |]. done.
  - change (256 ^ Z.of_nat (length [b0; b1])) with (2 * 32768) in *.
    replace (2 * 32768 / 2) with 32768 by done.
    destruct (twos_complement 32768 (le [b0; b1]) ltac:(lia) Hle) as [Hr Hm].
    exists (le [b0; b1]),
      (if 32768 <=? le [b0; b1] then le [b0; b1] - 2 * 32768 else le [b0; b1]).
    split; [done |]. split; [done |]. split; [done |]. done.
  - change (256 ^ Z.of_nat (length [b0; b1; b2; b3])) with (2 * 2147483648) in *.
    replace (2 * 2147483648 / 2) with 2147483648 by done.
    destruct (twos_complement 2147483648 (le [b0; b1; b2; b3]) ltac:(lia) Hle)
      as [Hr Hm].
    exists (le [b0; b1; b2; b3]),
      (if 2147483648 <=? le [b0; b1; b2; b3]
       then le [b0; b1; b2; b3] - 2 * 2147483648 else le [b0; b1; b2; b3]).
    split; [done |]. split; [done |]. split; [done |]. done.
Qed.

(** X2 on [fe ff ff ff], which is -2. *)
Lemma X2_BytesToInt_signed_unsigned_witness :
  BytesToInt [0xFE; 0xFF; 0xFF; 0xFF] = (4294967294, None)
  /\ BytesToIntSigned [0xFE; 0xFF; 0xFF; 0xFF] = (-2, None).
Proof.
  destruct (X2_BytesToInt_signed_unsigned [0xFE; 0xFF; 0xFF; 0xFF])
    as (u & v & Hu & Hv & _).
  - repeat constructor; lia.
  - right. right. reflexivity.
  - split; vm_compute; reflexivity.
Defined.

(** X3. A slice whose length is not 1, 2 or 4 (the empty slice, or the
    rest of a truncated immediate) is an error for both conversions,
    with the value 0, and [StringifyIntegerBytes] renders it as the
    empty string. *)
Theorem X3_BytesToInt_bad_length (intbytes : list Z)
    (Hlen : length intbytes <> 1%nat /\ length intbytes <> 2%nat
            /\ length intbytes <> 4%nat) :
  BytesToInt intbytes = (0, Some (invalid_length intbytes))
  /\ BytesToIntSigned intbytes = (0, Some (invalid_length intbytes))
  /\ StringifyIntegerBytes intbytes = EmptyString.
Proof.
  unfold StringifyIntegerBytes.
  destruct intbytes as [| b0 [| b1 [| b2 [| b3 [| b4 rest]]]]]; cbn [length] in *;
    try (exfalso; lia); done.
Qed.

(** X3 on three bytes. *)
Lemma X3_BytesToInt_bad_length_witness :
  BytesToInt [1; 2; 3] = (0, Some (invalid_length [1; 2; 3]))
  /\ BytesToIntSigned [1; 2; 3] = (0, Some (invalid_length [1; 2; 3]))
  /\ StringifyIntegerBytes [1; 2; 3] = EmptyString.
Proof. apply (X3_BytesToInt_bad_length [1; 2; 3]). cbn. lia. Defined.

(** X4. [ParseImmediate] with a size that is not negative returns the
    next [size] bytes and no error when that many remain; otherwise it
    returns all the bytes that remain, empties the buffer and fails
    with UnexpectedEOF. In both cases the bytes returned are the bytes
    taken from the buffer. *)
Theorem X4_ParseImmediate (data : bytes.Buffer) (size : Z) (Hsize : 0 <= size) :
  exists immediate err data',
    ParseImmediate data size = Some (immediate, err, data')
    /\ bytes.unread data = immediate ++ bytes.unread data'
    /\ (size <= Z.of_nat (length (bytes.unread data)) ->
        err = None /\ Z.of_nat (length immediate) = size)
    /\ (Z.of_nat (length (bytes.unread data)) < size ->
        err = Some ErrUnexpectedEOF
        /\ immediate = bytes.unread data /\ bytes.unread data' = []).
Proof.
  unfold ParseImmediate. rewrite Next_nonneg by done. cbn [mbind option_bind].
  destruct (Z.eqb_spec (Z.of_nat (length (take (Z.to_nat size) (bytes.unread data)))) size)
    as [He | He]; cbn [negb]; rewrite length_take in He.
  - eexists _, _, _. split; [done |]. cbn [bytes.unread].
    split; [by rewrite take_drop |]. split; [| lia].
    intros _. split; [done |]. rewrite length_take. lia.
  - eexists _, _, _. split; [done |]. cbn [bytes.unread].
    split; [by rewrite take_drop |]. split; [lia |].
    intros Hshort. rewrite take_ge, drop_ge by lia. done.
Qed.

(** X4 on two bytes where four are asked for. *)
Lemma X4_ParseImmediate_witness :
  exists immediate err data',
    ParseImmediate (bytes.NewBuffer [1; 2]) 4 = Some (immediate, err, data')
    /\ err = Some ErrUnexpectedEOF
    /\ immediate = [1; 2] /\ bytes.unread data' = [].
Proof.
  destruct (X4_ParseImmediate (bytes.NewBuffer [1; 2]) 4)
    as (immediate & err & data' & Hp & _ & _ & Hshort); [lia |].
  exists immediate, err, data'. split; [exact Hp |]. apply Hshort. cbn. lia.
Defined.

(** ** Fixed-width rendering *)

Lemma string_length_app (s1 s2 : string) :
  String.length (s1 +:+ s2) = (String.length s1 + String.length s2)%nat.
Proof. induction s1 as [| c s1 IH]; simpl; [done | by rewrite IH]. Qed.

Lemma zeros_length k : String.length (fmt.zeros k) = k.
Proof. induction k as [| k IH]; simpl; [done | by rewrite IH]. Qed.

(** A number below [base^k] has at most [k] digits, and at least one. *)
Lemma digits_length base fuel n acc (k : nat) :
  1 < base -> 0 <= n < base ^ Z.of_nat k -> (0 < k)%nat ->
  (String.length (fmt.digits base fuel n acc) <= k + String.length acc)%nat.
Proof.
  intros Hbase. revert n acc k.
  induction fuel as [| fuel IH]; intros n acc k Hn Hk; cbn [fmt.digits]; [lia |].
  destruct (Z.eqb_spec (n / base) 0) as [Hz | Hnz]; [cbn; lia |].
  destruct k as [| [| k]]; [lia | |].
  - exfalso. apply Hnz. apply Z.div_small. change (Z.of_nat 1) with 1 in Hn. lia.
  - etrans; [apply (IH _ _ (S k)) |]; [| lia | cbn; lia].
    split; [apply Z.div_pos; lia |].
    apply Z.div_lt_upper_bound; [lia |].
    rewrite <- Z.pow_succ_r by lia. rewrite <- Nat2Z.inj_succ. lia.
Qed.

Lemma x0_width (w : nat) (n : Z) :
  (0 < w)%nat -> 0 <= n < 16 ^ Z.of_nat w -> String.length (fmt.x0 w n) = w.
Proof.
  intros Hw Hn. unfold fmt.x0. destruct (Z.ltb_spec n 0); [lia |].
  unfold fmt.pad0. rewrite string_length_app, zeros_length.
  assert (Hd := digits_length 16 (S (Z.to_nat (Z.log2 n))) n EmptyString w
                  ltac:(lia) Hn Hw).
  fold (fmt.hex n) in Hd. cbn [String.length] in Hd. lia.
Qed.

Lemma hex_digit_value_hex_digit (d : Z) :
  0 <= d < 16 -> hex_digit_value (fmt.hex_digit d) = Some d.
Proof.
  intros Hd.
  assert (H : d = 0 \/ d = 1 \/ d = 2 \/ d = 3 \/ d = 4 \/ d = 5 \/ d = 6 \/ d = 7
              \/ d = 8 \/ d = 9 \/ d = 10 \/ d = 11 \/ d = 12 \/ d = 13 \/ d = 14
              \/ d = 15) by lia.
  repeat (destruct H as [-> | H]; [reflexivity |]). by subst.
Qed.

Lemma hex_value_zeros (k : nat) (s : string) :
  hex_value (fmt.zeros k +:+ s) 0 = hex_value s 0.
Proof. induction k as [| k IH]; [done |]. cbn. exact IH. Qed.

(** The digits that [fmt.digits] writes in base 16 read back as the
    number. *)
Lemma hex_value_digits (fuel : nat) (n : Z) (acc : string) :
  0 <= n < 16 ^ Z.of_nat fuel ->
  exists k : nat,
    forall a, hex_value (fmt.digits 16 fuel n acc) a
              = hex_value acc (a * 16 ^ Z.of_nat k + n).
Proof.
  revert n acc. induction fuel as [| fuel IH]; intros n acc Hn.
  { change (16 ^ Z.of_nat 0) with 1 in Hn. exists 0%nat. intros a. cbn [fmt.digits].
    f_equal. change (16 ^ Z.of_nat 0) with 1. lia. }
  cbn [fmt.digits].
  assert (Hmod := Z.mod_pos_bound n 16 ltac:(lia)).
  assert (Hdm := Z.div_mod n 16 ltac:(lia)).
  destruct (Z.eqb_spec (n / 16) 0) as [Hz | Hnz].
  - exists 1%nat. intros a. cbn [hex_value].
    rewrite hex_digit_value_hex_digit by done. f_equal.
    change (16 ^ Z.of_nat 1) with 16. lia.
  - destruct (IH (n / 16) (String (fmt.hex_digit (n mod 16)) acc)) as [k Hk].
    { split; [apply Z.div_pos; lia |]. apply Z.div_lt_upper_bound; [lia |].
      rewrite <- Z.pow_succ_r by lia. rewrite <- Nat2Z.inj_succ. lia. }
    exists (S k). intros a. rewrite Hk. cbn [hex_value].
    rewrite hex_digit_value_hex_digit by done. f_equal.
    rewrite Nat2Z.inj_succ, Z.pow_succ_r by lia. lia.
Qed.

Lemma hex_value_hex (n : Z) : 0 <= n -> hex_value (fmt.hex n) 0 = Some n.
Proof.
  intros Hn. unfold fmt.hex.
  destruct (hex_value_digits (S (Z.to_nat (Z.log2 n))) n EmptyString) as [k Hk].
  { split; [done |]. destruct (Z.eq_dec n 0) as [-> | Hne]; [done |].
    assert (H := Z.log2_spec n ltac:(lia)).
    assert (H0 := Z.log2_nonneg n).
    rewrite Nat2Z.inj_succ, Z2Nat.id by done.
    eapply Z.lt_le_trans; [apply H |].
    apply Z.pow_le_mono_l. lia. }
  rewrite Hk. cbn [hex_value]. f_equal; lia.
Qed.

(** X5. [StringifyIntegerBytes] on one, two or four bytes always gives
    ten characters: [0x] and eight lower-case hexadecimal digits,
    whatever the width of the source; read back as a hexadecimal
    number, the eight digits are the little-endian value of the
    bytes. *)
Theorem X5_StringifyIntegerBytes_width (intbytes : list Z)
    (Hbytes : Forall (fun b => 0 <= b < 256) intbytes)
    (Hlen : length intbytes = 1%nat \/ length intbytes = 2%nat
            \/ length intbytes = 4%nat) :
  exists digits,
    StringifyIntegerBytes intbytes = "0x" +:+ digits
    /\ String.length digits = 8%nat
    /\ hex_value digits 0 = Some (le intbytes).
Proof.
  assert (Hle := le_bounds _ Hbytes).
  assert (Hu : BytesToInt intbytes = (le intbytes, None)).
  { destruct intbytes as [| b0 [| b1 [| b2 [| b3 [| b4 rest]]]]];
      try (exfalso; cbn [length] in Hlen; lia); [| done | done].
    cbn. f_equal. lia. }
  unfold StringifyIntegerBytes. rewrite Hu.
  eexists. split; [done |]. split.
  - apply x0_width; [lia |].
    split; [lia |]. eapply Z.lt_le_trans; [apply Hle |].
    change 16 with (2 ^ 4). change 256 with (2 ^ 8).
    rewrite <- !Z.pow_mul_r by lia. apply Z.pow_le_mono_r; [lia |].
    destruct Hlen as [-> | [-> | ->]]; cbn; lia.
  - unfold fmt.x0. destruct (Z.ltb_spec (le intbytes) 0); [lia |].
    unfold fmt.pad0. rewrite hex_value_zeros. apply hex_value_hex. lia.
Qed.

(** X5 on the one-byte immediate [7f]. *)
Lemma X5_StringifyIntegerBytes_width_witness :
  exists digits,
    StringifyIntegerBytes [0x7F] = "0x" +:+ digits
    /\ String.length digits = 8%nat
    /\ hex_value digits 0 = Some (le [0x7F]).
Proof.
  apply (X5_StringifyIntegerBytes_width [0x7F]).
  - repeat constructor; lia.
  - left. reflexivity.
Defined.

(** ** Encoders *)

Lemma ParseModRM_Mod_range (b : Z) : 0 <= Mod (ParseModRM b) <= 3.
Proof.
  unfold ParseModRM. cbn [Mod].
  assert (E : Z.land (Z.shiftr b 6) 3 = Z.shiftr b 6 mod 4).
  { change 3 with (Z.ones 2). by rewrite Z.land_ones by lia. }
  rewrite E. assert (H := Z.mod_pos_bound (Z.shiftr b 6) 4 ltac:(lia)). lia.
Qed.

Lemma Next_result (n : Z) (data : bytes.Buffer) :
  0 <= n ->
  exists d data',
    bytes.Next n data = Some (d, data')
    /\ (Z.of_nat (length d) = n \/ bytes.unread data' = []).
Proof.
  intros Hn. rewrite Next_nonneg by done. eexists _, _. split; [done |].
  cbn [bytes.unread]. rewrite length_take.
  destruct (le_lt_dec (Z.to_nat n) (length (bytes.unread data))).
  - left. lia.
  - right. apply drop_ge. lia.
Qed.

Lemma ParseImmediate_result (data : bytes.Buffer) (size : Z) :
  0 <= size ->
  exists immediate err data',
    ParseImmediate data size = Some (immediate, err, data') /\ eof_or_nil err data'.
Proof.
  intros Hsize. unfold ParseImmediate.
  destruct (Next_result size data Hsize) as (d & data' & -> & Hd).
  cbn [mbind option_bind].
  destruct (Z.eqb_spec (Z.of_nat (length d)) size) as [He | He]; cbn [negb];
    eexists _, _, _; (split; [done |]); [by left | right].
  split; [done |]. by destruct Hd.
Qed.

Lemma ParseDisplacement_result (modrm : option ModRm) (data : bytes.Buffer) (size : Z) :
  (modrm = None -> 0 <= size) ->
  (forall m, modrm = Some m -> 0 <= Mod m <= 3) ->
  exists displacement err data',
    ParseDisplacement modrm data size = Some (displacement, err, data')
    /\ eof_or_nil err data'.
Proof.
  intros Hsize Hmod. unfold ParseDisplacement.
  unfold AM_REG, AM_BYTE_OFFSET, AM_DWORD_OFFSET, AM_DIRECT.
  assert (Hfour :
    exists displacement err data',
      (bytes.Next 4 data ≫= λ '(displacement, data'),
         if negb (length displacement =? 4)%nat
         then Some (displacement, Some ErrUnexpectedEOF, data')
         else Some (displacement, None, data'))
      = Some (displacement, err, data')
      /\ eof_or_nil err data').
  { destruct (Next_result 4 data ltac:(lia)) as (d & data' & -> & Hd).
    cbn [mbind option_bind].
    destruct (Nat.eqb_spec (length d) 4) as [He | He]; cbn [negb];
      eexists _, _, _; (split; [done |]); [by left | right].
    split; [done |]. destruct Hd; [exfalso; lia | done]. }
  destruct modrm as [m |].
  - specialize (Hmod m eq_refl).
    destruct (Z.eqb_spec (Mod m) 0).
    { destruct (RM m =? REG_EBP); [done |]. eexists _, _, _. split; [done | by left]. }
    destruct (Z.eqb_spec (Mod m) 1).
    { destruct (bytes.ReadByte data) as [[c |] data'] eqn:HR.
      - eexists _, _, _. split; [done | by left].
      - apply ReadByte_None in HR as [_ Hu]. eexists _, _, _. split; [done | by right]. }
    destruct (Z.eqb_spec (Mod m) 2); [done |].
    destruct (Z.eqb_spec (Mod m) 3); [| lia].
    eexists _, _, _. split; [done | by left].
  - destruct (Next_result size data (Hsize eq_refl)) as (d & data' & -> & Hd).
    cbn [mbind option_bind].
    destruct (Z.eqb_spec (Z.of_nat (length d)) size) as [He | He]; cbn [negb];
      eexists _, _, _; (split; [done |]); [by left | right].
    split; [done |]. by destruct Hd.
Qed.

Lemma M_Encode_result (data : bytes.Buffer) (inst : Instruction) :
  exists inst' data' err,
    encoders.M_Encode data inst = Some (inst', data', err)
    /\ eof_or_nil err data'
    /\ (Modrm inst = None -> Modrm inst' = None -> bytes.unread data = []).
Proof.
  unfold encoders.M_Encode.
  destruct (bytes.ReadByte data) as [[next |] data1] eqn:HR.
  - cbn [Modrm set_Literal set_Modrm].
    destruct (ParseDisplacement_result (Some (ParseModRM next)) data1 0)
      as (d & e & data2 & -> & He); [done | |].
    { intros m [= <-]. apply ParseModRM_Mod_range. }
    cbn [mbind option_bind]. eexists _, _, _. split; [done |]. split; [done |].
    cbn. done.
  - apply ReadByte_None in HR as [Hu Hu']. eexists _, _, _. split; [done |].
    split; [by right | done].
Qed.

Lemma MI_Encode_result (data : bytes.Buffer) (inst : Instruction) :
  exists inst' data' err,
    encoders.MI_Encode data inst = Some (inst', data', err)
    /\ eof_or_nil err data'
    /\ (Modrm inst = None -> Modrm inst' = None -> bytes.unread data = []).
Proof.
  unfold encoders.MI_Encode.
  destruct (M_Encode_result data inst) as (i1 & d1 & e1 & -> & He1 & Hm).
  cbn [mbind option_bind]. destruct e1 as [e |].
  - eexists _, _, _. split; [done |]. split; [| done].
    destruct He1 as [? | [[= ->] ?]]; [done | by right].
  - destruct (ParseImmediate_result d1 4 ltac:(lia)) as (imm & e2 & d2 & -> & He2).
    cbn [mbind option_bind]. eexists _, _, _. split; [done |]. split; [done |].
    cbn. done.
Qed.

(** Every encoder, on an instruction without ModR/M and with sizes that
    are not negative. *)
Lemma Encode_result (e : encoders.Encoder) (data : bytes.Buffer) (inst : Instruction) :
  0 <= ImmSize inst -> 0 <= DispSize inst -> Modrm inst = None ->
  exists inst' data' err,
    encoders.Encode e data inst = Some (inst', data', err) /\ eof_or_nil err data'.
Proof.
  intros HI HD HM.
  destruct e; cbn [encoders.Encode];
    try (destruct (M_Encode_result data inst) as (i & d & er & H & He & _); by eauto 6);
    try (destruct (MI_Encode_result data inst) as (i & d & er & H & He & _); by eauto 6);
    try (eexists _, _, _; split; [done | by left]).
  - unfold encoders.I_Encode.
    destruct (ParseImmediate_result data (ImmSize inst) HI) as (imm & e2 & d2 & -> & He2).
    cbn [mbind option_bind]. eauto 6.
  - unfold encoders.OI_Encode.
    destruct (ParseImmediate_result data 4 ltac:(lia)) as (imm & e2 & d2 & -> & He2).
    cbn [mbind option_bind]. eauto 6.
  - unfold encoders.D_Encode. rewrite HM.
    destruct (ParseDisplacement_result None data (DispSize inst))
      as (d & e2 & d2 & -> & He2); [done | done |].
    cbn [mbind option_bind]. eauto 6.
Qed.

(** X6. Every encoder, called on an instruction that has no ModR/M yet
    and whose sizes are not negative, returns without panic; its only
    error is UnexpectedEOF, and then the buffer is empty. In every
    case the bytes it appends to the literal are exactly the bytes it
    takes from the buffer, in order, and it leaves the offset and the
    label alone. *)
Theorem X6_Encode_appends_what_it_reads
    (e : encoders.Encoder) (data : bytes.Buffer) (inst : Instruction)
    (HImm : 0 <= ImmSize inst) (HDisp : 0 <= DispSize inst)
    (HModrm : Modrm inst = None) :
  exists inst' data' err extra,
    encoders.Encode e data inst = Some (inst', data', err)
    /\ (err = None \/ err = Some ErrUnexpectedEOF /\ bytes.unread data' = [])
    /\ Literal inst' = Literal inst ++ extra
    /\ bytes.unread data = extra ++ bytes.unread data'
    /\ Label inst' = Label inst
    /\ Offset inst' = Offset inst.
Proof.
  destruct (Encode_result e data inst HImm HDisp HModrm) as (inst' & data' & err & HE & He).
  destruct (Encode_appends _ _ _ _ _ _ HE) as (extra & H1 & H2 & H3 & H4).
  exists inst', data', err, extra. done.
Qed.

(** X6 on the MI encoder with a ModR/M byte, a one-byte displacement and
    two of the four immediate bytes. *)
Lemma X6_Encode_appends_what_it_reads_witness :
  exists inst' data' err extra,
    encoders.Encode encoders.MI (bytes.NewBuffer [0x40; 0x10; 0x01; 0x02])
      (set_Literal [0x81] zero_Instruction)
    = Some (inst', data', err)
    /\ (err = None \/ err = Some ErrUnexpectedEOF /\ bytes.unread data' = [])
    /\ Literal inst' = [0x81] ++ extra
    /\ [0x40; 0x10; 0x01; 0x02] = extra ++ bytes.unread data'
    /\ Label inst' = EmptyString
    /\ Offset inst' = 0.
Proof.
  apply (X6_Encode_appends_what_it_reads encoders.MI
           (bytes.NewBuffer [0x40; 0x10; 0x01; 0x02])
           (set_Literal [0x81] zero_Instruction)).
  - cbn. lia.
  - cbn. lia.
  - reflexivity.
Defined.

(** The opcode maps are not to be unfolded by the tactics below; they
    are evaluated by [vm_compute] where a proof needs their contents. *)
Opaque operations.OpCodes operations.OpCodesExt operations.OpCodesPrefixed.

(** ** Dispatch *)

Lemma Prefixes_cases (b : Z) (p : Prefix) :
  operations.Prefixes !! b = Some p ->
  (b = 0x0F /\ p = operations.Vex) \/ (b = 0xF2 /\ p = operations.Repne).
Proof.
  unfold operations.Prefixes.
  intros [[<- <-] | [_ [[<- <-] | [_ H]]%lookup_insert_Some]]%lookup_insert_Some;
    [by right | by left |].
  by rewrite lookup_empty in H.
Qed.

Lemma Prefixes_literal (b : Z) (p : Prefix) :
  operations.Prefixes !! b = Some p -> Prefix_Literal p = b.
Proof. by intros [[-> ->] | [-> ->]]%Prefixes_cases. Qed.

Opaque operations.Prefixes.

(** [done], with the facts about the opcode maps put aside first. *)
Ltac clear_tables :=
  repeat match goal with
    | H : context [operations.OpCodesPrefixed] |- _ => clear H
    | H : context [operations.OpCodesExt] |- _ => clear H
    | H : context [operations.OpCodes] |- _ => clear H
    end.
Ltac tdone := clear_tables; done.

Lemma OpCodesPrefixed_AE : operations.OpCodesPrefixed !! 0xAE = None.
Proof. vm_compute. reflexivity. Qed.

Lemma OpCodesExt_AE : is_Some (operations.OpCodesExt !! 0xAE).
Proof. vm_compute. eauto. Qed.

Lemma Vex_not_Repne : operations.Vex <> operations.Repne.
Proof. done. Qed.

(** [GetNext] on a buffer with at least one unread byte, by the kind of
    that byte. *)
Lemma GetNext_prefix data b rest prefix :
  bytes.unread data = b :: rest ->
  operations.Prefixes !! b = Some prefix ->
  operations.GetNext data
  = match rest with
    | [] => (None, Some prefix, 0x00, Some ErrUnexpectedEOF, bytes.mkBuffer [] None)
    | code :: rest' =>
        if decide (prefix = operations.Vex) then
          match operations.OpCodesPrefixed !! code with
          | Some opcode =>
              (Some opcode, Some prefix, code, None, bytes.mkBuffer rest' (Some code))
          | None =>
              if code =? 0xAE then
                let '(op, err, data3) :=
                  operations.GetExtendedOpcode code (bytes.mkBuffer rest' (Some code)) in
                (op, Some prefix, code, err, data3)
              else
                (None, Some prefix, 0x00, Some (operations.db (Prefix_Literal prefix)),
                 bytes.mkBuffer (code :: rest') None)
          end
        else
          match operations.OpCodes !! code with
          | Some opcode =>
              (Some opcode, Some prefix, code, None, bytes.mkBuffer rest' (Some code))
          | None =>
              (None, Some prefix, code, Some (operations.db code),
               bytes.mkBuffer rest' (Some code))
          end
    end.
Proof.
  intros Hu Hp. unfold operations.GetNext.
  rewrite (ReadByte_cons _ _ _ Hu), Hp.
  destruct rest as [| code rest']; [done |].
  rewrite (ReadByte_cons (bytes.mkBuffer (code :: rest') (Some b)) code rest' eq_refl).
  destruct (decide (prefix = operations.Vex)) as [-> | Hne]; [done |].
  apply Prefixes_cases in Hp as [[_ ->] | [_ ->]]; [done |].
  by rewrite decide_True.
Qed.

Lemma GetNext_plain data b rest :
  bytes.unread data = b :: rest ->
  operations.Prefixes !! b = None ->
  operations.GetNext data
  = match operations.OpCodesExt !! b with
    | Some opcode_map =>
        match rest with
        | [] => (None, None, b, Some ErrUnexpectedEOF, bytes.mkBuffer [] None)
        | modrm_byte :: rest' =>
            match opcode_map !! Reg (ParseModRM modrm_byte) with
            | Some code => (Some code, None, b, None, bytes.mkBuffer rest None)
            | None => (None, None, b, Some (operations.db b), bytes.mkBuffer rest None)
            end
        end
    | None =>
        match operations.OpCodes !! b with
        | Some opcode => (Some opcode, None, b, None, bytes.mkBuffer rest (Some b))
        | None => (None, None, b, Some (operations.db b), bytes.mkBuffer rest (Some b))
        end
    end.
Proof.
  intros Hu Hp. unfold operations.GetNext.
  rewrite (ReadByte_cons _ _ _ Hu), Hp. unfold operations.GetExtendedOpcode.
  destruct (operations.OpCodesExt !! b) as [opcode_map |].
  - destruct rest as [| modrm_byte rest']; [done |].
    rewrite (ReadByte_cons (bytes.mkBuffer (modrm_byte :: rest') (Some b))
               modrm_byte rest' eq_refl).
    by destruct (opcode_map !! Reg (ParseModRM modrm_byte)).
  - rewrite bool_decide_eq_true_2 by done. cbn [negb].
    by destruct (operations.OpCodes !! b).
Qed.

Lemma GetNext_empty data :
  bytes.unread data = [] ->
  operations.GetNext data = (None, None, 0x00, Some EOF, bytes.mkBuffer [] None).
Proof. intros Hu. unfold operations.GetNext, bytes.ReadByte. by rewrite Hu. Qed.

(** X7. The extension probe takes nothing from the buffer: whatever it
    returns (a record, a bad extension, Op Not Found, or
    UnexpectedEOF), the unread bytes after the call are the unread
    bytes before it. It reports Op Not Found exactly for a byte that is
    no key of the extension map, and returns a record exactly when it
    returns no error. *)
Theorem X7_GetExtendedOpcode_reads_nothing (opcode : Z) (data : bytes.Buffer) :
  exists op err data',
    operations.GetExtendedOpcode opcode data = (op, err, data')
    /\ bytes.unread data' = bytes.unread data
    /\ (err = Some ONF <-> operations.OpCodesExt !! opcode = None)
    /\ (err = None <-> is_Some op).
Proof.
  destruct (operations.GetExtendedOpcode opcode data) as [[op err] data'] eqn:HG.
  exists op, err, data'. split; [done |].
  apply GetExtendedOpcode_cases in HG
    as [(Hk & -> & -> & ->)
       | (m & Hk & [(Hu & Hu' & -> & ->) | (mb & rest & Hu & -> & Hop & ->)])].
  - split; [reflexivity |]. split; [split; [intros _; exact Hk | reflexivity] |].
    split; [discriminate | intros [x [=]]].
  - split; [by rewrite Hu, Hu' |]. split; [split; [discriminate | congruence] |].
    split; [discriminate | intros [x [=]]].
  - split; [by rewrite Hu |]. split; [split; [by destruct op | congruence] |].
    destruct op as [code |]; (split; [eauto; discriminate | eauto; intros [x [=]]]).
Qed.

Lemma GetNext_end_cases (data : bytes.Buffer) :
  exists op prefix lit err data',
    operations.GetNext data = (op, prefix, lit, err, data')
    /\ (err = Some EOF <-> bytes.unread data = [])
    /\ (err = Some ErrUnexpectedEOF <->
        (exists b, bytes.unread data = [b]
                   /\ (is_Some (operations.Prefixes !! b)
                       \/ is_Some (operations.OpCodesExt !! b)))
        \/ bytes.unread data = [0x0F; 0xAE])
    /\ (err = Some EOF \/ err = Some ErrUnexpectedEOF -> bytes.unread data' = []).
Proof.
  destruct (bytes.unread data) as [| b rest] eqn:Hu.
  { rewrite (GetNext_empty _ Hu). eexists _, _, _, _, _. split; [done |].
    split; [done |]. split; [| done].
    split; [done | intros [(b & [=] & _) | [=]]]. }
  destruct (operations.Prefixes !! b) as [prefix |] eqn:Hp.
  - rewrite (GetNext_prefix _ _ _ _ Hu Hp). destruct rest as [| code rest'].
    { eexists _, _, _, _, _. split; [done |]. split; [done |]. split; [| done].
      split; [| done]. intros _. left. exists b. split; [done |]. left. eauto. }
    destruct (decide (prefix = operations.Vex)) as [-> | Hne].
    + assert (Hb : b = 0x0F).
      { apply Prefixes_cases in Hp as [[-> _] | [_ H]]; [done |].
        by apply Vex_not_Repne in H. }
      subst b.
      destruct (operations.OpCodesPrefixed !! code) as [opcode |] eqn:Hpc.
      { assert (Hcode : code <> 0xAE).
        { intros ->. rewrite OpCodesPrefixed_AE in Hpc. clear -Hpc. done. }
        eexists _, _, _, _, _. split; [reflexivity |]. clear Hpc.
        split; [done |]. split; [| by intros [|]].
        split; [done |]. intros [(x & [=] & _) | [= ? ?]]. done. }
      clear Hpc.
      destruct (Z.eqb_spec code 0xAE) as [-> | Hcode].
      * destruct (operations.GetExtendedOpcode 0xAE (bytes.mkBuffer rest' (Some 0xAE)))
          as [[op err] data3] eqn:HG.
        eexists _, _, _, _, _. split; [reflexivity |].
        destruct OpCodesExt_AE as [m Hm].
        apply GetExtendedOpcode_cases in HG
          as [(Hk & _) | (m' & Hk & [(Hr & Hr' & -> & ->) | (mb & rest2 & Hr & -> & Hop & ->)])];
          [congruence | |]; clear Hk Hm; cbn [bytes.unread] in Hr.
        -- subst rest'. split; [done |]. split; [| done]. split; [by right | done].
        -- subst rest'. split; [by destruct op |]. split; [| by destruct op; intros [|]].
           split; [by destruct op |]. intros [(x & [=] & _) | [=]].
      * eexists _, _, _, _, _. split; [done |]. split; [done |]. split; [| by intros [|]].
        split; [done |]. intros [(x & [=] & _) | [= ? ?]]. done.
    + assert (Hb : b = 0xF2).
      { by apply Prefixes_cases in Hp as [[_ ->] | [-> _]]. }
      subst b.
      destruct (operations.OpCodes !! code) as [opcode |];
        (eexists _, _, _, _, _; split; [done |]; split; [done |]; split; [| by intros [|]];
         split; [done |]; intros [(x & [=] & _) | [=]]).
  - rewrite (GetNext_plain _ _ _ Hu Hp).
    assert (Hnot0F : b :: rest <> [0x0F; 0xAE]).
    { intros [= -> _]. vm_compute in Hp. done. }
    destruct (operations.OpCodesExt !! b) as [opcode_map |] eqn:Hk.
    + destruct rest as [| modrm_byte rest'].
      { eexists _, _, _, _, _. split; [reflexivity |]. split; [tdone |]. split; [| tdone].
        split; [| tdone]. intros _. left. exists b. split; [reflexivity |]. right. eauto. }
      clear Hk.
      destruct (opcode_map !! Reg (ParseModRM modrm_byte));
        (eexists _, _, _, _, _; split; [done |]; split; [done |]; split; [| by intros [|]];
         split; [done |]; intros [(x & [=] & _) | ?]; done).
    + destruct (operations.OpCodes !! b);
        (eexists _, _, _, _, _; split; [reflexivity |]; split; [tdone |];
         split; [| clear Hk; by intros [|]];
         split; [tdone |]; intros [(x & [= ->] & [[y Hy] | [y Hy]]) | Hy]; [| | tdone];
         congruence).
Qed.

(** X8. [GetNext] reports EOF exactly on an empty buffer, and
    UnexpectedEOF exactly when the unread bytes are a single prefix
    byte, a single byte that is a key of the extension map, or the two
    bytes [0f ae]. After either error nothing is left in the buffer. *)
Theorem X8_GetNext_end_of_input (data : bytes.Buffer) :
  exists op prefix lit err data',
    operations.GetNext data = (op, prefix, lit, err, data')
    /\ (err = Some EOF <-> bytes.unread data = [])
    /\ (err = Some ErrUnexpectedEOF <->
        (exists b, bytes.unread data = [b]
                   /\ (is_Some (operations.Prefixes !! b)
                       \/ is_Some (operations.OpCodesExt !! b)))
        \/ bytes.unread data = [0x0F; 0xAE])
    /\ (err = Some EOF \/ err = Some ErrUnexpectedEOF -> bytes.unread data' = []).
Proof. exact (GetNext_end_cases data). Qed.

(** The bytes before the opcode byte in the literal. *)
Lemma GetNext_hit_cases data op prefix lit data1 :
  operations.GetNext data = (Some op, prefix, lit, None, data1) ->
  bytes.unread data
  = match prefix with Some p => [Prefix_Literal p] | None => [] end
    ++ lit :: bytes.unread data1
  /\ match prefix with
     | None =>
         operations.Prefixes !! lit = None
         /\ match operations.OpCodesExt !! lit with
            | Some opcode_map =>
                exists modrm_byte,
                  head (bytes.unread data1) = Some modrm_byte
                  /\ opcode_map !! Reg (ParseModRM modrm_byte) = Some op
            | None => operations.OpCodes !! lit = Some op
            end
     | Some p =>
         operations.Prefixes !! Prefix_Literal p = Some p
         /\ if decide (p = operations.Vex) then
              operations.OpCodesPrefixed !! lit = Some op
              \/ (operations.OpCodesPrefixed !! lit = None /\ lit = 0xAE
                  /\ exists opcode_map modrm_byte,
                       operations.OpCodesExt !! lit = Some opcode_map
                       /\ head (bytes.unread data1) = Some modrm_byte
                       /\ opcode_map !! Reg (ParseModRM modrm_byte) = Some op)
            else operations.OpCodes !! lit = Some op
     end.
Proof.
  destruct (bytes.unread data) as [| b rest] eqn:Hu.
  { by rewrite (GetNext_empty _ Hu). }
  destruct (operations.Prefixes !! b) as [p |] eqn:Hp.
  - rewrite (GetNext_prefix _ _ _ _ Hu Hp).
    assert (Hlit := Prefixes_literal _ _ Hp).
    destruct rest as [| code rest']; [done |].
    destruct (decide (p = operations.Vex)) as [HV | HV].
    + destruct (operations.OpCodesPrefixed !! code) as [opcode |] eqn:Hpc.
      { intros [= <- <- <- <-]. rewrite Hlit, Hp, decide_True by exact HV.
        split; [reflexivity |]. split; [reflexivity |]. by left. }
      destruct (Z.eqb_spec code 0xAE) as [-> | Hcode]; [| clear Hpc; done].
      destruct (operations.GetExtendedOpcode 0xAE (bytes.mkBuffer rest' (Some 0xAE)))
        as [[op' err] data3] eqn:HG.
      intros [= -> <- <- -> ->].
      apply GetExtendedOpcode_cases in HG
        as [(_ & [=] & _) | (m & Hk & [(_ & _ & [=] & _) | (mb & rest2 & Hr & -> & Hop & _)])].
      cbn [bytes.unread] in Hr. subst rest'.
      rewrite Hlit, Hp, decide_True by exact HV.
      split; [reflexivity |]. split; [reflexivity |].
      right. split; [exact Hpc |]. split; [reflexivity |]. exists m, mb.
      split; [exact Hk |]. split; [reflexivity |]. symmetry. exact Hop.
    + destruct (operations.OpCodes !! code) as [opcode |] eqn:Hc; [| clear Hc; done].
      intros [= <- <- <- <-]. rewrite Hlit, Hp, decide_False by exact HV.
      split; [reflexivity |]. split; [reflexivity |]. exact Hc.
  - rewrite (GetNext_plain _ _ _ Hu Hp).
    destruct (operations.OpCodesExt !! b) as [opcode_map |] eqn:Hk.
    + destruct rest as [| mb rest']; [clear Hk; done |].
      destruct (opcode_map !! Reg (ParseModRM mb)) as [code |] eqn:Hc; [| clear Hk; done].
      intros [= <- <- <- <-]. rewrite Hp, Hk.
      split; [reflexivity |]. split; [reflexivity |]. exists mb.
      split; [reflexivity | exact Hc].
    + destruct (operations.OpCodes !! b) as [opcode |] eqn:Hc; [| clear Hk Hc; done].
      intros [= <- <- <- <-]. rewrite Hp, Hk.
      split; [reflexivity |]. split; [reflexivity |]. exact Hc.
Qed.

(** X9. When [GetNext] returns a record, the bytes it has taken from
    the buffer are the prefix byte (if a prefix is returned) and the
    opcode byte, nothing more; and the record comes from the lookup
    layers in a fixed priority: without prefix, the extension map of
    the opcode byte (keyed by the reg field of the byte that follows,
    which stays in the buffer) when the byte is a key there and the
    plain map otherwise; after 0x0F, the prefixed map, and the
    extension map only for 0xAE; after 0xF2, the plain map. *)
Theorem X9_GetNext_hit (data : bytes.Buffer) (op : operations.OpCode)
    (prefix : option Prefix) (lit : Z) (data1 : bytes.Buffer)
    (Hhit : operations.GetNext data = (Some op, prefix, lit, None, data1)) :
  bytes.unread data
  = match prefix with Some p => [Prefix_Literal p] | None => [] end
    ++ lit :: bytes.unread data1
  /\ match prefix with
     | None =>
         operations.Prefixes !! lit = None
         /\ match operations.OpCodesExt !! lit with
            | Some opcode_map =>
                exists modrm_byte,
                  head (bytes.unread data1) = Some modrm_byte
                  /\ opcode_map !! Reg (ParseModRM modrm_byte) = Some op
            | None => operations.OpCodes !! lit = Some op
            end
     | Some p =>
         operations.Prefixes !! Prefix_Literal p = Some p
         /\ if decide (p = operations.Vex) then
              operations.OpCodesPrefixed !! lit = Some op
              \/ (operations.OpCodesPrefixed !! lit = None /\ lit = 0xAE
                  /\ exists opcode_map modrm_byte,
                       operations.OpCodesExt !! lit = Some opcode_map
                       /\ head (bytes.unread data1) = Some modrm_byte
                       /\ opcode_map !! Reg (ParseModRM modrm_byte) = Some op)
            else operations.OpCodes !! lit = Some op
     end.
Proof. exact (GetNext_hit_cases _ _ _ _ _ Hhit). Qed.

(** X9 on [0f af c3] (imul eax, ebx). *)
Lemma X9_GetNext_hit_witness :
  [0x0F; 0xAF; 0xC3] = [0x0F] ++ 0xAF :: [0xC3]
  /\ operations.Prefixes !! 0x0F = Some operations.Vex
  /\ (operations.OpCodesPrefixed !! 0xAF
      = Some (operations.mkOp 0xAF "imul" encoders.RM true false true 0 0 0)
      \/ (operations.OpCodesPrefixed !! 0xAF = None /\ 0xAF = 0xAE
          /\ exists opcode_map modrm_byte,
               operations.OpCodesExt !! 0xAF = Some opcode_map
               /\ head [0xC3] = Some modrm_byte
               /\ opcode_map !! Reg (ParseModRM modrm_byte)
                  = Some (operations.mkOp 0xAF "imul" encoders.RM true false true 0 0 0))).
Proof.
  apply (X9_GetNext_hit (bytes.NewBuffer [0x0F; 0xAF; 0xC3])
           (operations.mkOp 0xAF "imul" encoders.RM true false true 0 0 0)
           (Some operations.Vex) 0xAF (bytes.mkBuffer [0xC3] (Some 0xAF))).
  vm_compute. reflexivity.
Defined.

(** ** The records of the tables *)

Lemma table_values_OpCodes b op :
  operations.OpCodes !! b = Some op -> op ∈ table_values.
Proof.
  intros H. unfold table_values. apply elem_of_app. left.
  apply list_elem_of_fmap. exists (b, op). split; [reflexivity |].
  apply elem_of_map_to_list. exact H.
Qed.

Lemma table_values_OpCodesPrefixed b op :
  operations.OpCodesPrefixed !! b = Some op -> op ∈ table_values.
Proof.
  intros H. unfold table_values. apply elem_of_app. right. apply elem_of_app. left.
  apply list_elem_of_fmap. exists (b, op). split; [reflexivity |].
  apply elem_of_map_to_list. exact H.
Qed.

Lemma table_values_OpCodesExt b (opcode_map : gmap Z operations.OpCode) r op :
  operations.OpCodesExt !! b = Some opcode_map -> opcode_map !! r = Some op ->
  op ∈ table_values.
Proof.
  intros H1 H2. unfold table_values. apply elem_of_app. right. apply elem_of_app. right.
  apply list_elem_of_join. exists ((map_to_list opcode_map).*2). split.
  - apply list_elem_of_fmap. exists (r, op). split; [reflexivity |].
    apply elem_of_map_to_list. exact H2.
  - apply list_elem_of_fmap. exists (b, opcode_map). split; [reflexivity |].
    apply elem_of_map_to_list. exact H1.
Qed.

Lemma GetNext_table_value data op prefix lit data1 :
  operations.GetNext data = (Some op, prefix, lit, None, data1) -> op ∈ table_values.
Proof.
  intros [_ H]%GetNext_hit_cases. destruct prefix as [p |].
  - destruct H as [_ H]. destruct (decide (p = operations.Vex)).
    + destruct H as [H | (_ & _ & m & mb & Hk & _ & Hop)].
      * eapply table_values_OpCodesPrefixed. exact H.
      * eapply table_values_OpCodesExt; [exact Hk | exact Hop].
    + eapply table_values_OpCodes. exact H.
  - destruct H as [_ H].
    destruct (operations.OpCodesExt !! lit) as [m |] eqn:Hk.
    + destruct H as (mb & _ & Hop). eapply table_values_OpCodesExt; [exact Hk | exact Hop].
    + eapply table_values_OpCodes. exact H.
Qed.

Lemma table_values_sizes :
  Forall (fun op => 0 <= operations.OpCode_ImmSize op /\ 0 <= operations.OpCode_DispSize op)
    table_values.
Proof.
  assert (H : forallb (fun op => (0 <=? operations.OpCode_ImmSize op)
                                 && (0 <=? operations.OpCode_DispSize op)) table_values
              = true) by (vm_compute; reflexivity).
  rewrite forallb_forall in H. apply Forall_forall. intros op Hop.
  apply list_elem_of_In, H in Hop. apply andb_true_iff in Hop as [H1 H2].
  apply Z.leb_le in H1, H2. split; assumption.
Qed.

Lemma allOps_installed : forallb installed operations.allOps = true.
Proof. vm_compute. reflexivity. Qed.

(** X10. The population loop installs every record of the list, and
    none is shadowed by a later one: a record that requires an
    extension is found in the extension map of its literal under its
    extension index, a record that requires the prefix in the prefixed
    map under its literal, and any other record in the plain map under
    its literal. *)
Theorem X10_every_record_is_installed (op : operations.OpCode)
    (Hop : op ∈ operations.allOps) :
  if operations.ExtensionReq op then
    exists opcode_map,
      operations.OpCodesExt !! operations.OpCode_Literal op = Some opcode_map
      /\ opcode_map !! operations.Extension op = Some op
  else if operations.PrefixReq op then
    operations.OpCodesPrefixed !! operations.OpCode_Literal op = Some op
  else
    operations.OpCodes !! operations.OpCode_Literal op = Some op.
Proof.
  assert (H := allOps_installed). rewrite forallb_forall in H.
  apply list_elem_of_In, H in Hop. unfold installed in Hop.
  destruct (operations.ExtensionReq op).
  - apply bool_decide_eq_true_1 in Hop.
    destruct (operations.OpCodesExt !! operations.OpCode_Literal op) as [m |].
    + exists m. split; [reflexivity | exact Hop].
    + cbn [default] in Hop. rewrite lookup_empty in Hop. discriminate Hop.
  - destruct (operations.PrefixReq op); apply bool_decide_eq_true_1 in Hop; exact Hop.
Qed.

(** X10 on the record of clflush. *)
Lemma X10_every_record_is_installed_witness :
  exists opcode_map,
    operations.OpCodesExt !! 0xAE = Some opcode_map
    /\ opcode_map !! 7
       = Some (operations.mkOp 0xAE "clflush" encoders.M true true true 7 0 0).
Proof.
  apply (X10_every_record_is_installed
           (operations.mkOp 0xAE "clflush" encoders.M true true true 7 0 0)).
  apply list_elem_of_In. vm_compute. tauto.
Defined.

Ltac unbool :=
  repeat match goal with
    | H : _ && _ = true |- _ => apply andb_true_iff in H as [? ?]
    | H : negb _ = true |- _ => apply negb_true_iff in H
    | H : bool_decide _ = true |- _ => apply bool_decide_eq_true_1 in H
    end.

Lemma tables_keys_fit :
  forallb (fun kv => plain_key_fits kv.1 kv.2) (map_to_list operations.OpCodes)
  && forallb (fun kv => prefixed_key_fits kv.1 kv.2) (map_to_list operations.OpCodesPrefixed)
  && forallb (fun kv => forallb (fun rv => ext_key_fits kv.1 rv.1 rv.2) (map_to_list kv.2))
       (map_to_list operations.OpCodesExt)
  = true.
Proof. vm_compute. reflexivity. Qed.

(** X11. The maps hold nothing but records of the list, each under a
    key that fits it. A record found in the plain map under the byte
    [b] requires neither extension nor prefix and has the literal [b],
    or, for the encodings O and OI, a literal from [b-6] to [b]. A
    record found in the prefixed map under [b] requires the prefix and
    has the literal [b]. A record found in the extension map of [b]
    under [r] requires an extension and has the literal [b] and the
    extension index [r], which is in 0..7. *)
Theorem X11_found_records_fit_their_keys (b r : Z) (op : operations.OpCode) :
  (operations.OpCodes !! b = Some op ->
   op ∈ operations.allOps
   /\ operations.ExtensionReq op = false /\ operations.PrefixReq op = false
   /\ if bool_decide (operations.Encoder op = encoders.O)
         || bool_decide (operations.Encoder op = encoders.OI)
      then operations.OpCode_Literal op <= b <= operations.OpCode_Literal op + 6
      else b = operations.OpCode_Literal op)
  /\ (operations.OpCodesPrefixed !! b = Some op ->
      op ∈ operations.allOps
      /\ operations.ExtensionReq op = false /\ operations.PrefixReq op = true
      /\ b = operations.OpCode_Literal op)
  /\ (forall opcode_map : gmap Z operations.OpCode,
        operations.OpCodesExt !! b = Some opcode_map -> opcode_map !! r = Some op ->
        op ∈ operations.allOps
        /\ operations.ExtensionReq op = true
        /\ b = operations.OpCode_Literal op
        /\ r = operations.Extension op /\ 0 <= r <= 7).
Proof.
  assert (H := tables_keys_fit).
  apply andb_true_iff in H as [H H3]. apply andb_true_iff in H as [H1 H2].
  rewrite forallb_forall in H1, H2, H3.
  split; [| split].
  - intros Hb. apply elem_of_map_to_list, list_elem_of_In, H1 in Hb.
    unfold plain_key_fits in Hb. cbn [fst snd] in Hb.
    revert Hb.
    destruct (bool_decide (operations.Encoder op = encoders.O)
              || bool_decide (operations.Encoder op = encoders.OI));
      intros Hb; unbool; split_and!; try assumption; lia.
  - intros Hb. apply elem_of_map_to_list, list_elem_of_In, H2 in Hb.
    unfold prefixed_key_fits in Hb. cbn [fst snd] in Hb.
    unbool; split_and!; assumption.
  - intros m Hm Hr. apply elem_of_map_to_list, list_elem_of_In, H3 in Hm.
    cbn [fst snd] in Hm. rewrite forallb_forall in Hm.
    apply elem_of_map_to_list, list_elem_of_In, Hm in Hr.
    unfold ext_key_fits in Hr. cbn [fst snd] in Hr.
    unbool; split_and!; try assumption; lia.
Qed.

(** ** What a round reads and what it changes *)

Lemma decode_reads offset data i0 out inst data2 other_offset is_offset out2 :
  main.decode offset data i0 out = main.Decoded inst data2 other_offset is_offset out2 ->
  exists extra,
    Literal inst = Literal i0 ++ extra
    /\ bytes.unread data = extra ++ bytes.unread data2.
Proof.
  intros H. apply decode_Decoded in H
    as (opcode & prefix & lit & data1 & i6 & err1 & err2 & HG & HE & _ & -> & _).
  apply GetNext_hit_cases in HG as [HG _].
  apply operations_Encode_appends in HE as (extra & HL & HU & _ & _).
  cbn [Literal set_Operands]. rewrite HL, started_Literal, HG, HU.
  exists ((match prefix with Some p => [Prefix_Literal p] | None => [] end ++ [lit])
          ++ extra).
  split; [by rewrite !app_assoc |]. by rewrite <- !app_assoc.
Qed.

(** What the map holds after a round on an unknown byte. *)
Lemma Unknown_lookup s inst data1 k :
  wf s ->
  main.instruction_at
    (main.mkState (main.store (main.fetch s).1 inst (main.fetch s).2)
       (<[main.offset s := (main.fetch s).1]> (main.Instructions s))
       data1 (main.offset s + 1) (main.stdout s)) k
  = if decide (k = main.offset s) then Some inst else main.instruction_at s k.
Proof.
  intros Hwf. destruct (fetch_pointer s Hwf) as (p & Hf & Hp & Hkey & _).
  unfold main.instruction_at. rewrite Hf. cbn [fst snd main.Instructions main.heap].
  destruct (decide (k = main.offset s)) as [-> | Hne].
  - rewrite lookup_insert_eq. cbn [mbind option_bind].
    rewrite load_lookup by (loads; lia). loads.
    by rewrite decide_True by (split; [done | lia]).
  - rewrite lookup_insert_ne by done.
    destruct (main.Instructions s !! k) as [q |] eqn:Hq; [| done].
    cbn [mbind option_bind]. assert (Hlt := wf_valid s Hwf _ _ Hq).
    rewrite !load_lookup by (loads; lia). loads.
    rewrite decide_False by (intros [-> _]; apply Hne; eauto). by loads.
Qed.

(** What the map holds after a round that decodes an instruction: the
    instruction at the round's offset, the labelled object at the target
    of a branch, and everything else as it was. *)
Lemma after_lookup s inst data' other_offset is_offset out k :
  wf s ->
  main.instruction_at (after s inst data' other_offset is_offset out) k
  = if decide (k = main.offset s) then
      Some (set_Label
              (if is_offset && bool_decide (other_offset = main.offset s)
                  && bool_decide (is_Some (main.Instructions s !! main.offset s))
               then Operands inst else Label inst) inst)
    else if is_offset && bool_decide (k = other_offset) then
      Some (set_Label (Operands inst)
              (default (set_Offset other_offset zero_Instruction)
                 (main.instruction_at s other_offset)))
    else main.instruction_at s k.
Proof.
  intros Hwf. destruct (fetch_pointer s Hwf) as (p & Hf & Hp & Hkey & _ & Hat).
  assert (Hv := wf_valid s Hwf). assert (Hi := wf_inj s Hwf).
  assert (Hpp : forall (x y : Instruction),
    (if decide (p = p /\ (p < length (main.heap s) + 1)%nat) then x else y) = x).
  { intros x y. apply decide_True. split; [done | lia]. }
  unfold main.instruction_at, after. rewrite Hf. cbn [fst snd].
  destruct is_offset; cbn [andb].
  2:{ cbn [fst snd main.Instructions main.heap].
      destruct (decide (k = main.offset s)) as [-> | Hne].
      - rewrite lookup_insert_eq. cbn [mbind option_bind].
        rewrite load_lookup by (loads; lia). loads. by rewrite Hpp, set_Label_same.
      - rewrite lookup_insert_ne by done.
        destruct (main.Instructions s !! k) as [q |] eqn:Hq; [| done].
        cbn [mbind option_bind]. assert (Hlt := Hv _ _ Hq).
        rewrite !load_lookup by (loads; lia). loads.
        rewrite decide_False by (intros [-> _]; apply Hne; eauto). by loads. }
  rewrite attach_label_eq. cbn [fst snd main.Instructions main.heap].
  set (n := length (main.heap s)) in *.
  set (other := match _ !! other_offset with Some q => q | None => _ end).
  assert (Hother :
    main.Instructions s !! other_offset = Some other /\ (other < n)%nat
    \/ main.Instructions s !! other_offset = None /\ other = S n).
  { subst other. destruct (main.Instructions s !! other_offset) as [q |] eqn:Hq.
    - left. split; [done |]. by eapply Hv.
    - right. split; [done |]. loads. lia. }
  clearbody other.
  destruct (decide (k = main.offset s)) as [-> | Hne].
  - rewrite lookup_insert_eq. cbn [mbind option_bind].
    rewrite load_lookup by (loads; lia). loads. fold n. rewrite !Hpp. f_equal.
    destruct (decide (other = p /\ _)) as [[-> _] | Hd].
    + loads. fold n. rewrite Hpp.
      destruct Hother as [[Ho _] | [_ Ho]]; [| lia].
      assert (other_offset = main.offset s) by eauto. subst other_offset.
      rewrite bool_decide_eq_true_2 by done.
      rewrite bool_decide_eq_true_2 by eauto. done.
    + destruct (bool_decide (other_offset = main.offset s)) eqn:E1;
        [| cbn [andb]; by rewrite set_Label_same].
      apply bool_decide_eq_true_1 in E1. subst other_offset.
      destruct (bool_decide (is_Some (main.Instructions s !! main.offset s))) eqn:E2;
        [| cbn [andb]; by rewrite set_Label_same].
      apply bool_decide_eq_true_1 in E2. exfalso. apply Hd.
      destruct Hother as [[Ho Hlt] | [Ho _]].
      * destruct Hat as [Hat | [Hat _]]; [| congruence].
        split; [congruence | lia].
      * destruct E2 as [q Hq]. congruence.
  - rewrite lookup_insert_ne by done.
    destruct (decide (k = other_offset)) as [-> | Hne'].
    + rewrite bool_decide_eq_true_2 by done.
      rewrite lookup_insert_eq. cbn [mbind option_bind].
      rewrite load_lookup by (loads; fold n; destruct Hother as [[_ ?] | [_ ->]]; lia).
      loads. fold n. rewrite !Hpp.
      rewrite decide_True by (split; [done | destruct Hother as [[_ ?] | [_ ->]]; lia]).
      do 2 f_equal.
      destruct Hother as [[Ho Hlt] | [Ho ->]]; rewrite Ho; cbn [mbind option_bind].
      * loads. fold n. rewrite decide_False by (intros [-> _]; apply Hne; eauto).
        loads. by rewrite (load_lookup other (main.heap s)) by done.
      * replace (S n) with (length (main.store p inst (main.heap s ++ [zero_Instruction])))
          by (loads; fold n; lia).
        by rewrite load_new.
    + rewrite bool_decide_eq_false_2 by done.
      rewrite lookup_insert_ne by done.
      destruct (main.Instructions s !! k) as [q |] eqn:Hq; [| done].
      cbn [mbind option_bind]. assert (Hlt := Hv _ _ Hq). fold n in Hlt.
      rewrite !load_lookup by (loads; fold n; lia). loads. fold n.
      rewrite decide_False.
      2:{ intros [-> _]. destruct Hother as [[Ho _] | [_ ->]]; [| lia]. apply Hne'. eauto. }
      loads. fold n. rewrite decide_False by (intros [-> _]; apply Hne; eauto).
      by loads.
Qed.

(** The contents of the object a round works on: what the map holds at
    the round's offset, or a new, zero instruction. *)
Lemma fetched_value s :
  wf s ->
  main.load (main.fetch s).1 (main.fetch s).2
  = default zero_Instruction (main.instruction_at s (main.offset s)).
Proof.
  intros Hwf. destruct (fetch_pointer s Hwf) as (p & Hf & Hp & _ & _ & Hat).
  rewrite Hf. cbn [fst snd]. unfold main.instruction_at.
  destruct Hat as [Hat | [Hat ->]]; rewrite Hat; cbn [mbind option_bind default].
  - assert (Hlt := wf_valid s Hwf _ _ Hat).
    rewrite load_new_old by done. by rewrite (load_lookup p (main.heap s)) by done.
  - by rewrite load_new.
Qed.

(** A miss of [GetNext] takes one byte from the buffer, or two when the
    first is a prefix. *)
Lemma GetNext_miss_cases data op prefix lit err data1 :
  operations.GetNext data = (op, prefix, lit, Some err, data1) ->
  err <> EOF -> err <> ErrUnexpectedEOF ->
  exists b,
    bytes.unread data = b :: bytes.unread data1
    \/ (exists c, bytes.unread data = b :: c :: bytes.unread data1
                  /\ is_Some (operations.Prefixes !! b)).
Proof.
  destruct (bytes.unread data) as [| b rest] eqn:Hu.
  { rewrite (GetNext_empty _ Hu). by intros [= _ _ _ <- _]. }
  intros HG He1 He2. exists b. revert HG.
  destruct (operations.Prefixes !! b) as [p |] eqn:Hp.
  - rewrite (GetNext_prefix _ _ _ _ Hu Hp).
    destruct rest as [| code rest']; [by intros [= _ _ _ <- _] |].
    destruct (decide (p = operations.Vex)) as [HV | HV].
    + destruct (operations.OpCodesPrefixed !! code) as [opcode |]; [done |].
      destruct (Z.eqb_spec code 0xAE) as [-> | Hcode].
      * destruct (operations.GetExtendedOpcode 0xAE (bytes.mkBuffer rest' (Some 0xAE)))
          as [[op' err'] data3] eqn:HG.
        intros [= _ _ _ Herr Hdata]. subst data3.
        apply GetExtendedOpcode_cases in HG
          as [(_ & _ & _ & Hd) | (m & _ & [(_ & _ & _ & Hue) | (mb & rest2 & Hr & Hd & _)])].
        -- right. exists 0xAE. split; [by rewrite Hd | eauto].
        -- exfalso. rewrite Hue in Herr. injection Herr as <-. by apply He2.
        -- right. exists 0xAE. cbn [bytes.unread] in Hr. rewrite Hd, Hr.
           split; [done | eauto].
      * intros [= _ _ _ _ <-]. by left.
    + destruct (operations.OpCodes !! code) as [opcode |]; [done |].
      intros [= _ _ _ _ <-]. right. exists code. eauto.
  - rewrite (GetNext_plain _ _ _ Hu Hp).
    destruct (operations.OpCodesExt !! b) as [opcode_map |].
    + destruct rest as [| mb rest']; [by intros [= _ _ _ <- _] |].
      destruct (opcode_map !! Reg (ParseModRM mb)); [done |].
      intros [= _ _ _ _ <-]. by left.
    + destruct (operations.OpCodes !! b); [done |].
      intros [= _ _ _ _ <-]. by left.
Qed.

(** [GetNext] returns no record only with an error. *)
Lemma GetNext_None_has_error data prefix lit err data1 :
  operations.GetNext data = (None, prefix, lit, err, data1) -> err <> None.
Proof.
  destruct (bytes.unread data) as [| b rest] eqn:Hu.
  { rewrite (GetNext_empty _ Hu). by intros [= _ _ <- _]. }
  destruct (operations.Prefixes !! b) as [p |] eqn:Hp.
  - rewrite (GetNext_prefix _ _ _ _ Hu Hp).
    destruct rest as [| code rest']; [by intros [= _ _ <- _] |].
    destruct (decide (p = operations.Vex)) as [HV | HV].
    + destruct (operations.OpCodesPrefixed !! code) as [opcode |]; [done |].
      destruct (Z.eqb_spec code 0xAE) as [-> | Hcode]; [| by intros [= _ _ <- _]].
      destruct (operations.GetExtendedOpcode 0xAE (bytes.mkBuffer rest' (Some 0xAE)))
        as [[op' err'] data3] eqn:HG.
      intros [= -> _ _ -> _].
      apply GetExtendedOpcode_cases in HG
        as [(_ & _ & -> & _) | (m & _ & [(_ & _ & _ & ->) | (mb & rest2 & _ & _ & _ & ->)])];
        done.
    + destruct (operations.OpCodes !! code) as [opcode |]; [done |].
      by intros [= _ _ <- _].
  - rewrite (GetNext_plain _ _ _ Hu Hp).
    destruct (operations.OpCodesExt !! b) as [opcode_map |].
    + destruct rest as [| mb rest']; [by intros [= _ _ <- _] |].
      destruct (opcode_map !! Reg (ParseModRM mb)); [done |]. by intros [= _ _ <- _].
    + destruct (operations.OpCodes !! b); [done |]. by intros [= _ _ <- _].
Qed.

(** ** The account of a round *)

Lemma round_account input s s' :
  main.reachable input s ->
  main.iteration s = main.Continue s' ->
  exists consumed,
    bytes.unread (main.data s) = consumed ++ bytes.unread (main.data s')
    /\ match main.decoding s with
       | main.Decoded inst _ _ _ _ =>
           consumed = Literal inst
           /\ main.offset s' = main.offset s + Z.of_nat (length consumed)
       | _ =>
           main.offset s' = main.offset s + 1
           /\ (1 <= length consumed <= 2)%nat
       end.
Proof.
  intros Hreach Hit. assert (Hwf := wf_reachable _ _ Hreach).
  destruct (fetch_pointer s Hwf) as (p & Hf & _ & _ & Hempty & _).
  apply iteration_Continue in Hit
    as [(inst & d1 & Hd & ->) | (inst & d2 & T & b & out & Hd & ->)]; rewrite Hd.
  - apply decode_Unknown in Hd as (op & prefix & lit & err & HG & He1 & He2 & _).
    apply GetNext_miss_cases in HG as (b & [Hu | (c & Hu & _)]); [| | done | done].
    + exists [b]. cbn [main.data main.offset length]. split; [done | lia].
    + exists [b; c]. cbn [main.data main.offset length]. split; [done | lia].
  - rewrite after_offset by done.
    unfold main.decoding in Hd. rewrite Hf in Hd. cbn [fst snd] in Hd.
    apply decode_reads in Hd as (extra & HL & HU). rewrite Hempty in HL. cbn in HL.
    exists (Literal inst). unfold after. cbn [main.data]. rewrite HL. done.
Qed.

Lemma offset_bound input s :
  main.reachable input s ->
  0 <= main.offset s
  /\ main.offset s + Z.of_nat (length (bytes.unread (main.data s)))
     <= Z.of_nat (length input).
Proof.
  induction 1 as [| s s' Hreach IH Hit]; [cbn; lia |].
  destruct (round_account _ _ _ Hreach Hit) as (consumed & HU & Hacc).
  rewrite HU, length_app in IH.
  destruct (main.decoding s); lia.
Qed.

(** ** What the map holds in every state *)

Lemma placeholder_relabel (k : Z) (l l' : string) :
  set_Label l' (placeholder k l) = placeholder k l'.
Proof. done. Qed.

Lemma decoded_operands offset data i0 out inst data2 other_offset out2 :
  main.decode offset data i0 out = main.Decoded inst data2 other_offset true out2 ->
  Operands inst = label_of other_offset.
Proof.
  intros Hd. apply decode_Decoded in Hd
    as (opcode & prefix & lit & data1 & i6 & err1 & err2 & _ & _ & HS & _ & _).
  by apply StringifyOperands_target in HS as (_ & _ & ->).
Qed.

Lemma tidy_step s s' :
  wf s -> tidy s -> main.iteration s = main.Continue s' -> tidy s'.
Proof.
  intros Hwf Ht Hit.
  assert (Hfetched := fetched_value s Hwf).
  assert (Hi0 : Label (main.load (main.fetch s).1 (main.fetch s).2) = EmptyString
                \/ Label (main.load (main.fetch s).1 (main.fetch s).2)
                   = label_of (main.offset s)).
  { rewrite Hfetched.
    destruct (main.instruction_at s (main.offset s)) as [y |] eqn:Hy; [| by left].
    by apply Ht in Hy as (_ & Hl & _). }
  apply iteration_Continue in Hit
    as [(inst & d1 & Hd & ->) | (inst & d2 & T & b & out & Hd & ->)].
  - apply decode_Unknown_literal in Hd as (_ & HL & HO & _).
    intros k x. rewrite Unknown_lookup by done. cbn [main.offset].
    destruct (decide (k = main.offset s)) as [-> | Hne].
    + intros [= <-]. rewrite HL. split; [done |]. split; [done | lia].
    + intros Hx. apply Ht in Hx as (H1 & H2 & H3). split; [done |]. split; [done |].
      intros Hk. apply H3. lia.
  - assert (Hoff := after_offset s inst d2 T b out Hwf).
    assert (Hlit := Hd). apply decode_Decoded_literal in Hlit as ((extra & HL & Hne) & Hl & HO & _).
    assert (Hlen : (0 < length (Literal inst))%nat).
    { rewrite HL, length_app. destruct extra; [done | cbn; lia]. }
    assert (Hops : b = true -> Operands inst = label_of T).
    { intros ->. by eapply decoded_operands. }
    intros k x. rewrite after_lookup by done. rewrite Hoff.
    destruct (decide (k = main.offset s)) as [-> | Hne'].
    + intros [= <-]. cbn [Offset Label set_Label]. split; [done |]. split; [| lia].
      destruct b; cbn [andb]; [| by rewrite Hl].
      destruct (bool_decide (T = main.offset s)) eqn:E; cbn [andb]; [| by rewrite Hl].
      apply bool_decide_eq_true_1 in E. subst T.
      destruct (bool_decide _); [| by rewrite Hl]. right. by apply Hops.
    + destruct b; cbn [andb].
      * destruct (bool_decide (k = T)) eqn:E.
        -- apply bool_decide_eq_true_1 in E. subst T. intros [= <-].
           cbn [Label set_Label]. rewrite (Hops eq_refl).
           destruct (main.instruction_at s k) as [y |] eqn:Hy; cbn [default].
           ++ apply Ht in Hy as (H1 & H2 & H3). split; [done |]. split; [by right |].
              intros Hk. rewrite H3 by lia. done.
           ++ split; [done |]. split; [by right | done].
        -- intros Hx. apply Ht in Hx as (H1 & H2 & H3). split; [done |].
           split; [done |]. intros Hk. apply H3. lia.
      * intros Hx. apply Ht in Hx as (H1 & H2 & H3). split; [done |].
        split; [done |]. intros Hk. apply H3. lia.
Qed.

Lemma tidy_reachable input s : main.reachable input s -> tidy s.
Proof.
  induction 1 as [| s s' Hreach IH Hit].
  - intros k x. unfold main.instruction_at. cbn. by rewrite lookup_empty.
  - eapply tidy_step; [by eapply wf_reachable | done | done].
Qed.

(** The object a round works on has no ModR/M. *)
Lemma fetched_Modrm input s :
  main.reachable input s ->
  Modrm (main.load (main.fetch s).1 (main.fetch s).2) = None.
Proof.
  intros Hreach. rewrite fetched_value by (by eapply wf_reachable).
  destruct (main.instruction_at s (main.offset s)) as [y |] eqn:Hy; [| done].
  apply (tidy_reachable _ _ Hreach) in Hy as (_ & _ & H3). rewrite H3 by lia. done.
Qed.

(** ** When a round panics *)

Lemma StringifyOperands_None e inst :
  encoders.StringifyOperands e inst = None
  <-> (e = encoders.MR \/ e = encoders.RM \/ e = encoders.RMI) /\ Modrm inst = None.
Proof.
  unfold encoders.StringifyOperands, encoders.Modrm_Reg.
  destruct e; try (split; [done | intros [[? | [? | ?]] _]; done]);
    try (destruct (BytesToIntSigned (Displacement inst));
         split; [done | intros [[? | [? | ?]] _]; done]);
    destruct (Modrm inst) as [m |]; cbn; split; try done;
    try (intros [_ [=]]); intros _; split; auto.
Qed.

Lemma started_Modrm offset prefix lit i0 :
  Modrm (started offset prefix lit i0) = Modrm i0.
Proof. unfold started. by destruct prefix. Qed.

(** The encoders that read a ModR/M byte leave the ModR/M empty only on
    an empty buffer, and then change nothing. *)
Lemma Encode_Modrm_None e data inst inst' data' err :
  e = encoders.MR \/ e = encoders.RM \/ e = encoders.RMI ->
  Modrm inst = None ->
  encoders.Encode e data inst = Some (inst', data', err) ->
  Modrm inst' = None <-> bytes.unread data = [].
Proof.
  intros He HM HE.
  assert (HMenc : forall i d er,
    encoders.M_Encode data inst = Some (i, d, er) ->
    (Modrm i = None <-> bytes.unread data = [])
    /\ (bytes.unread data = [] -> er = Some ErrUnexpectedEOF)).
  { unfold encoders.M_Encode. intros i d er.
    destruct (bytes.ReadByte data) as [[next |] data1] eqn:HR.
    - apply ReadByte_Some in HR as [Hu _].
      destruct (ParseDisplacement _ data1 0) as [[[dd e'] data2] |]; [| done].
      cbn [mbind option_bind]. intros [= <- _ _]. cbn. rewrite Hu. done.
    - apply ReadByte_None in HR as [Hu _]. intros [= <- _ <-]. rewrite Hu. done. }
  destruct He as [-> | [-> | ->]]; cbn [encoders.Encode] in HE;
    [apply HMenc in HE as [HE _]; exact HE | apply HMenc in HE as [HE _]; exact HE |].
  unfold encoders.MI_Encode in HE.
  destruct (encoders.M_Encode data inst) as [[[i1 d1] e1] |] eqn:HM1; [| done].
  destruct (HMenc _ _ _ eq_refl) as [H1 H2]. cbn [mbind option_bind] in HE.
  destruct e1 as [e1 |]; [by injection HE as <- _ _ |].
  destruct (ParseImmediate d1 4) as [[[imm e2] d2] |]; [| done].
  cbn [mbind option_bind] in HE. injection HE as <- _ _. cbn [Modrm set_Literal set_Immediate].
  done.
Qed.

Lemma decode_panic_iff offset data i0 out :
  Modrm i0 = None ->
  main.decode offset data i0 out = main.DecodePanic
  <-> exists opcode prefix lit data1,
        operations.GetNext data = (Some opcode, prefix, lit, None, data1)
        /\ (operations.Encoder opcode = encoders.MR
            \/ operations.Encoder opcode = encoders.RM
            \/ operations.Encoder opcode = encoders.RMI)
        /\ bytes.unread data1 = [].
Proof.
  intros HM. unfold main.decode.
  destruct (operations.GetNext data) as [[[[op prefix] lit] err] data1] eqn:HG.
  destruct err as [e |].
  { split; [by destruct op, (bool_decide (e = EOF) || bool_decide (e = ErrUnexpectedEOF)) |].
    intros (? & ? & ? & ? & [=] & _). }
  destruct op as [opcode |].
  2:{ by apply GetNext_None_has_error in HG. }
  fold (started offset prefix lit i0).
  assert (Hsizes : 0 <= operations.OpCode_ImmSize opcode
                   /\ 0 <= operations.OpCode_DispSize opcode).
  { apply GetNext_table_value in HG.
    assert (H := table_values_sizes). rewrite Forall_forall in H. by apply H. }
  clear HG. unfold operations.Encode.
  set (i3 := set_ImmSize _ _).
  assert (HM3 : Modrm i3 = None) by (subst i3; rewrite <- HM; unfold started; by destruct prefix).
  destruct (Encode_result (operations.Encoder opcode) data1 i3)
    as (i6 & data2 & err1 & HE & _); [subst i3; cbn; lia | subst i3; cbn; lia | done |].
  rewrite HE.
  destruct (encoders.StringifyOperands (operations.Encoder opcode) i6)
    as [[[[ops T] b] e2] |] eqn:HS.
  - split; [done |]. intros (o & p & l & d & [= <- <- <- <-] & Henc & Hu).
    assert (HN : Modrm i6 = None)
      by (by apply (Encode_Modrm_None _ _ _ _ _ _ Henc HM3 HE)).
    assert (encoders.StringifyOperands (operations.Encoder opcode) i6 = None)
      by (by apply StringifyOperands_None).
    congruence.
  - split; [| done]. intros _. apply StringifyOperands_None in HS as [Henc HN].
    exists opcode, prefix, lit, data1. split; [done |]. split; [done |].
    by apply (Encode_Modrm_None _ _ _ _ _ _ Henc HM3 HE).
Qed.

Lemma iteration_Panic_iff s :
  main.iteration s = main.Panic <-> main.decoding s = main.DecodePanic.
Proof.
  unfold main.iteration, main.decoding.
  destruct (main.fetch s) as [p h0]. cbn [fst snd].
  destruct (main.decode _ _ _ _) as [err d1 | inst d1 | inst d2 T b out |]; try done.
  destruct b; [| done]. by destruct (main.attach_label _ _ _ _).
Qed.

(** ** How the sweep ends *)

Lemma iteration_Break s s' err :
  main.iteration s = main.Break s' err ->
  exists data1,
    main.decoding s = main.Stop err data1
    /\ s' = main.mkState (main.fetch s).2 (main.Instructions s) data1
              (main.offset s) (main.stdout s).
Proof.
  unfold main.iteration, main.decoding.
  destruct (main.fetch s) as [p h0]. cbn [fst snd].
  destruct (main.decode _ _ _ _) as [e d1 | inst d1 | inst d2 T b out |]; try done.
  - intros [= <- <-]. eauto.
  - destruct b; [| done]. by destruct (main.attach_label _ _ _ _).
Qed.

Lemma loop_Returned input fuel s0 s err :
  main.reachable input s0 ->
  main.loop fuel s0 = main.Returned s err ->
  exists s1, main.reachable input s1 /\ main.iteration s1 = main.Break s err.
Proof.
  revert s0. induction fuel as [| fuel IH]; intros s0 Hreach; [done |].
  cbn [main.loop]. destruct (main.iteration s0) as [s' | s' e |] eqn:Hit; [| | done].
  - apply IH. by eapply main.reachable_step.
  - intros [= <- <-]. eauto.
Qed.

Lemma Break_lookup s data1 k :
  wf s ->
  main.instruction_at
    (main.mkState (main.fetch s).2 (main.Instructions s) data1
       (main.offset s) (main.stdout s)) k
  = main.instruction_at s k.
Proof.
  intros Hwf. destruct (fetch_pointer s Hwf) as (p & Hf & _). rewrite Hf. cbn [snd].
  unfold main.instruction_at. cbn [main.Instructions main.heap].
  destruct (main.Instructions s !! k) as [q |] eqn:Hq; [| done].
  cbn [mbind option_bind]. apply lookup_app_l. by eapply wf_valid.
Qed.

Lemma Stop_empties offset data i0 out err data1 :
  main.decode offset data i0 out = main.Stop err data1 ->
  (err = EOF \/ err = ErrUnexpectedEOF) /\ bytes.unread data1 = [].
Proof.
  intros [He (op & prefix & lit & HG)]%decode_Stop. split; [done |].
  destruct (GetNext_end_cases data) as (op' & p' & l' & e' & d' & HG' & _ & _ & Hempty).
  rewrite HG in HG'. injection HG' as <- <- <- <- <-.
  apply Hempty. destruct He as [-> | ->]; auto.
Qed.

(** ** The sweep as a whole *)

Lemma loop_more_fuel fuel n s :
  main.loop fuel s <> main.OutOfFuel ->
  main.loop (fuel + n) s = main.loop fuel s.
Proof.
  revert s. induction fuel as [| fuel IH]; intros s; cbn [main.loop Nat.add]; [done |].
  destruct (main.iteration s); auto.
Qed.

(** A state that the loop reaches is reached by running it. *)
Lemma reachable_loop input s :
  main.reachable input s ->
  exists n, forall fuel, main.loop (n + fuel) (main.init input) = main.loop fuel s.
Proof.
  induction 1 as [| s s' _ [n IH] Hit].
  - by exists 0%nat.
  - exists (n + 1)%nat. intros fuel.
    replace (n + 1 + fuel)%nat with (n + S fuel)%nat by lia.
    rewrite IH. cbn [main.loop]. by rewrite Hit.
Qed.

Lemma reachable_result input s r :
  main.reachable input s ->
  main.loop 1 s = r -> r <> main.OutOfFuel ->
  main.Parse_Instructions input = r.
Proof.
  intros [n Hn]%reachable_loop Hr Hne.
  assert (H1 : main.loop (n + 1) (main.init input) = r) by (by rewrite Hn).
  assert (H2 := loop_more_fuel (n + 1) (S (length input)) (main.init input)).
  assert (H3 := loop_more_fuel (S (length input)) (n + 1) (main.init input)
                  (Parse_Instructions_total input)).
  rewrite H1 in H2. specialize (H2 Hne).
  replace (S (length input) + (n + 1))%nat with (n + 1 + S (length input))%nat in H3 by lia.
  unfold main.Parse_Instructions. congruence.
Qed.

Lemma loop_Panicked input fuel s0 :
  main.reachable input s0 ->
  main.loop fuel s0 = main.Panicked ->
  exists s1, main.reachable input s1 /\ main.iteration s1 = main.Panic.
Proof.
  revert s0. induction fuel as [| fuel IH]; intros s0 Hreach; [done |].
  cbn [main.loop]. destruct (main.iteration s0) as [s' | s' e |] eqn:Hit; [| done |].
  - apply IH. by eapply main.reachable_step.
  - eauto.
Qed.

Lemma reachable_rounds input s s' :
  main.reachable input s -> main.rounds s s' -> main.reachable input s'.
Proof.
  intros Hreach Hr. induction Hr as [| s s' s'' Hit _ IH]; [done |].
  apply IH. by eapply main.reachable_step.
Qed.

(** ** What the map holds, continued *)

Lemma set_Label_twice (l l' : string) (x : Instruction) :
  set_Label l' (set_Label l x) = set_Label l' x.
Proof. done. Qed.

(** One round changes a stored instruction below the offset in its
    label only, and only to the label of its key. *)
Lemma stored_step s s' k x :
  wf s ->
  main.iteration s = main.Continue s' ->
  k < main.offset s ->
  main.instruction_at s k = Some x ->
  main.offset s <= main.offset s'
  /\ exists l, main.instruction_at s' k = Some (set_Label l x)
               /\ (l = Label x \/ l = label_of k).
Proof.
  intros Hwf Hit Hk Hx.
  apply iteration_Continue in Hit
    as [(inst & d1 & Hd & ->) | (inst & d2 & T & b & out & Hd & ->)].
  - cbn [main.offset]. split; [lia |]. exists (Label x).
    rewrite Unknown_lookup by done.
    destruct (decide (k = main.offset s)) as [-> | _]; [lia |].
    by rewrite set_Label_same, Hx; auto.
  - rewrite after_offset by done. split; [lia |].
    rewrite after_lookup by done.
    destruct (decide (k = main.offset s)) as [-> | _]; [lia |].
    destruct b; cbn [andb].
    + destruct (bool_decide (k = T)) eqn:E.
      * apply bool_decide_eq_true_1 in E. subst T. rewrite Hx. cbn [default].
        exists (Operands inst). split; [done |]. right. by eapply decoded_operands.
      * exists (Label x). by rewrite set_Label_same, Hx; auto.
    + exists (Label x). by rewrite set_Label_same, Hx; auto.
Qed.

(** An instruction with bytes is stored at an offset that is not
    negative. *)
Lemma stored_nonneg input s k x :
  main.reachable input s ->
  main.instruction_at s k = Some x -> Literal x <> [] -> 0 <= k.
Proof.
  intros Hreach. revert k x.
  induction Hreach as [| s s' Hreach IH Hit]; intros k x.
  - unfold main.instruction_at. cbn. by rewrite lookup_empty.
  - assert (Hwf := wf_reachable _ _ Hreach).
    destruct (offset_bound _ _ Hreach) as [H0 _].
    apply iteration_Continue in Hit
      as [(inst & d1 & Hd & ->) | (inst & d2 & T & b & out & Hd & ->)].
    + rewrite Unknown_lookup by done.
      destruct (decide (k = main.offset s)) as [-> | _]; [done | apply IH].
    + rewrite after_lookup by done.
      destruct (decide (k = main.offset s)) as [-> | _]; [done |].
      destruct b; cbn [andb]; [| apply IH].
      destruct (bool_decide (k = T)) eqn:E; [| apply IH].
      apply bool_decide_eq_true_1 in E. subst T. intros [= <-]. cbn [Literal set_Label].
      destruct (main.instruction_at s k) as [y |] eqn:Hy; cbn [default]; [by eapply IH | done].
Qed.

(** At or after the current offset every stored instruction carries
    the label of its key. *)
Lemma ahead_labelled input s k x :
  main.reachable input s ->
  main.instruction_at s k = Some x -> main.offset s <= k -> Label x = label_of k.
Proof.
  intros Hreach. revert k x.
  induction Hreach as [| s s' Hreach IH Hit]; intros k x.
  - unfold main.instruction_at. cbn. by rewrite lookup_empty.
  - assert (Hwf := wf_reachable _ _ Hreach).
    apply iteration_Continue in Hit
      as [(inst & d1 & Hd & ->) | (inst & d2 & T & b & out & Hd & ->)].
    + rewrite Unknown_lookup by done. cbn [main.offset].
      destruct (decide (k = main.offset s)) as [-> | _]; [lia |].
      intros Hx Hk. eapply IH; [done | lia].
    + rewrite after_lookup, after_offset by done.
      destruct (decide (k = main.offset s)) as [-> | _].
      { intros _ Hk. apply decode_Decoded_literal in Hd as ((extra & HL & Hne) & _).
        exfalso. rewrite HL, length_app in Hk. destruct extra; [done | cbn in Hk; lia]. }
      destruct b; cbn [andb].
      * destruct (bool_decide (k = T)) eqn:E.
        -- apply bool_decide_eq_true_1 in E. subst T. intros [= <-] _.
           cbn [Label set_Label]. by eapply decoded_operands.
        -- intros Hx Hk. eapply IH; [done | lia].
      * intros Hx Hk. eapply IH; [done | lia].
Qed.

(** The map is empty before the first round that continues, and holds
    the key 0 ever after. *)
Lemma key_zero input s :
  main.reachable input s ->
  (main.Instructions s = ∅ /\ main.offset s = 0)
  \/ is_Some (main.Instructions s !! 0).
Proof.
  induction 1 as [| s s' Hreach IH Hit]; [by left |]. right.
  destruct IH as [[_ H0] | H0]; [| by eapply iteration_keys].
  apply iteration_Continue in Hit
    as [(inst & d1 & Hd & ->) | (inst & d2 & T & b & out & Hd & ->)].
  - cbn [main.Instructions]. rewrite H0, lookup_insert. by eexists.
  - unfold after. cbn [main.Instructions]. rewrite H0, lookup_insert. by eexists.
Qed.

(** ** The rows of the listing *)

Lemma emitted_literal (x : Instruction) : main.emitted x = true <-> Literal x <> [].
Proof.
  unfold main.emitted. destruct (Literal x); cbn; split; done.
Qed.

(** The loop of [Print_Instructions] over a sorted slice of keys of
    the map: it does not panic, and prints once, in increasing order,
    each key of the slice not yet visited whose instruction has bytes. *)
Lemma rows_spec s :
  (forall k p, main.Instructions s !! k = Some p -> (p < length (main.heap s))%nat) ->
  forall l visited,
    StronglySorted Z.le l ->
    Forall (fun k => is_Some (main.Instructions s !! k)) l ->
    (forall v k, v ∈ visited -> k ∈ l -> v <= k) ->
    exists printed,
      main.rows s visited l = Some printed
      /\ StronglySorted Z.lt printed.*1
      /\ (forall k x, (k, x) ∈ printed <->
            k ∈ l /\ (k ∉ visited)
            /\ main.instruction_at s k = Some x /\ Literal x <> [])
      /\ (forall v k, v ∈ visited -> k ∈ printed.*1 -> v < k).
Proof.
  intros Hvalid l. induction l as [| a l IH]; intros visited Hsorted Hkeys Hvis.
  { exists []. split; [done |]. split; [constructor |]. split.
    - intros k x. split; [intros H | intros [H _]]; by apply elem_of_nil in H.
    - intros v k _ H. by apply elem_of_nil in H. }
  apply StronglySorted_inv in Hsorted as [Hsorted Hle].
  apply Forall_cons in Hkeys as [[p Hp] Hkeys].
  rewrite Forall_forall in Hle.
  assert (Hat : main.instruction_at s a = Some (main.load p (main.heap s))).
  { unfold main.instruction_at. rewrite Hp. cbn [mbind option_bind].
    apply load_lookup. by eapply Hvalid. }
  cbn [main.rows]. rewrite Hp. cbn [mbind option_bind].
  set (x0 := main.load p (main.heap s)) in *.
  destruct (negb (main.emitted x0) || bool_decide (a ∈ visited)) eqn:Hc.
  - destruct (IH visited Hsorted Hkeys) as (printed & -> & HS & Hiff & Hlt).
    { intros v k Hv Hk. apply Hvis; [done | by apply list_elem_of_further]. }
    exists printed. split; [done |]. split; [done |]. split; [| done].
    intros k x. rewrite Hiff. split.
    + intros (Hk & H). split; [by apply list_elem_of_further | done].
    + intros (Hk & Hnv & Hx & Hl). split; [| done].
      apply elem_of_cons in Hk as [-> | Hk]; [| done]. exfalso.
      rewrite Hat in Hx. injection Hx as <-.
      apply orb_true_iff in Hc as [Hc | Hc].
      * apply negb_true_iff in Hc. apply emitted_literal in Hl. congruence.
      * by apply bool_decide_eq_true_1 in Hc.
  - apply orb_false_iff in Hc as [He Hnv].
    apply negb_false_iff, emitted_literal in He.
    apply bool_decide_eq_false_1 in Hnv.
    destruct (IH ({[a]} ∪ visited) Hsorted Hkeys) as (printed & -> & HS & Hiff & Hlt).
    { intros v k [->%elem_of_singleton | Hv]%elem_of_union Hk.
      - by apply Hle.
      - apply Hvis; [done | by apply list_elem_of_further]. }
    cbn [mbind option_bind]. exists ((a, x0) :: printed). split; [done |].
    split; [| split].
    + cbn [fmap list_fmap fst]. constructor; [done |].
      rewrite Forall_forall. intros k Hk. apply Hlt; [| done].
      apply elem_of_union. left. by apply elem_of_singleton.
    + intros k x. rewrite elem_of_cons, Hiff. split.
      * intros [[= -> ->] | (Hk & Hn & Hx & Hl)].
        -- split; [by apply list_elem_of_here |]. done.
        -- split; [by apply list_elem_of_further |]. split; [| done].
           intros Hv. apply Hn. apply elem_of_union. by right.
      * intros (Hk & Hn & Hx & Hl).
        apply elem_of_cons in Hk as [-> | Hk].
        -- left. rewrite Hat in Hx. by injection Hx as <-.
        -- destruct (decide (k = a)) as [-> | Hne].
           ++ left. rewrite Hat in Hx. by injection Hx as <-.
           ++ right. split; [done |]. split; [| done].
              intros [Hv%elem_of_singleton | Hv]%elem_of_union; done.
    + intros v k Hv. cbn [fmap list_fmap fst]. intros [-> | Hk]%elem_of_cons.
      * assert (v <= a) by (apply Hvis; [done | by apply list_elem_of_here]).
        assert (v <> a) by (by intros ->). lia.
      * apply Hlt; [| done]. apply elem_of_union. by right.
Qed.

Lemma Print_Instructions_spec s :
  (forall k p, main.Instructions s !! k = Some p -> (p < length (main.heap s))%nat) ->
  (main.Instructions s <> ∅ -> is_Some (main.Instructions s !! 0)) ->
  exists printed,
    main.Print_Instructions s = Some printed
    /\ StronglySorted Z.lt printed.*1
    /\ (forall k x, (k, x) ∈ printed <->
          main.instruction_at s k = Some x /\ Literal x <> []).
Proof.
  intros Hvalid H0. unfold main.Print_Instructions, main.offsets.
  set (l := replicate _ _ ++ _).
  assert (Hl : forall k, k ∈ merge_sort Z.le l
                         <-> (k = 0 /\ main.Instructions s <> ∅)
                             \/ is_Some (main.Instructions s !! k)).
  { intros k. rewrite merge_sort_Permutation. subst l.
    rewrite elem_of_app, elem_of_replicate, map_size_non_empty_iff.
    rewrite list_elem_of_fmap. split.
    - intros [H | ([k' p] & -> & H%elem_of_map_to_list)]; [by left | right; by eexists].
    - intros [H | [p Hp]]; [by left |]. right. exists (k, p). split; [done |].
      by apply elem_of_map_to_list. }
  destruct (rows_spec s Hvalid (merge_sort Z.le l) ∅)
    as (printed & HP & HS & Hiff & _).
  - apply StronglySorted_merge_sort; apply _.
  - rewrite Forall_forall. intros k [[-> Hne] | Hk]%Hl; [by apply H0 | done].
  - intros v k Hv. by apply elem_of_empty in Hv.
  - exists printed. split; [done |]. split; [done |].
    intros k x. rewrite Hiff. split.
    + intros (_ & _ & H). done.
    + intros [Hx Hlit]. split; [| split; [| done]].
      * apply Hl. right. unfold main.instruction_at in Hx.
        destruct (main.Instructions s !! k); [by eexists | done].
      * apply not_elem_of_empty.
Qed.

(** ** The sweep and the listing: results *)

Lemma Returned_state input s err :
  main.Parse_Instructions input = main.Returned s err ->
  exists s1 data1,
    main.reachable input s1
    /\ main.decoding s1 = main.Stop err data1
    /\ s = main.mkState (main.fetch s1).2 (main.Instructions s1) data1
             (main.offset s1) (main.stdout s1).
Proof.
  unfold main.Parse_Instructions. intros H.
  apply (loop_Returned input) in H as (s1 & Hreach & Hit); [| apply main.reachable_init].
  apply iteration_Break in Hit as (data1 & Hd & ->). eauto.
Qed.

Lemma label_of_nonempty (k : Z) : label_of k <> EmptyString.
Proof. unfold label_of. cbn. done. Qed.

(** What [Print_Instructions] prints after a sweep that returns. *)
Lemma returned_listing input s err :
  main.Parse_Instructions input = main.Returned s err ->
  exists printed,
    main.Print_Instructions s = Some printed
    /\ StronglySorted Z.lt printed.*1
    /\ (forall k x, (k, x) ∈ printed <->
          main.instruction_at s k = Some x /\ Literal x <> []).
Proof.
  intros (s1 & data1 & Hreach & Hd & ->)%Returned_state.
  assert (Hwf := wf_reachable _ _ Hreach).
  apply Print_Instructions_spec; cbn [main.Instructions main.heap].
  - intros k p Hp. destruct (fetch_pointer s1 Hwf) as (q & -> & _). cbn [snd].
    rewrite length_app. cbn. assert (H := wf_valid s1 Hwf _ _ Hp). lia.
  - intros Hne. by destruct (key_zero _ _ Hreach) as [[? _] | ?].
Qed.

(** X12. Round account. In a round of [Parse_Instructions] that
    continues, the buffer loses a prefix [consumed] and an instruction
    [x] is stored at the round's offset; the offset advances by the
    length of the literal of [x]. When the round decodes an instruction,
    the literal of [x] is exactly [consumed]. When it stores a [db] for
    an unknown byte, the literal holds one byte, while one or two bytes
    were consumed. *)
Theorem X12_round_account input s s' :
  main.reachable input s ->
  main.iteration s = main.Continue s' ->
  exists consumed x,
    bytes.unread (main.data s) = consumed ++ bytes.unread (main.data s')
    /\ main.instruction_at s' (main.offset s) = Some x
    /\ main.offset s' = main.offset s + Z.of_nat (length (Literal x))
    /\ match main.decoding s with
       | main.Decoded _ _ _ _ _ => Literal x = consumed
       | _ => length (Literal x) = 1%nat /\ (1 <= length consumed <= 2)%nat
       end.
Proof.
  intros Hreach Hit.
  destruct (round_account input s s' Hreach Hit) as (consumed & Hc & Hm).
  assert (Hwf := wf_reachable _ _ Hreach).
  apply iteration_Continue in Hit
    as [(inst & d1 & Hd & ->) | (inst & d2 & T & b & out & Hd & ->)];
    rewrite Hd in Hm |- *.
  - destruct Hm as [Hoff Hlen]. exists consumed, inst.
    assert (HL : length (Literal inst) = 1%nat).
    { destruct (fetch_pointer s Hwf) as (p & Hf & _ & _ & Hempty & _).
      unfold main.decoding in Hd. rewrite Hf in Hd. cbn [fst snd] in Hd.
      apply decode_Unknown_literal in Hd as ((lit & ->) & _). by rewrite Hempty. }
    split; [done |]. split.
    { rewrite Unknown_lookup by done. by destruct (decide _). }
    rewrite HL. split; [exact Hoff | done].
  - destruct Hm as [-> Hoff].
    destruct (after_stored s inst d2 T b out Hwf) as (l & Hl).
    exists (Literal inst), (set_Label l inst). split; [done |]. split; [done |].
    split; [exact Hoff | done].
Qed.

(** X12 on the input [b8 01 02 03 04] (mov eax, imm32): the round
    consumes the five bytes and stores them at offset 0. *)
Lemma X12_round_account_witness :
  exists s',
    main.iteration (main.init [0xB8; 1; 2; 3; 4]) = main.Continue s'
    /\ exists consumed x,
         bytes.unread (main.data (main.init [0xB8; 1; 2; 3; 4]))
         = consumed ++ bytes.unread (main.data s')
         /\ main.instruction_at s' (main.offset (main.init [0xB8; 1; 2; 3; 4])) = Some x
         /\ main.offset s'
            = main.offset (main.init [0xB8; 1; 2; 3; 4]) + Z.of_nat (length (Literal x))
         /\ match main.decoding (main.init [0xB8; 1; 2; 3; 4]) with
            | main.Decoded _ _ _ _ _ => Literal x = consumed
            | _ => length (Literal x) = 1%nat /\ (1 <= length consumed <= 2)%nat
            end.
Proof.
  eexists. split; [vm_compute; reflexivity |].
  apply (X12_round_account [0xB8; 1; 2; 3; 4] (main.init [0xB8; 1; 2; 3; 4])).
  - apply main.reachable_init.
  - vm_compute. reflexivity.
Defined.

(** X13. The offset never runs ahead of the input. In every state of
    the sweep the offset is not negative, and the offset plus the
    number of bytes still in the buffer is at most the length of the
    input: the offset counts no byte that was not read. *)
Theorem X13_offset_within_input input s :
  main.reachable input s ->
  0 <= main.offset s
  /\ main.offset s + Z.of_nat (length (bytes.unread (main.data s)))
     <= Z.of_nat (length input).
Proof. apply offset_bound. Qed.

(** X13 after the first round on [f2 06 90], which consumes two bytes
    and advances the offset by one. *)
Lemma X13_offset_within_input_witness :
  exists s',
    main.iteration (main.init [0xF2; 0x06; 0x90]) = main.Continue s'
    /\ 0 <= main.offset s'
    /\ main.offset s' + Z.of_nat (length (bytes.unread (main.data s')))
       <= Z.of_nat (length [0xF2; 0x06; 0x90]).
Proof.
  eexists. split; [vm_compute; reflexivity |].
  apply (X13_offset_within_input [0xF2; 0x06; 0x90]).
  eapply main.reachable_step; [apply main.reachable_init | vm_compute; reflexivity].
Defined.

(** X14. The sweep ends. Every round that continues takes at least one
    byte from the buffer, so the loop of [Parse_Instructions] ends
    within [length input + 1] rounds: it returns or panics, and running
    it with any larger bound on the number of rounds gives the same
    result. *)
Theorem X14_sweep_ends input fuel :
  (length input < fuel)%nat ->
  main.loop fuel (main.init input) = main.Parse_Instructions input
  /\ main.Parse_Instructions input <> main.OutOfFuel.
Proof.
  intros Hfuel. split; [| apply Parse_Instructions_total].
  unfold main.Parse_Instructions.
  replace fuel with (S (length input) + (fuel - S (length input)))%nat by lia.
  apply loop_more_fuel, Parse_Instructions_total.
Qed.

Lemma X14_sweep_ends_witness :
  main.loop 7 (main.init [0x90; 0xEB; 0xFD])
  = main.Parse_Instructions [0x90; 0xEB; 0xFD]
  /\ main.Parse_Instructions [0x90; 0xEB; 0xFD] <> main.OutOfFuel.
Proof. apply (X14_sweep_ends [0x90; 0xEB; 0xFD] 7). cbn. lia. Defined.

(** X15. How the sweep returns. When [Parse_Instructions] returns, the
    error that ended the loop is io.EOF or io.ErrUnexpectedEOF, the
    buffer is empty, and the final offset lies within the input; after
    io.ErrUnexpectedEOF it is strictly below the length of the input
    (the bytes of the unfinished opcode are not counted). *)
Theorem X15_sweep_returns input s err :
  main.Parse_Instructions input = main.Returned s err ->
  (err = EOF \/ err = ErrUnexpectedEOF)
  /\ bytes.unread (main.data s) = []
  /\ 0 <= main.offset s <= Z.of_nat (length input)
  /\ (err = ErrUnexpectedEOF -> main.offset s < Z.of_nat (length input)).
Proof.
  intros (s1 & data1 & Hreach & Hd & ->)%Returned_state.
  cbn [main.data main.offset].
  destruct (offset_bound _ _ Hreach) as [H0 Hb].
  unfold main.decoding in Hd.
  destruct (Stop_empties _ _ _ _ _ _ Hd) as [He Hu].
  split; [exact He |]. split; [exact Hu |]. split; [lia |].
  intros ->. apply decode_Stop in Hd as (_ & op & prefix & lit & HG).
  destruct (GetNext_end_cases (main.data s1))
    as (op' & p' & l' & e' & d' & HG' & _ & Hiff & _).
  rewrite HG in HG'. injection HG' as <- <- <- <- <-. clear HG.
  destruct Hiff as [Hiff _]. specialize (Hiff eq_refl).
  assert (Hlen : (1 <= length (bytes.unread (main.data s1)))%nat).
  { destruct Hiff as [(b & -> & _) | ->]; cbn; lia. }
  clear Hiff. lia.
Qed.

(** X15 on the input [90 0f]: a nop, then a prefix with nothing after
    it. *)
Lemma X15_sweep_returns_witness :
  exists s err,
    main.Parse_Instructions [0x90; 0x0F] = main.Returned s err
    /\ (err = EOF \/ err = ErrUnexpectedEOF)
    /\ bytes.unread (main.data s) = []
    /\ 0 <= main.offset s <= Z.of_nat (length [0x90; 0x0F])
    /\ (err = ErrUnexpectedEOF -> main.offset s < Z.of_nat (length [0x90; 0x0F])).
Proof.
  eexists _, _. split; [vm_compute; reflexivity |].
  apply (X15_sweep_returns [0x90; 0x0F]). vm_compute. reflexivity.
Defined.

(** X16. Stored rows are final. An instruction stored below the
    current offset is never decoded again: after any number of further
    rounds the same key holds the same instruction, except that its
    label may have been set, and then to the label [offset_<key>h] of
    its own key. *)
Theorem X16_stored_rows_are_final input s s' k x :
  main.reachable input s ->
  main.rounds s s' ->
  k < main.offset s ->
  main.instruction_at s k = Some x ->
  exists l,
    main.instruction_at s' k = Some (set_Label l x)
    /\ (l = Label x \/ l = label_of k).
Proof.
  intros Hreach Hr. revert x Hreach.
  induction Hr as [s | s s1 s2 Hit Hr IH]; intros x Hreach Hk Hx.
  - exists (Label x). rewrite set_Label_same. auto.
  - destruct (stored_step s s1 k x (wf_reachable _ _ Hreach) Hit Hk Hx)
      as (Hoff & l1 & Hx1 & Hl1).
    destruct (IH (set_Label l1 x)) as (l2 & Hx2 & Hl2);
      [by eapply main.reachable_step | lia | done |].
    exists l2. rewrite set_Label_twice in Hx2. split; [done |].
    cbn [Label set_Label] in Hl2. destruct Hl2 as [-> | ->]; auto.
Qed.

(** X16 on the input [90 eb fd]: the nop stored at offset 0 by the
    first round is still there after the second round, in which the
    jump back to offset 0 gives it its label. *)
Lemma X16_stored_rows_are_final_witness :
  exists s s' x,
    main.iteration (main.init [0x90; 0xEB; 0xFD]) = main.Continue s
    /\ main.iteration s = main.Continue s'
    /\ main.instruction_at s 0 = Some x
    /\ exists l,
         main.instruction_at s' 0 = Some (set_Label l x)
         /\ (l = Label x \/ l = label_of 0).
Proof.
  eexists _, _, _. split; [vm_compute; reflexivity |].
  split; [vm_compute; reflexivity |]. split; [vm_compute; reflexivity |].
  eapply (X16_stored_rows_are_final [0x90; 0xEB; 0xFD]).
  - eapply main.reachable_step; [apply main.reachable_init | vm_compute; reflexivity].
  - eapply main.rounds_step; [vm_compute; reflexivity | apply main.rounds_refl].
  - vm_compute. reflexivity.
  - vm_compute. reflexivity.
Defined.

(** X17. What the map holds. In every state of the sweep, an
    instruction stored under the key [k] has [k] as its offset field
    and a label that is empty or [offset_<k>h]; if it has bytes, [k]
    is not negative and lies below the current offset; and at or after
    the current offset it is a placeholder: the zero instruction with
    its offset and the label [offset_<k>h] set, left by a branch to
    [k]. *)
Theorem X17_stored_instructions input s k x :
  main.reachable input s ->
  main.instruction_at s k = Some x ->
  Offset x = k
  /\ (Label x = EmptyString \/ Label x = label_of k)
  /\ (Literal x <> [] -> 0 <= k < main.offset s)
  /\ (main.offset s <= k -> x = placeholder k (label_of k)).
Proof.
  intros Hreach Hx.
  destruct (tidy_reachable _ _ Hreach k x Hx) as (HO & HL & HP).
  split; [exact HO |]. split; [exact HL |]. split.
  - intros Hlit. split; [by eapply stored_nonneg |].
    destruct (Z.lt_ge_cases k (main.offset s)) as [Hlt | Hge]; [done |].
    exfalso. apply Hlit. by rewrite (HP Hge).
  - intros Hge. rewrite (HP Hge). f_equal. by eapply ahead_labelled.
Qed.

(** X17 after the round on [eb 00], a jump to offset 2: the key 2
    holds the placeholder. *)
Lemma X17_stored_instructions_witness :
  exists s' x,
    main.iteration (main.init [0xEB; 0x00]) = main.Continue s'
    /\ main.instruction_at s' 2 = Some x
    /\ Offset x = 2
    /\ (Label x = EmptyString \/ Label x = label_of 2)
    /\ (Literal x <> [] -> 0 <= 2 < main.offset s')
    /\ (main.offset s' <= 2 -> x = placeholder 2 (label_of 2)).
Proof.
  eexists _, _. split; [vm_compute; reflexivity |]. split; [vm_compute; reflexivity |].
  eapply (X17_stored_instructions [0xEB; 0x00]).
  - eapply main.reachable_step; [apply main.reachable_init | vm_compute; reflexivity].
  - vm_compute. reflexivity.
Defined.

(** X18. When the sweep panics. [Parse_Instructions] panics exactly
    when some round finds, in the tables, a record with the encoding
    MR, RM or RMI while no byte follows the opcode: the encoder then
    returns its error with the ModR/M pointer still nil, the sweep goes
    on to [StringifyOperands], and that reads [inst.Modrm.Reg]. No
    other input makes the sweep panic. *)
Theorem X18_sweep_panics_iff input :
  main.Parse_Instructions input = main.Panicked
  <-> exists s opcode prefix lit data1,
        main.reachable input s
        /\ operations.GetNext (main.data s) = (Some opcode, prefix, lit, None, data1)
        /\ (operations.Encoder opcode = encoders.MR
            \/ operations.Encoder opcode = encoders.RM
            \/ operations.Encoder opcode = encoders.RMI)
        /\ bytes.unread data1 = [].
Proof.
  split.
  - unfold main.Parse_Instructions. intros H.
    apply (loop_Panicked input) in H as (s & Hreach & Hit); [| apply main.reachable_init].
    apply iteration_Panic_iff in Hit. unfold main.decoding in Hit.
    apply decode_panic_iff in Hit as (opcode & prefix & lit & data1 & H);
      [| by eapply fetched_Modrm].
    by exists s, opcode, prefix, lit, data1.
  - intros (s & opcode & prefix & lit & data1 & Hreach & H).
    apply (reachable_result input s); [done | | done].
    cbn [main.loop].
    assert (Hit : main.iteration s = main.Panic).
    { apply iteration_Panic_iff. unfold main.decoding.
      apply decode_panic_iff; [by eapply fetched_Modrm |].
      by exists opcode, prefix, lit, data1. }
    by rewrite Hit.
Qed.

(** X19. The listing. After a sweep that returns, [Print_Instructions]
    does not panic (the zeros that [make] puts in the slice of offsets
    are looked up in the map, and the key 0 is there whenever the map
    is not empty), and it prints one row for each stored instruction
    that has bytes, in strictly increasing order of the keys, and no
    other row. *)
Theorem X19_listing_rows input s err :
  main.Parse_Instructions input = main.Returned s err ->
  exists printed,
    main.Print_Instructions s = Some printed
    /\ StronglySorted Z.lt printed.*1
    /\ (forall k x, (k, x) ∈ printed <->
          main.instruction_at s k = Some x /\ Literal x <> []).
Proof. apply returned_listing. Qed.

(** X19 on the input [90 eb fd]. *)
Lemma X19_listing_rows_witness :
  exists s err printed,
    main.Parse_Instructions [0x90; 0xEB; 0xFD] = main.Returned s err
    /\ main.Print_Instructions s = Some printed
    /\ StronglySorted Z.lt printed.*1
    /\ (forall k x, (k, x) ∈ printed <->
          main.instruction_at s k = Some x /\ Literal x <> []).
Proof.
  eexists _, _.
  assert (H : main.Parse_Instructions [0x90; 0xEB; 0xFD] = main.Returned _ _)
    by (vm_compute; reflexivity).
  destruct (X19_listing_rows _ _ _ H) as (printed & HP).
  exists printed. split; [exact H | exact HP].
Defined.

(** X20. What is written for a row. After a sweep that returns, each
    row of [Print_Instructions] is written for a key that is an offset
    within the input; the text written to the tabwriter for the first
    cell of the row is that key ([%08x:]); and the text written to the
    tabwriter before the row for its label, if there is one, is
    [offset_<key>h:] with the three tabs and the newline of the format:
    the label of the row's own offset. The tabwriter pads the cells it
    is given; what it prints is not modelled. *)
Theorem X20_row_texts input s err printed :
  main.Parse_Instructions input = main.Returned s err ->
  main.Print_Instructions s = Some printed ->
  Forall (fun r =>
            0 <= r.1 < Z.of_nat (length input)
            /\ main.ofst r.2 = fmt.x0 8 r.1 +:+ ":"
            /\ (main.label_text r.2 = None
                \/ main.label_text r.2
                   = Some (label_of r.1 +:+ ":" +:+ main.tab +:+ main.tab
                           +:+ main.tab +:+ main.newline)))
    printed.
Proof.
  intros HR HP.
  destruct (returned_listing input s err HR) as (printed' & HP' & _ & Hiff).
  rewrite HP in HP'. injection HP' as <-.
  apply Returned_state in HR as (s1 & data1 & Hreach & Hd & ->).
  assert (Hwf := wf_reachable _ _ Hreach).
  destruct (offset_bound _ _ Hreach) as [_ Hb].
  rewrite Forall_forall. intros [k x] [Hx Hlit]%Hiff. cbn [fst snd].
  rewrite Break_lookup in Hx by done.
  destruct (tidy_reachable _ _ Hreach k x Hx) as (HO & HL & HPl).
  assert (0 <= k) by (by eapply stored_nonneg).
  assert (k < main.offset s1).
  { destruct (Z.lt_ge_cases k (main.offset s1)) as [Hlt | Hge]; [done |].
    exfalso. apply Hlit. by rewrite (HPl Hge). }
  split; [lia |]. split.
  - unfold main.ofst. by rewrite HO.
  - unfold main.label_text. destruct HL as [-> | ->].
    + left. by rewrite bool_decide_eq_true_2.
    + right. by rewrite bool_decide_eq_false_2 by apply label_of_nonempty.
Qed.

(** X20 on the input [90 eb fd]. *)
Lemma X20_row_texts_witness :
  exists s err printed,
    main.Parse_Instructions [0x90; 0xEB; 0xFD] = main.Returned s err
    /\ main.Print_Instructions s = Some printed
    /\ Forall (fun r =>
                 0 <= r.1 < Z.of_nat (length [0x90; 0xEB; 0xFD])
                 /\ main.ofst r.2 = fmt.x0 8 r.1 +:+ ":"
                 /\ (main.label_text r.2 = None
                     \/ main.label_text r.2
                        = Some (label_of r.1 +:+ ":" +:+ main.tab +:+ main.tab
                                +:+ main.tab +:+ main.newline)))
         printed.
Proof.
  eexists _, _, _. split; [vm_compute; reflexivity |].
  split; [vm_compute; reflexivity |].
  eapply (X20_row_texts [0x90; 0xEB; 0xFD]); vm_compute; reflexivity.
Defined.

(** ** How long an instruction can be *)

Lemma Next_length n b d b' :
  bytes.Next n b = Some (d, b') -> (length d <= Z.to_nat n)%nat.
Proof. intros (_ & -> & _)%Next_spec. rewrite length_take. lia. Qed.

Lemma ParseImmediate_length data size immediate err data' :
  ParseImmediate data size = Some (immediate, err, data') ->
  (length immediate <= Z.to_nat size)%nat.
Proof.
  unfold ParseImmediate.
  destruct (bytes.Next size data) as [[d b'] |] eqn:HN; [| done].
  apply Next_length in HN. cbn [mbind option_bind].
  by destruct (negb _); intros [= <- _ _].
Qed.

Lemma ParseDisplacement_length modrm data size displacement err data' :
  ParseDisplacement modrm data size = Some (displacement, err, data') ->
  (length displacement
   <= match modrm with Some _ => 4 | None => Z.to_nat size end)%nat.
Proof.
  unfold ParseDisplacement.
  assert (Hfour :
    (bytes.Next 4 data ≫= λ '(displacement, data'),
       if negb (length displacement =? 4)%nat
       then Some (displacement, Some ErrUnexpectedEOF, data')
       else Some (displacement, None, data'))
    = Some (displacement, err, data') -> (length displacement <= 4)%nat).
  { destruct (bytes.Next 4 data) as [[d b'] |] eqn:HN; [| done].
    apply Next_length in HN. cbn [mbind option_bind].
    destruct (negb _); intros [= <- _ _]; lia. }
  destruct modrm as [m |].
  - destruct (Mod m =? AM_REG).
    { destruct (RM m =? REG_EBP); [done |]. intros [= <- _ _]. cbn. lia. }
    destruct (Mod m =? AM_BYTE_OFFSET).
    { destruct (bytes.ReadByte data) as [[c |] b']; intros [= <- _ _]; cbn; lia. }
    destruct (Mod m =? AM_DWORD_OFFSET); [done |].
    destruct (Mod m =? AM_DIRECT); intros [= <- _ _]; cbn; lia.
  - destruct (bytes.Next size data) as [[d b'] |] eqn:HN; [| done].
    apply Next_length in HN. cbn [mbind option_bind].
    by destruct (negb _); intros [= <- _ _].
Qed.

Lemma M_Encode_bound data inst inst' data' err :
  encoders.M_Encode data inst = Some (inst', data', err) ->
  Mnemonic inst' = Mnemonic inst
  /\ (length (Literal inst') <= length (Literal inst) + 5)%nat.
Proof.
  unfold encoders.M_Encode.
  destruct (bytes.ReadByte data) as [[next |] data1].
  - destruct (ParseDisplacement _ data1 0) as [[[d e] data2] |] eqn:HP; [| done].
    apply ParseDisplacement_length in HP. cbn [mbind option_bind].
    intros [= <- _ _]. cbn in *. split; [done |]. rewrite !length_app. cbn. lia.
  - intros [= <- _ _]. split; [done | lia].
Qed.

Lemma MI_Encode_bound data inst inst' data' err :
  encoders.MI_Encode data inst = Some (inst', data', err) ->
  Mnemonic inst' = Mnemonic inst
  /\ (length (Literal inst') <= length (Literal inst) + 9)%nat.
Proof.
  unfold encoders.MI_Encode.
  destruct (encoders.M_Encode data inst) as [[[i1 d1] e1] |] eqn:HM; [| done].
  apply M_Encode_bound in HM as [HM1 HM2]. cbn [mbind option_bind].
  destruct e1 as [e |].
  - intros [= <- _ _]. split; [done | lia].
  - destruct (ParseImmediate d1 4) as [[[imm e2] d2] |] eqn:HP; [| done].
    apply ParseImmediate_length in HP. cbn [mbind option_bind].
    intros [= <- _ _]. cbn. split; [done |]. rewrite length_app. lia.
Qed.

Lemma Encode_bound e data inst inst' data' err :
  ImmSize inst <= 4 -> DispSize inst <= 4 -> Modrm inst = None ->
  encoders.Encode e data inst = Some (inst', data', err) ->
  Mnemonic inst' = Mnemonic inst
  /\ (length (Literal inst') <= length (Literal inst) + operand_bytes e)%nat.
Proof.
  intros HI HD HM.
  destruct e; cbn [encoders.Encode operand_bytes];
    try apply M_Encode_bound; try apply MI_Encode_bound;
    try (intros [= <- _ _]; split; [done | lia]).
  - unfold encoders.I_Encode.
    destruct (ParseImmediate _ _) as [[[imm e2] d2] |] eqn:HP; [| done].
    apply ParseImmediate_length in HP. cbn [mbind option_bind].
    intros [= <- _ _]. cbn. split; [done |]. rewrite length_app. lia.
  - unfold encoders.OI_Encode.
    destruct (ParseImmediate _ _) as [[[imm e2] d2] |] eqn:HP; [| done].
    apply ParseImmediate_length in HP. cbn [mbind option_bind].
    intros [= <- _ _]. cbn. split; [done |]. rewrite length_app. lia.
  - unfold encoders.D_Encode. rewrite HM.
    destruct (ParseDisplacement _ _ _) as [[[d e2] d2] |] eqn:HP; [| done].
    apply ParseDisplacement_length in HP. cbn [mbind option_bind].
    intros [= <- _ _]. cbn. split; [done |]. rewrite length_app. lia.
Qed.

Lemma table_values_sizes_le :
  Forall (fun op => operations.OpCode_ImmSize op <= 4 /\ operations.OpCode_DispSize op <= 4)
    table_values.
Proof.
  assert (H : forallb (fun op => (operations.OpCode_ImmSize op <=? 4)
                                 && (operations.OpCode_DispSize op <=? 4)) table_values
              = true) by (vm_compute; reflexivity).
  rewrite forallb_forall in H. apply Forall_forall. intros op Hop.
  apply list_elem_of_In, H in Hop. apply andb_true_iff in Hop as [H1 H2].
  apply Z.leb_le in H1, H2. split; assumption.
Qed.

(** [(o *OpCode) Encode] on a record that [GetNext] has returned. *)
Lemma record_Encode data op prefix lit data1 inst :
  operations.GetNext data = (Some op, prefix, lit, None, data1) ->
  Modrm inst = None ->
  exists inst' data2 err extra,
    operations.Encode op data1 inst = Some (inst', data2, err)
    /\ eof_or_nil err data2
    /\ Mnemonic inst' = operations.OpCode_Mnemonic op
    /\ Literal inst' = Literal inst ++ extra
    /\ bytes.unread data1 = extra ++ bytes.unread data2
    /\ (length extra <= operand_bytes (operations.Encoder op))%nat.
Proof.
  intros HG HM. apply GetNext_table_value in HG.
  assert (H1 := table_values_sizes). assert (H2 := table_values_sizes_le).
  rewrite Forall_forall in H1, H2. destruct (H1 _ HG) as [Ha Hb].
  destruct (H2 _ HG) as [Hc Hd]. clear H1 H2 HG.
  unfold operations.Encode. set (i3 := set_ImmSize _ _).
  assert (Modrm i3 = None) by (by subst i3).
  assert (ImmSize i3 = operations.OpCode_ImmSize op) by (by subst i3).
  assert (DispSize i3 = operations.OpCode_DispSize op) by (by subst i3).
  assert (Mnemonic i3 = operations.OpCode_Mnemonic op) by (by subst i3).
  assert (HL : Literal i3 = Literal inst) by (by subst i3).
  clearbody i3.
  destruct (Encode_result (operations.Encoder op) data1 i3)
    as (inst' & data2 & err & HE & He); [lia | lia | done |].
  destruct (Encode_appends _ _ _ _ _ _ HE) as (extra & E1 & E2 & _).
  assert (HI4 : ImmSize i3 <= 4) by lia. assert (HD4 : DispSize i3 <= 4) by lia.
  destruct (Encode_bound _ _ _ _ _ _ HI4 HD4 ltac:(done) HE) as [B1 B2].
  exists inst', data2, err, extra. rewrite HE. split; [done |]. split; [done |].
  split; [congruence |]. split; [congruence |]. split; [done |].
  rewrite E1, length_app in B2. lia.
Qed.

(** No stored instruction has more than eleven bytes. *)
Lemma literal_bound input s k x :
  main.reachable input s ->
  main.instruction_at s k = Some x -> (length (Literal x) <= 11)%nat.
Proof.
  intros Hreach. revert k x.
  induction Hreach as [| s s' Hreach IH Hit]; intros k x.
  - unfold main.instruction_at. cbn. by rewrite lookup_empty.
  - assert (Hwf := wf_reachable _ _ Hreach).
    destruct (fetch_pointer s Hwf) as (p & Hf & _ & _ & Hempty & _).
    assert (HM := fetched_Modrm _ _ Hreach). rewrite Hf in HM. cbn [fst snd] in HM.
    apply iteration_Continue in Hit
      as [(inst & d1 & Hd & ->) | (inst & d2 & T & b & out & Hd & ->)].
    + rewrite Unknown_lookup by done.
      destruct (decide (k = main.offset s)) as [-> | _]; [| apply IH].
      intros [= <-]. unfold main.decoding in Hd. rewrite Hf in Hd. cbn [fst snd] in Hd.
      apply decode_Unknown_literal in Hd as ((lit & ->) & _). rewrite Hempty. cbn. lia.
    + assert (HL : (length (Literal inst) <= 11)%nat).
      { unfold main.decoding in Hd. rewrite Hf in Hd. cbn [fst snd] in Hd.
        apply decode_Decoded in Hd
          as (opcode & prefix & lit & data1 & i6 & err1 & err2 & HG & HE & _ & -> & _).
        cbn [Literal set_Operands].
        destruct (record_Encode _ _ _ _ _
                    (started (main.offset s) prefix lit
                       (main.load p (main.heap s ++ [zero_Instruction]))) HG)
          as (i' & d' & e' & extra & HE' & _ & _ & HLit & _ & Hlen).
        { by rewrite started_Modrm. }
        clear HG. rewrite HE in HE'. injection HE' as <- _ _. rewrite HLit.
        assert (Hop : (operand_bytes (operations.Encoder opcode) <= 9)%nat)
          by (destruct (operations.Encoder opcode); cbn; lia).
        rewrite length_app, started_Literal, Hempty.
        destruct prefix; cbn; lia. }
      rewrite after_lookup by done.
      destruct (decide (k = main.offset s)) as [-> | _]; [by intros [= <-] |].
      destruct b; cbn [andb]; [| apply IH].
      destruct (bool_decide (k = T)) eqn:E; [| apply IH].
      intros [= <-]. cbn [Literal set_Label].
      destruct (main.instruction_at s T) as [y |] eqn:Hy; cbn [default];
        [by eapply IH | cbn; lia].
Qed.

(** X21. [(o *OpCode) Encode] on a record that [GetNext] has returned,
    for an instruction without ModR/M: it does not panic; it stores the
    record's mnemonic; its only error is UnexpectedEOF, with the buffer
    then empty; the bytes appended to the literal are the bytes taken
    from the buffer; and they are at most five for the encodings M, MR
    and RM, nine for MI and RMI, none for NP and O, and four for I, OI
    and D. *)
Theorem X21_record_Encode data op prefix lit data1 inst :
  operations.GetNext data = (Some op, prefix, lit, None, data1) ->
  Modrm inst = None ->
  exists inst' data2 err extra,
    operations.Encode op data1 inst = Some (inst', data2, err)
    /\ (err = None \/ err = Some ErrUnexpectedEOF /\ bytes.unread data2 = [])
    /\ Mnemonic inst' = operations.OpCode_Mnemonic op
    /\ Literal inst' = Literal inst ++ extra
    /\ bytes.unread data1 = extra ++ bytes.unread data2
    /\ (length extra <= operand_bytes (operations.Encoder op))%nat.
Proof. apply record_Encode. Qed.

(** X21 on [81 c3 01 02] (add ebx, imm32, cut short): the encoder MI
    takes the three bytes that are left and reports UnexpectedEOF. *)
Lemma X21_record_Encode_witness :
  exists op prefix lit data1 inst' data2 err extra,
    operations.GetNext (bytes.NewBuffer [0x81; 0xC3; 0x01; 0x02])
    = (Some op, prefix, lit, None, data1)
    /\ operations.Encode op data1 zero_Instruction = Some (inst', data2, err)
    /\ (err = None \/ err = Some ErrUnexpectedEOF /\ bytes.unread data2 = [])
    /\ Mnemonic inst' = operations.OpCode_Mnemonic op
    /\ Literal inst' = Literal zero_Instruction ++ extra
    /\ bytes.unread data1 = extra ++ bytes.unread data2
    /\ (length extra <= operand_bytes (operations.Encoder op))%nat.
Proof.
  eexists _, _, _, _.
  assert (HG : operations.GetNext (bytes.NewBuffer [0x81; 0xC3; 0x01; 0x02])
               = (Some _, _, _, None, _)) by (vm_compute; reflexivity).
  destruct (X21_record_Encode _ _ _ _ _ zero_Instruction HG eq_refl)
    as (inst' & data2 & err & extra & H).
  exists inst', data2, err, extra. split; [exact HG | exact H].
Defined.

(** X22. No row is longer than eleven bytes. In every state of the
    sweep the literal of a stored instruction has at most eleven bytes:
    a prefix byte, the opcode byte, and the nine bytes of ModR/M,
    displacement and immediate that the encodings MI and RMI can
    take. *)
Theorem X22_row_length input s k x :
  main.reachable input s ->
  main.instruction_at s k = Some x ->
  (length (Literal x) <= 11)%nat.
Proof. apply literal_bound. Qed.

(** X22 after the round on [f2 69 80 01 02 03 04 05 06 07 08 09]: the
    stored instruction has eleven bytes, and the twelfth stays in the
    buffer. *)
Lemma X22_row_length_witness :
  exists s' x,
    main.iteration (main.init [0xF2; 0x69; 0x80; 1; 2; 3; 4; 5; 6; 7; 8; 9])
    = main.Continue s'
    /\ main.instruction_at s' 0 = Some x
    /\ length (Literal x) = 11%nat
    /\ (length (Literal x) <= 11)%nat.
Proof.
  eexists _, _. split; [vm_compute; reflexivity |]. split; [vm_compute; reflexivity |].
  split; [vm_compute; reflexivity |].
  eapply (X22_row_length [0xF2; 0x69; 0x80; 1; 2; 3; 4; 5; 6; 7; 8; 9] _ 0).
  - eapply main.reachable_step; [apply main.reachable_init | vm_compute; reflexivity].
  - vm_compute. reflexivity.
Defined.

(** ** What the sweep prints *)










(** ** The rows tile the swept offsets *)

Lemma row_at_ahead s k : wf s -> main.offset s <= k -> row_at s k = [].
Proof.
  intros Hwf Hk. unfold row_at, main.instruction_at.
  destruct (main.Instructions s !! k) as [p |] eqn:Hp; [| done]. cbn [mbind option_bind].
  destruct (main.heap s !! p) as [x |] eqn:Hx; [| done].
  rewrite <- (lookup_load _ _ _ Hx). by eapply wf_ahead.
Qed.

(** A round adds one row, at its offset, and leaves the bytes of every
    other row as they are. *)
Lemma row_at_step s s' :
  wf s ->
  main.iteration s = main.Continue s' ->
  exists L,
    L <> []
    /\ main.offset s' = main.offset s + Z.of_nat (length L)
    /\ forall k, row_at s' k = if decide (k = main.offset s) then L else row_at s k.
Proof.
  intros Hwf Hit.
  destruct (fetch_pointer s Hwf) as (p & Hf & _ & _ & Hempty & _).
  apply iteration_Continue in Hit
    as [(inst & d1 & Hd & ->) | (inst & d2 & T & b & out & Hd & ->)].
  - unfold main.decoding in Hd. rewrite Hf in Hd. cbn [fst snd] in Hd.
    apply decode_Unknown_literal in Hd as ((lit & HL) & _). rewrite Hempty in HL.
    exists (Literal inst). rewrite HL. split; [done |]. split; [done |].
    intros k. unfold row_at. rewrite Unknown_lookup by done.
    destruct (decide (k = main.offset s)); [by rewrite HL | done].
  - unfold main.decoding in Hd.
    apply decode_Decoded_literal in Hd as ((extra & HL & Hne) & _).
    exists (Literal inst). split.
    { rewrite HL. intros [_ ?]%app_eq_nil. done. }
    split; [by apply after_offset |].
    intros k. unfold row_at. rewrite after_lookup by done.
    destruct (decide (k = main.offset s)); [done |].
    destruct b; cbn [andb]; [| done].
    destruct (bool_decide (k = T)) eqn:E; [| done].
    apply bool_decide_eq_true_1 in E. subst T.
    by destruct (main.instruction_at s k).
Qed.

Lemma tiles_reachable input s :
  main.reachable input s ->
  (forall k, row_at s k <> [] ->
     0 <= k /\ k + Z.of_nat (length (row_at s k)) <= main.offset s)
  /\ (forall j, 0 <= j < main.offset s ->
        exists k, k <= j < k + Z.of_nat (length (row_at s k)))
  /\ (forall k k' j,
        k <= j < k + Z.of_nat (length (row_at s k)) ->
        k' <= j < k' + Z.of_nat (length (row_at s k')) -> k = k').
Proof.
  induction 1 as [| s s' Hreach (Ha & Hb & Hc) Hit].
  { split; [| split].
    - intros k Hk. exfalso. apply Hk. unfold row_at, main.instruction_at. cbn.
      by rewrite lookup_empty.
    - cbn. intros j Hj. lia.
    - intros k k' j Hk. exfalso. revert Hk. unfold row_at, main.instruction_at. cbn.
      rewrite lookup_empty. cbn. lia. }
  assert (Hwf := wf_reachable _ _ Hreach).
  destruct (offset_bound _ _ Hreach) as [H0 _].
  destruct (row_at_step s s' Hwf Hit) as (L & HL & Hoff & Hrow).
  assert (Hlen : (0 < length L)%nat) by (destruct L; [done | cbn; lia]).
  assert (Hold : forall k, k <> main.offset s -> (0 < length (row_at s k))%nat ->
                           k + Z.of_nat (length (row_at s k)) <= main.offset s).
  { intros k _ Hk. apply Ha. destruct (row_at s k); [cbn in Hk; lia | done]. }
  split; [| split].
  - intros k. rewrite Hrow. destruct (decide (k = main.offset s)) as [-> | Hne].
    + intros _. lia.
    + intros Hk. destruct (Ha k Hk). lia.
  - intros j Hj. destruct (Z.lt_ge_cases j (main.offset s)) as [Hlt | Hge].
    + destruct (Hb j ltac:(lia)) as (k & Hk). exists k. rewrite Hrow.
      destruct (decide (k = main.offset s)) as [-> | Hne]; [| done].
      rewrite (row_at_ahead s (main.offset s)) in Hk by (done || lia). cbn in Hk. lia.
    + exists (main.offset s). rewrite Hrow.
      destruct (decide (main.offset s = main.offset s)); [lia | done].
  - intros k k' j. rewrite !Hrow.
    destruct (decide (k = main.offset s)) as [-> | Hne];
      destruct (decide (k' = main.offset s)) as [-> | Hne']; [done | | |].
    + intros H1 H2. specialize (Hold k' Hne' ltac:(lia)). lia.
    + intros H1 H2. specialize (Hold k Hne ltac:(lia)). lia.
    + apply Hc.
Qed.

(** X24. The rows tile the swept offsets. In every state of the sweep,
    every offset from 0 up to the current offset lies in exactly one
    row: there is one key [k] whose stored instruction has bytes and
    spans the offset ([k <= j < k + len(Literal)]). Rows neither overlap
    nor leave a gap, and none reaches beyond the current offset. *)
Theorem X24_rows_tile input s j :
  main.reachable input s ->
  0 <= j < main.offset s ->
  exists k,
    k <= j < k + Z.of_nat (length (row_at s k))
    /\ 0 <= k
    /\ k + Z.of_nat (length (row_at s k)) <= main.offset s
    /\ forall k', k' <= j < k' + Z.of_nat (length (row_at s k')) -> k' = k.
Proof.
  intros Hreach Hj. destruct (tiles_reachable _ _ Hreach) as (Ha & Hb & Hc).
  destruct (Hb j Hj) as (k & Hk). exists k. split; [done |].
  assert (Hne : row_at s k <> []) by (destruct (row_at s k); [cbn in Hk; lia | done]).
  destruct (Ha k Hne). split; [done |]. split; [done |].
  intros k' Hk'. by eapply Hc.
Qed.

(** X24 after two rounds on [90 b8 01 02 03 04]: the offset 3 lies in
    the row of key 1. *)
Lemma X24_rows_tile_witness :
  exists s s',
    main.iteration (main.init [0x90; 0xB8; 1; 2; 3; 4]) = main.Continue s
    /\ main.iteration s = main.Continue s'
    /\ exists k,
         k <= 3 < k + Z.of_nat (length (row_at s' k))
         /\ 0 <= k
         /\ k + Z.of_nat (length (row_at s' k)) <= main.offset s'
         /\ forall k', k' <= 3 < k' + Z.of_nat (length (row_at s' k')) -> k' = k.
Proof.
  eexists _, _. split; [vm_compute; reflexivity |]. split; [vm_compute; reflexivity |].
  apply (X24_rows_tile [0x90; 0xB8; 1; 2; 3; 4]).
  - eapply main.reachable_step;
      [eapply main.reachable_step; [apply main.reachable_init | vm_compute; reflexivity]
      | vm_compute; reflexivity].
  - vm_compute. split; [by intros [=] | reflexivity].
Defined.

(** ** Running out of bytes, by phase *)

(** C4, amended. A round that runs out of bytes in dispatch ends the
    sweep with the error UnexpectedEOF and stores nothing: the map is
    the one before the round, every instruction in it is unchanged, and
    it holds no instruction with a non-empty literal at or after the
    current offset. A round that runs out of bytes in the encoder does
    not end the sweep on that error: unless the stringifier panics, the
    error is printed and the instruction is stored at the current
    offset with the bytes read so far, as a row to be printed. The
    bytes read so far are all the bytes that were left in the buffer
    (prefix and opcode bytes included): they are the literal of the
    stored instruction, the buffer is empty, and the offset advances by
    their number. *)
Theorem C4_exhaustion_by_phase
    (input : list Z) (s : main.State) (ph : phase)
    (Hreach : main.reachable input s)
    (Hout : exhausted_in s = Some ph) :
  match ph with
  | InDispatch =>
      exists s',
        main.iteration s = main.Break s' ErrUnexpectedEOF
        /\ main.Instructions s' = main.Instructions s
        /\ (forall k, main.instruction_at s' k = main.instruction_at s k)
        /\ (forall k i, main.offset s <= k ->
              main.instruction_at s' k = Some i -> Literal i = [])
  | InEncoder =>
      main.iteration s = main.Panic
      \/ exists s' i,
           main.iteration s = main.Continue s'
           /\ main.instruction_at s' (main.offset s) = Some i
           /\ main.emitted i = true
           /\ Offset i = main.offset s
           /\ Literal i = bytes.unread (main.data s)
           /\ bytes.unread (main.data s') = []
           /\ main.offset s' = main.offset s + Z.of_nat (length (Literal i))
           /\ "Error encoding: unexpected EOF" +:+ main.newline ∈ main.stdout s'
  end.
Proof.
  assert (Hwf := wf_reachable _ _ Hreach).
  assert (HM := fetched_Modrm _ _ Hreach).
  unfold exhausted_in in Hout.
  destruct (operations.GetNext (main.data s)) as [[[[op prefix] lit] [e |]] data1] eqn:HG.
  - assert (He : e = ErrUnexpectedEOF /\ ph = InDispatch).
    { destruct op; case_bool_decide; by simplify_eq. }
    destruct He as [-> ->].
    assert (Hd : main.decoding s = main.Stop ErrUnexpectedEOF data1).
    { unfold main.decoding, main.decode. rewrite HG. by destruct op. }
    rewrite (iteration_Stop _ _ _ Hd). eexists. split; [done |].
    split; [done |]. split; [intros k; by apply Break_lookup |].
    intros k i Hk. rewrite Break_lookup by done. unfold main.instruction_at.
    destruct (main.Instructions s !! k) as [q |] eqn:Hq; [| done].
    cbn [mbind option_bind]. intros Hi.
    rewrite <- (lookup_load _ _ _ Hi). by eapply wf_ahead.
  - destruct op as [opcode |]; [| done].
    destruct (operations.Encode _ _ _) as [[[i6 data2] [e1 |]] |] eqn:HE; try done.
    assert (He : e1 = ErrUnexpectedEOF /\ ph = InEncoder).
    { case_bool_decide; by simplify_eq. }
    destruct He as [-> ->].
    destruct (encoders.StringifyOperands (operations.Encoder opcode) i6)
      as [[[[ops T] b] e2] |] eqn:HS.
    + right.
      assert (Hd : main.decoding s
                   = main.Decoded (set_Operands ops i6) data2 T b
                       (main.report "Error stringifying: " e2
                          (main.report "Error encoding: " (Some ErrUnexpectedEOF)
                             (main.stdout s)))).
      { unfold main.decoding, main.decode. rewrite HG.
        fold (started (main.offset s) prefix lit
                (main.load (main.fetch s).1 (main.fetch s).2)).
        by rewrite HE, HS. }
      assert (Hempty2 : bytes.unread data2 = []).
      { destruct (record_Encode _ _ _ _ _
                    (started (main.offset s) prefix lit
                       (main.load (main.fetch s).1 (main.fetch s).2)) HG)
          as (i' & d' & e' & extra & HE' & Heof & _).
        { by rewrite started_Modrm. }
        rewrite HE in HE'. injection HE' as <- <- <-.
        by destruct Heof as [? | [_ ?]]. }
      clear HG.
      rewrite (iteration_Decoded _ _ _ _ _ _ Hd).
      destruct (after_stored s (set_Operands ops i6) data2 T b
                  (main.report "Error stringifying: " e2
                     (main.report "Error encoding: " (Some ErrUnexpectedEOF)
                        (main.stdout s))) Hwf) as (l & Hat).
      eexists _, _. split; [done |]. split; [exact Hat |].
      assert (Hlit : Literal (set_Operands ops i6) = bytes.unread (main.data s)).
      { destruct (fetch_pointer s Hwf) as (p & Hf & _ & _ & Hempty & _).
        unfold main.decoding in Hd. rewrite Hf in Hd. cbn [fst snd] in Hd.
        apply decode_reads in Hd as (extra & HL & HU).
        rewrite Hempty in HL. rewrite HL, HU, Hempty2, app_nil_r. done. }
      apply decode_Decoded_literal in Hd as ((extra & HL & Hne) & _ & Ho & _).
      split_and!.
      * assert (Hnil : Literal (set_Operands ops i6) <> []).
        { rewrite HL. by intros [_ Hx]%app_eq_nil. }
        unfold main.emitted. cbn in Hnil |- *. by destruct (Literal i6).
      * done.
      * exact Hlit.
      * done.
      * rewrite after_offset by done. done.
      * unfold after. cbn [main.stdout]. unfold main.report.
        destruct e2; set_solver.
    + left. unfold main.iteration.
      destruct (main.fetch s) as [p h0] eqn:Hf. cbn [fst snd] in HE.
      unfold main.decode. rewrite HG.
      fold (started (main.offset s) prefix lit (main.load p h0)).
      by rewrite HE, HS.
Qed.

(** C4, amended, on [0f] (a prefix and nothing after it: the sweep
    ends and stores nothing) and on [b8 01] (mov eax, imm32 with one of
    its four bytes: the two bytes are stored as a row at offset 0). *)
Lemma C4_exhaustion_by_phase_witness :
  (exists s',
     main.iteration (main.init [0x0F]) = main.Break s' ErrUnexpectedEOF
     /\ main.Instructions s' = ∅
     /\ (forall k, main.instruction_at s' k = main.instruction_at (main.init [0x0F]) k)
     /\ (forall k i, 0 <= k -> main.instruction_at s' k = Some i -> Literal i = []))
  /\ (main.iteration (main.init [0xB8; 0x01]) = main.Panic
      \/ exists s' i,
           main.iteration (main.init [0xB8; 0x01]) = main.Continue s'
           /\ main.instruction_at s' 0 = Some i
           /\ main.emitted i = true
           /\ Offset i = 0
           /\ Literal i = [0xB8; 0x01]
           /\ bytes.unread (main.data s') = []
           /\ main.offset s' = 0 + Z.of_nat (length (Literal i))
           /\ "Error encoding: unexpected EOF" +:+ main.newline ∈ main.stdout s').
Proof.
  split.
  - apply (C4_exhaustion_by_phase [0x0F] (main.init [0x0F]) InDispatch).
    + apply main.reachable_init.
    + vm_compute. reflexivity.
  - apply (C4_exhaustion_by_phase [0xB8; 0x01] (main.init [0xB8; 0x01]) InEncoder).
    + apply main.reachable_init.
    + vm_compute. reflexivity.
Defined.
